(** * Binance virtual trader: store, calculator, trigger engine, broker

    A shallow embedding of the paper-trading engine:
    - [src/types]              the data model (positions, fills, events);
    - [src/lib/db/queries.ts]  the SQLite store and its operations;
    - [src/lib/calc/pnl.ts]    the pure calculator and the SL/TP predicates;
    - [src/lib/triggers/engine.ts]   the per-tick trigger evaluator;
    - [src/lib/binance/ws-client.ts] the reconnect logic of the price feed;
    - [src/lib/binance/rest-api.ts]  the symbol format check;
    - [src/app/api/paper/positions/route.ts] and [.../stats/route.ts].

    Conventions of the model.
    - A JavaScript [number] is an exact rational ([Q]); IEEE-754 rounding,
      NaN and the infinities are outside the model, so every arithmetic
      identity below is one of exact arithmetic, stated with [==], and a
      division by zero (which JavaScript answers with an infinity or NaN)
      is not given a meaning.  Integer-valued columns (ids, timestamps)
      are [Z].
    - Strings are ASCII; [toUpperCase] and [toLowerCase] map letters only.
    - [Date.now()] is an argument ([now]) of the operation that reads it.
    - A JSON payload column holds the structure that the code serialises.
    - The store is the SQLite file: three tables kept as lists of rows in
      insertion (rowid) order, the AUTOINCREMENT counters and the settings
      row.  Every write statement may be refused by the storage layer; the
      schedule of refusals is the [io] component of the world.  Reads do
      not fail.
    - Every operation below is synchronous in the source (better-sqlite3,
      no [await] between its statements), so operations do not interleave.
    - Logging, the ping timer and the wire encoding of frames are left
      out. *)

From Stdlib Require Import List String Ascii ZArith QArith Bool Lia Lqa.
From Stdlib Require Import Qabs Permutation.
Import ListNotations.

Set Implicit Arguments.

(** ** Data model ([src/types]) *)

Inductive PositionSide := LONG | SHORT.
Inductive PositionStatus := OPEN | CLOSED.
Inductive EntryType := MARKET | LIMIT.
Inductive SizeMode := USDT | QTY.
Inductive PriceMode := PERCENT | PRICE.

Module FillType.
Inductive t := OPEN | CLOSE | PARTIAL.
Definition eqb (a b : t) : bool :=
  match a, b with
  | OPEN, OPEN | CLOSE, CLOSE | PARTIAL, PARTIAL => true
  | _, _ => false
  end.
End FillType.

Inductive EventType :=
| SL_TRIGGERED
| TP_TRIGGERED
| MANUAL_CLOSE
| SL_UPDATED
| TP_UPDATED
| POSITION_CREATED.

(** The argument type of [closePosition]:
    ['SL_TRIGGERED' | 'TP_TRIGGERED' | 'MANUAL_CLOSE']. *)
Inductive CloseEvent := CloseSL | CloseTP | CloseManual.

Definition closeEventType (e : CloseEvent) : EventType :=
  match e with
  | CloseSL => SL_TRIGGERED
  | CloseTP => TP_TRIGGERED
  | CloseManual => MANUAL_CLOSE
  end.

(** The events that end a position's life. *)
Definition isTerminalEvent (e : EventType) : bool :=
  match e with
  | SL_TRIGGERED | TP_TRIGGERED | MANUAL_CLOSE => true
  | _ => false
  end.

Definition isPositionSide (value : string) : option PositionSide :=
  if String.eqb value "LONG" then Some LONG
  else if String.eqb value "SHORT" then Some SHORT
  else None.

Module Position.
Record t := mk {
  id : Z;
  symbol : string;
  side : PositionSide;
  qty : Q;
  entryPrice : Q;
  entryTime : Z;
  sl : option Q;
  tp : option Q;
  leverage : Q;
  status : PositionStatus;
  closePrice : option Q;
  closeTime : option Z;
  realizedPnl : Q;
  feesOpen : Q;
  feesClose : Q;
  fundingPnl : Q;
  notes : option string
}.
End Position.

Module Fill.
Record t := mk {
  id : Z;
  positionId : Z;
  type : FillType.t;
  price : Q;
  qty : Q;
  fee : Q;
  ts : Z
}.
End Fill.

(** [UpdatePositionRequest]: each field is absent ([undefined], [None]) or
    present; a present field of a JSON body is a number or [null]. *)
Module UpdatePositionRequest.
Record t := mk {
  sl : option (option Q);
  tp : option (option Q)
}.
End UpdatePositionRequest.

(** What [JSON.stringify] is applied to when an event is logged. *)
Inductive Payload :=
| PayloadCreated (entryType : EntryType) (notes : option string)
| PayloadUpdated (data : UpdatePositionRequest.t)
| PayloadClosed (closePrice realizedPnl : Q).

Module Event.
Record t := mk {
  id : Z;
  positionId : Z;
  event : EventType;
  payload : Payload;
  ts : Z
}.
End Event.

Module Settings.
Record t := mk {
  id : Z;
  takerFee : Q;
  makerFee : Q;
  enableFunding : bool;
  baseBalance : Q;
  numberFormat : string;
  timezone : string;
  defaultStopLossPercent : Q;
  defaultTakeProfitPercent : Q
}.
End Settings.

(** [CreatePositionRequest] as it arrives in a JSON body.  [side] is the
    raw string (the route does not check it); an absent [symbol] or [side]
    is the empty string and an absent [sizeValue] or [leverage] is [0],
    which the route cannot tell apart (all are falsy). *)
Module CreatePositionRequest.
Record t := mk {
  symbol : string;
  side : string;
  sizeMode : SizeMode;
  sizeValue : Q;
  leverage : Q;
  entryType : EntryType;
  limitPrice : option Q;
  sl : option Q;
  tp : option Q;
  slMode : option PriceMode;
  tpMode : option PriceMode;
  notes : option string
}.
End CreatePositionRequest.

(** ** JavaScript truthiness *)

Definition isZero (x : Q) : bool := (Qnum x =? 0)%Z.

(** [x || null] for an optional number: [undefined], [null] and [0] all
    become [null]. *)
Definition numOrNull (x : option Q) : option Q :=
  match x with
  | Some v => if isZero v then None else Some v
  | None => None
  end.

(** [x || null] for an optional string. *)
Definition strOrNull (x : option string) : option string :=
  match x with
  | Some EmptyString => None
  | other => other
  end.

Definition Qleb (x y : Q) : bool := Qle_bool x y.
Definition Qltb (x y : Q) : bool := negb (Qle_bool y x).

(** ** The store ([src/lib/db/schema.sql], [src/lib/db/index.ts]) *)

Record Db := mkDb {
  paper_positions : list Position.t;
  paper_fills : list Fill.t;
  paper_events : list Event.t;
  settings : Settings.t;
  seq_positions : Z;
  seq_fills : Z;
  seq_events : Z
}.

Inductive WsSignal := Connected | Disconnected | MaxReconnectAttemptsReached.

Inductive WsMethod := SUBSCRIBE | UNSUBSCRIBE.

(** [BinanceWebSocketClient]: the fields of the class, the frames sent so
    far, the delays passed to [setTimeout] and the signals emitted. *)
Record WsClient := mkWs {
  ws_open : bool;
  subscribedSymbols : list string;
  reconnectAttempts : nat;
  isIntentionallyClosed : bool;
  messageId : Z;
  sent : list (WsMethod * list string * Z);
  scheduled : list Z;
  signals : list WsSignal
}.

(** What the [TriggerEngine] emits on its own channels. *)
Inductive EngineEvent :=
| PriceUpdate (symbol : string) (markPrice : Q) (timestamp : Z)
| TriggerExecuted (positionId : Z) (event : CloseEvent)
                  (closePrice realizedPnl : Q).

(** Everything the process can observe or change: the database, the
    storage layer's schedule of refused writes, the price feed client, and
    the engine's price cache and emitted events. *)
Record World := mkWorld {
  db : Db;
  io : list bool;
  ws : WsClient;
  priceCache : list (string * Q);
  emitted : list EngineEvent
}.

Definition set_db (w : World) (d : Db) : World :=
  mkWorld d (io w) (ws w) (priceCache w) (emitted w).
Definition set_io (w : World) (l : list bool) : World :=
  mkWorld (db w) l (ws w) (priceCache w) (emitted w).
Definition set_ws (w : World) (c : WsClient) : World :=
  mkWorld (db w) (io w) c (priceCache w) (emitted w).
Definition set_priceCache (w : World) (c : list (string * Q)) : World :=
  mkWorld (db w) (io w) (ws w) c (emitted w).
Definition emit (e : EngineEvent) (w : World) : World :=
  mkWorld (db w) (io w) (ws w) (priceCache w) (emitted w ++ [e]).

(** ** Fallible, stateful computations *)

Inductive Error :=
| SqliteIoError
| SqliteConstraintCheck
| SqliteConstraintForeignKey
| InvalidSymbolFormat
| BinanceApiError
| TypeError.

Inductive Res (A : Type) :=
| Ok (a : A)
| Throw (e : Error).
Arguments Ok {A} a.
Arguments Throw {A} e.

Definition M (A : Type) : Type := World -> Res A * World.

Definition ret {A} (a : A) : M A := fun w => (Ok a, w).
Definition throw {A} (e : Error) : M A := fun w => (Throw e, w).
Definition bind {A B} (c : M A) (k : A -> M B) : M B :=
  fun w =>
    match c w with
    | (Ok a, w') => k a w'
    | (Throw e, w') => (Throw e, w')
    end.
Definition tryCatch {A} (c : M A) (handler : Error -> M A) : M A :=
  fun w =>
    match c w with
    | (Throw e, w') => handler e w'
    | r => r
    end.
Definition gets {A} (f : World -> A) : M A := fun w => (Ok (f w), w).
Definition modify (f : World -> World) : M unit := fun w => (Ok tt, f w).

Declare Scope db_scope.
Delimit Scope db_scope with db.
Notation "x <- c ;; k" := (bind c (fun x => k))
  (at level 61, c at next level, right associativity) : db_scope.
Notation "c ;;; k" := (bind c (fun _ => k))
  (at level 61, right associativity) : db_scope.
Open Scope db_scope.

(** [stmt.run] of a write statement.  The storage layer consumes one entry
    of the fault schedule; a refused statement changes no table. *)
Definition run {A} (statement : Db -> Res (A * Db)) : M A :=
  fun w =>
    match io w with
    | true :: rest => (Throw SqliteIoError, set_io w rest)
    | _ =>
        let w1 := set_io w (tl (io w)) in
        match statement (db w) with
        | Ok (a, d) => (Ok a, set_db w1 d)
        | Throw e => (Throw e, w1)
        end
    end.

Definition hasPosition (d : Db) (id : Z) : bool :=
  existsb (fun p => (Position.id p =? id)%Z) (paper_positions d).

Definition set_positions (d : Db) (rows : list Position.t) : Db :=
  mkDb rows (paper_fills d) (paper_events d) (settings d)
       (seq_positions d) (seq_fills d) (seq_events d).

(** ** Queries ([src/lib/db/queries.ts]) *)

Module Queries.

(** [SELECT * FROM paper_positions WHERE id = ?], first row. *)
Definition selectPosition (d : Db) (id : Z) : option Position.t :=
  find (fun p => (Position.id p =? id)%Z) (paper_positions d).

Definition getPositionById (id : Z) : M (option Position.t) :=
  gets (fun w => selectPosition (db w) id).

(** [ORDER BY entryTime DESC], rows of equal [entryTime] in rowid order. *)
Fixpoint insertByEntryTime (p : Position.t) (l : list Position.t)
  : list Position.t :=
  match l with
  | [] => [p]
  | q :: l' =>
      if (Position.entryTime q <=? Position.entryTime p)%Z
      then p :: l
      else q :: insertByEntryTime p l'
  end.

Definition orderByEntryTimeDesc (rows : list Position.t) : list Position.t :=
  fold_right insertByEntryTime [] rows.

Definition statusEqb (a b : PositionStatus) : bool :=
  match a, b with
  | OPEN, OPEN | CLOSED, CLOSED => true
  | _, _ => false
  end.

Definition selectPositions (d : Db) (status : option PositionStatus)
  : list Position.t :=
  match status with
  | Some s =>
      orderByEntryTimeDesc
        (filter (fun p => statusEqb (Position.status p) s) (paper_positions d))
  | None => orderByEntryTimeDesc (paper_positions d)
  end.

Definition getPositions (status : option PositionStatus)
  : M (list Position.t) :=
  gets (fun w => selectPositions (db w) status).

Definition getAllOpenPositions : M (list Position.t) :=
  getPositions (Some OPEN).

Definition getSettings : M Settings.t :=
  gets (fun w => settings (db w)).

(** A row appended to a table takes the next AUTOINCREMENT id. *)
Definition addFill (d : Db) (row : Fill.t) : Db :=
  mkDb (paper_positions d) (paper_fills d ++ [row]) (paper_events d)
       (settings d) (seq_positions d) (Fill.id row) (seq_events d).

Definition addEvent (d : Db) (row : Event.t) : Db :=
  mkDb (paper_positions d) (paper_fills d) (paper_events d ++ [row])
       (settings d) (seq_positions d) (seq_fills d) (Event.id row).

Definition addPosition (d : Db) (row : Position.t) : Db :=
  mkDb (paper_positions d ++ [row]) (paper_fills d) (paper_events d)
       (settings d) (Position.id row) (seq_fills d) (seq_events d).

(** [INSERT INTO paper_fills]; the foreign key on [positionId] is checked. *)
Definition createFill (positionId : Z) (type : FillType.t)
           (price qty fee : Q) (ts : Z) : M Fill.t :=
  run (fun d =>
    if hasPosition d positionId then
      let row :=
        Fill.mk (seq_fills d + 1) positionId type price qty fee ts in
      Ok (row, addFill d row)
    else Throw SqliteConstraintForeignKey).

(** [INSERT INTO paper_events]; the foreign key on [positionId] is checked. *)
Definition createEvent (positionId : Z) (event : EventType)
           (payload : Payload) (ts : Z) : M Event.t :=
  run (fun d =>
    if hasPosition d positionId then
      let row := Event.mk (seq_events d + 1) positionId event payload ts in
      Ok (row, addEvent d row)
    else Throw SqliteConstraintForeignKey).

Definition deriveQty (data : CreatePositionRequest.t) (entryPrice : Q) : Q :=
  match CreatePositionRequest.sizeMode data with
  | USDT => CreatePositionRequest.sizeValue data / entryPrice
  | QTY => CreatePositionRequest.sizeValue data
  end.

(** The row written by [INSERT INTO paper_positions (symbol, side, qty,
    entryPrice, entryTime, sl, tp, leverage, status, feesOpen, realizedPnl,
    fundingPnl, notes) VALUES (?, ?, ?, ?, ?, ?, ?, ?, 'OPEN', ?, 0, 0, ?)];
    the columns not listed take their defaults. *)
Definition newPositionRow (d : Db) (data : CreatePositionRequest.t)
           (side : PositionSide) (entryPrice fee : Q) (now : Z)
  : Position.t :=
  Position.mk (seq_positions d + 1)
    (CreatePositionRequest.symbol data) side
    (deriveQty data entryPrice) entryPrice now
    (numOrNull (CreatePositionRequest.sl data))
    (numOrNull (CreatePositionRequest.tp data))
    (CreatePositionRequest.leverage data)
    OPEN None None 0 fee 0 0
    (strOrNull (CreatePositionRequest.notes data)).

(** [INSERT INTO paper_positions ... VALUES (..., 'OPEN', ?, 0, 0, ?)];
    the CHECK on [side] is the only constraint a request can violate. *)
Definition insertPosition (data : CreatePositionRequest.t)
           (entryPrice fee : Q) (now : Z) : M Z :=
  run (fun d =>
    match isPositionSide (CreatePositionRequest.side data) with
    | None => Throw SqliteConstraintCheck
    | Some side =>
        let row := newPositionRow d data side entryPrice fee now in
        Ok (Position.id row, addPosition d row)
    end).

(** The non-null assertion on the final read has no run-time effect, so
    the result stays optional. *)
Definition createPosition (data : CreatePositionRequest.t)
           (entryPrice fee : Q) (now : Z) : M (option Position.t) :=
  positionId <- insertPosition data entryPrice fee now ;;
  createFill positionId FillType.OPEN entryPrice
             (deriveQty data entryPrice) fee now ;;;
  createEvent positionId POSITION_CREATED
              (PayloadCreated (CreatePositionRequest.entryType data)
                              (CreatePositionRequest.notes data)) now ;;;
  getPositionById positionId.

Inductive Column := ColSl | ColTp.

Definition assign (p : Position.t) (a : Column * option Q) : Position.t :=
  match a with
  | (ColSl, v) =>
      Position.mk (Position.id p) (Position.symbol p) (Position.side p)
        (Position.qty p) (Position.entryPrice p) (Position.entryTime p)
        v (Position.tp p) (Position.leverage p) (Position.status p)
        (Position.closePrice p) (Position.closeTime p)
        (Position.realizedPnl p) (Position.feesOpen p) (Position.feesClose p)
        (Position.fundingPnl p) (Position.notes p)
  | (ColTp, v) =>
      Position.mk (Position.id p) (Position.symbol p) (Position.side p)
        (Position.qty p) (Position.entryPrice p) (Position.entryTime p)
        (Position.sl p) v (Position.leverage p) (Position.status p)
        (Position.closePrice p) (Position.closeTime p)
        (Position.realizedPnl p) (Position.feesOpen p) (Position.feesClose p)
        (Position.fundingPnl p) (Position.notes p)
  end.

(** [UPDATE paper_positions SET <updates> WHERE id = ?]. *)
Definition updateRow (id : Z) (f : Position.t -> Position.t)
           (p : Position.t) : Position.t :=
  if (Position.id p =? id)%Z then f p else p.

Definition afterUpdate (d : Db) (id : Z) (f : Position.t -> Position.t) : Db :=
  set_positions d (map (updateRow id f) (paper_positions d)).

Definition updateWhereId (id : Z) (f : Position.t -> Position.t) : M unit :=
  run (fun d => Ok (tt, afterUpdate d id f)).

Definition updatePosition (id : Z) (data : UpdatePositionRequest.t) (now : Z)
  : M (option Position.t) :=
  let updates : list (Column * option Q) :=
    (match UpdatePositionRequest.sl data with
     | Some v => [(ColSl, v)]
     | None => []
     end) ++
    (match UpdatePositionRequest.tp data with
     | Some v => [(ColTp, v)]
     | None => []
     end) in
  if (List.length updates =? 0)%nat then getPositionById id
  else
    updateWhereId id (fun p => fold_left assign updates p) ;;;
    createEvent id
      (match UpdatePositionRequest.sl data with
       | Some _ => SL_UPDATED
       | None => TP_UPDATED
       end)
      (PayloadUpdated data) now ;;;
    getPositionById id.

(** [SET status = 'CLOSED', closePrice = ?, closeTime = ?, realizedPnl = ?,
    feesClose = ?]. *)
Definition markClosed (closePrice : Q) (now : Z) (realizedPnl fee : Q)
           (p : Position.t) : Position.t :=
  Position.mk (Position.id p) (Position.symbol p) (Position.side p)
    (Position.qty p) (Position.entryPrice p) (Position.entryTime p)
    (Position.sl p) (Position.tp p) (Position.leverage p) CLOSED
    (Some closePrice) (Some now) realizedPnl (Position.feesOpen p) fee
    (Position.fundingPnl p) (Position.notes p).

Definition closePosition (id : Z) (closePrice fee : Q) (event : CloseEvent)
           (now : Z) : M (option Position.t) :=
  found <- getPositionById id ;;
  match found with
  | None => ret None
  | Some position =>
      match Position.status position with
      | CLOSED => ret None
      | OPEN =>
          let pnl :=
            match Position.side position with
            | LONG =>
                (closePrice - Position.entryPrice position)
                * Position.qty position
            | SHORT =>
                (Position.entryPrice position - closePrice)
                * Position.qty position
            end in
          let realizedPnl :=
            pnl - Position.feesOpen position - fee
            - Position.fundingPnl position in
          updateWhereId id (markClosed closePrice now realizedPnl fee) ;;;
          createFill id FillType.CLOSE closePrice (Position.qty position)
                     fee now ;;;
          createEvent id (closeEventType event)
                      (PayloadClosed closePrice realizedPnl) now ;;;
          getPositionById id
      end
  end.

(** [DELETE FROM paper_positions WHERE id = ?] with ON DELETE CASCADE. *)
Definition deletePosition (id : Z) : M bool :=
  run (fun d =>
    let changes := hasPosition d id in
    Ok (changes,
        mkDb (filter (fun p => negb (Position.id p =? id)%Z)
                     (paper_positions d))
             (filter (fun f => negb (Fill.positionId f =? id)%Z)
                     (paper_fills d))
             (filter (fun e => negb (Event.positionId e =? id)%Z)
                     (paper_events d))
             (settings d) (seq_positions d) (seq_fills d) (seq_events d))).

End Queries.

(** ** Calculator ([src/lib/calc/pnl.ts]) *)

Module Calc.

Definition calculateNotional (qty price : Q) : Q := qty * price.

Definition calculateUnrealizedPnL (side : PositionSide)
           (entryPrice markPrice qty : Q) : Q :=
  match side with
  | LONG => (markPrice - entryPrice) * qty
  | SHORT => (entryPrice - markPrice) * qty
  end.

Definition calculateFee (notional feeRate : Q) : Q := notional * feeRate.

Definition calculateTakerFee (notional : Q) : M Q :=
  settings <- Queries.getSettings ;;
  ret (calculateFee notional (Settings.takerFee settings)).

Definition shouldTriggerSLLong (markPrice : Q) (sl : option Q) : bool :=
  match sl with
  | None => false
  | Some sl => Qleb markPrice sl
  end.

Definition shouldTriggerTPLong (markPrice : Q) (tp : option Q) : bool :=
  match tp with
  | None => false
  | Some tp => Qleb tp markPrice
  end.

Definition shouldTriggerSLShort (markPrice : Q) (sl : option Q) : bool :=
  match sl with
  | None => false
  | Some sl => Qleb sl markPrice
  end.

Definition shouldTriggerTPShort (markPrice : Q) (tp : option Q) : bool :=
  match tp with
  | None => false
  | Some tp => Qleb markPrice tp
  end.

Definition shouldTriggerSL (side : PositionSide) (markPrice : Q)
           (sl : option Q) : bool :=
  match side with
  | LONG => shouldTriggerSLLong markPrice sl
  | SHORT => shouldTriggerSLShort markPrice sl
  end.

Definition shouldTriggerTP (side : PositionSide) (markPrice : Q)
           (tp : option Q) : bool :=
  match side with
  | LONG => shouldTriggerTPLong markPrice tp
  | SHORT => shouldTriggerTPShort markPrice tp
  end.

End Calc.

(** ** Strings: ASCII case mapping *)

Definition asciiToUpper (c : ascii) : ascii :=
  let n := nat_of_ascii c in
  if ((97 <=? n) && (n <=? 122))%nat then ascii_of_nat (n - 32) else c.

Definition asciiToLower (c : ascii) : ascii :=
  let n := nat_of_ascii c in
  if ((65 <=? n) && (n <=? 90))%nat then ascii_of_nat (n + 32) else c.

Fixpoint mapString (f : ascii -> ascii) (s : string) : string :=
  match s with
  | EmptyString => EmptyString
  | String c s' => String (f c) (mapString f s')
  end.

Definition toUpperCase : string -> string := mapString asciiToUpper.
Definition toLowerCase : string -> string := mapString asciiToLower.

Definition endsWith (s suffix : string) : bool :=
  let n := String.length s in
  let k := String.length suffix in
  ((k <=? n)%nat && String.eqb (substring (n - k) k s) suffix)%bool.

(** ** Price feed client ([src/lib/binance/ws-client.ts]) *)

Module WsClientOps.

Definition maxReconnectAttempts : nat := 10.

Definition has (symbol : string) (c : WsClient) : bool :=
  existsb (String.eqb symbol) (subscribedSymbols c).

Definition send (method : WsMethod) (params : list string) (c : WsClient)
  : WsClient :=
  mkWs (ws_open c) (subscribedSymbols c) (reconnectAttempts c)
       (isIntentionallyClosed c) (messageId c + 1)
       (sent c ++ [(method, params, messageId c)])
       (scheduled c) (signals c).

Definition set_subscribed (l : list string) (c : WsClient) : WsClient :=
  mkWs (ws_open c) l (reconnectAttempts c) (isIntentionallyClosed c)
       (messageId c) (sent c) (scheduled c) (signals c).

Definition signal (s : WsSignal) (c : WsClient) : WsClient :=
  mkWs (ws_open c) (subscribedSymbols c) (reconnectAttempts c)
       (isIntentionallyClosed c) (messageId c) (sent c) (scheduled c)
       (signals c ++ [s]).

Definition stream (normalizedSymbol : string) : string :=
  (normalizedSymbol ++ "@markPrice")%string.

Definition subscribe (symbol : string) (c : WsClient) : WsClient :=
  let normalizedSymbol := toLowerCase symbol in
  if has normalizedSymbol c then c
  else
    let c1 := set_subscribed (subscribedSymbols c ++ [normalizedSymbol]) c in
    if ws_open c1 then send SUBSCRIBE [stream normalizedSymbol] c1 else c1.

Definition unsubscribe (symbol : string) (c : WsClient) : WsClient :=
  let normalizedSymbol := toLowerCase symbol in
  if negb (has normalizedSymbol c) then c
  else
    let c1 :=
      set_subscribed
        (filter (fun s => negb (String.eqb normalizedSymbol s))
                (subscribedSymbols c)) c in
    if ws_open c1 then send UNSUBSCRIBE [stream normalizedSymbol] c1 else c1.

Definition resubscribeAll (c : WsClient) : WsClient :=
  match subscribedSymbols c with
  | [] => c
  | symbols =>
      if ws_open c
      then send SUBSCRIBE (map stream symbols) c
      else
        mkWs (ws_open c) (subscribedSymbols c) (reconnectAttempts c)
             (isIntentionallyClosed c) (messageId c + 1) (sent c)
             (scheduled c) (signals c)
  end.

(** The delay passed to [setTimeout], in milliseconds, for attempt [n]. *)
Definition reconnectDelay (n : nat) : Z :=
  Z.min (1000 * 2 ^ Z.of_nat (n - 1)) 30000.

Definition scheduleReconnect (c : WsClient) : WsClient :=
  if (maxReconnectAttempts <=? reconnectAttempts c)%nat
  then signal MaxReconnectAttemptsReached c
  else
    let n := S (reconnectAttempts c) in
    mkWs (ws_open c) (subscribedSymbols c) n (isIntentionallyClosed c)
         (messageId c) (sent c) (scheduled c ++ [reconnectDelay n])
         (signals c).

(** [connect], up to the creation of the socket: nothing happens when
    the socket is open; the handlers below are those it installs. *)
Definition connect (c : WsClient) : WsClient :=
  if ws_open c then c
  else
    mkWs (ws_open c) (subscribedSymbols c) (reconnectAttempts c) false
         (messageId c) (sent c) (scheduled c) (signals c).

(** The socket's ['open'] handler installed by [connect]. *)
Definition onOpen (c : WsClient) : WsClient :=
  let c1 :=
    mkWs true (subscribedSymbols c) 0 (isIntentionallyClosed c)
         (messageId c) (sent c) (scheduled c) (signals c) in
  signal Connected (resubscribeAll c1).

(** The socket's ['close'] handler installed by [connect]. *)
Definition onClose (c : WsClient) : WsClient :=
  let c1 :=
    mkWs false (subscribedSymbols c) (reconnectAttempts c)
         (isIntentionallyClosed c) (messageId c) (sent c) (scheduled c)
         (signals c) in
  let c2 := if isIntentionallyClosed c1 then c1 else scheduleReconnect c1 in
  signal Disconnected c2.

(** A scheduled reconnect fires and fails: [connect] runs, the new socket
    never opens and its ['close'] handler runs. *)
Definition failedAttempt (c : WsClient) : WsClient := onClose (connect c).

End WsClientOps.

(** ** JavaScript [Map] with string keys

    Entries are kept in insertion order; [set] on a present key replaces
    the value in place. *)

Fixpoint mapSet {V} (key : string) (value : V) (m : list (string * V))
  : list (string * V) :=
  match m with
  | [] => [(key, value)]
  | (k, v) :: m' =>
      if String.eqb k key then (k, value) :: m'
      else (k, v) :: mapSet key value m'
  end.

Definition mapGet {V} (key : string) (m : list (string * V)) : option V :=
  match find (fun kv => String.eqb (fst kv) key) m with
  | Some kv => Some (snd kv)
  | None => None
  end.

(** ** Trigger engine ([src/lib/triggers/engine.ts]) *)

Module TriggerEngine.

Definition unsubscribeFromSymbol (symbol : string) : M unit :=
  modify (fun w => set_ws w (WsClientOps.unsubscribe symbol (ws w))).

Definition subscribeToSymbol (symbol : string) : M unit :=
  modify (fun w => set_ws w (WsClientOps.subscribe symbol (ws w))).

(** [executeTrigger]; the [catch] block only logs. *)
Definition executeTrigger (positionId : Z) (closePrice : Q)
           (event : CloseEvent) (now : Z) : M unit :=
  tryCatch
    (openPositions <- Queries.getAllOpenPositions ;;
     match find (fun p => (Position.id p =? positionId)%Z) openPositions with
     | None => ret tt
     | Some position =>
         let notional :=
           Calc.calculateNotional (Position.qty position) closePrice in
         closeFee <- Calc.calculateTakerFee notional ;;
         closedPosition <-
           Queries.closePosition positionId closePrice closeFee event now ;;
         match closedPosition with
         | None => ret tt
         | Some closed =>
             modify (emit (TriggerExecuted positionId event closePrice
                             (Position.realizedPnl closed))) ;;;
             stillOpen <- Queries.getAllOpenPositions ;;
             let remainingPositions :=
               filter (fun p => String.eqb (Position.symbol p)
                                           (Position.symbol position))
                      stillOpen in
             if (List.length remainingPositions =? 0)%nat
             then unsubscribeFromSymbol (Position.symbol position)
             else ret tt
         end
     end)
    (fun _ => ret tt).

(** The body of the [for ... of positions] loop, with its [continue]. *)
Fixpoint forEachPosition (positions : list Position.t) (markPrice : Q)
         (now : Z) : M unit :=
  match positions with
  | [] => ret tt
  | position :: rest =>
      if Calc.shouldTriggerSL (Position.side position) markPrice
                              (Position.sl position)
      then
        executeTrigger (Position.id position) markPrice CloseSL now ;;;
        forEachPosition rest markPrice now
      else if Calc.shouldTriggerTP (Position.side position) markPrice
                                   (Position.tp position)
      then
        executeTrigger (Position.id position) markPrice CloseTP now ;;;
        forEachPosition rest markPrice now
      else forEachPosition rest markPrice now
  end.

Definition positionsOfSymbol (symbol : string) (l : list Position.t)
  : list Position.t :=
  filter (fun p => String.eqb (Position.symbol p) symbol) l.

Definition checkTriggersForSymbol (symbol : string) (markPrice : Q)
           (now : Z) : M unit :=
  tryCatch
    (openPositions <- Queries.getAllOpenPositions ;;
     forEachPosition (positionsOfSymbol symbol openPositions) markPrice now)
    (fun _ => ret tt).

(** [Map.prototype.set] on the price cache. *)
Definition cacheSet (key : string) (value : Q) (m : list (string * Q))
  : list (string * Q) :=
  mapSet key value m.

Definition handlePriceUpdate (symbol : string) (markPrice : Q)
           (timestamp : Z) (now : Z) : M unit :=
  modify (fun w =>
    set_priceCache w (cacheSet (toUpperCase symbol) markPrice (priceCache w))) ;;;
  checkTriggersForSymbol (toUpperCase symbol) markPrice now ;;;
  modify (emit (PriceUpdate symbol markPrice timestamp)).

End TriggerEngine.

(** ** Exchange REST client ([src/lib/binance/rest-api.ts]) *)

Definition isUpperAlnum (c : ascii) : bool :=
  let n := nat_of_ascii c in
  (((65 <=? n) && (n <=? 90)) || ((48 <=? n) && (n <=? 57)))%nat.

(** [/^[A-Z0-9]{5,20}$/.test(symbol) && symbol.endsWith('USDT')] *)
Definition isValidSymbolFormat (symbol : string) : bool :=
  (forallb isUpperAlnum (list_ascii_of_string symbol)
   && (5 <=? String.length symbol)%nat
   && (String.length symbol <=? 20)%nat
   && endsWith symbol "USDT")%bool.

Section Broker.

(** The exchange's ticker: the parsed [price] of the response for an
    upper-case symbol, or [None] when the request fails. *)
Variable ticker : string -> option Q.

Definition getCurrentPrice (symbol : string) : M Q :=
  if negb (isValidSymbolFormat (toUpperCase symbol))
  then throw InvalidSymbolFormat
  else
    match ticker (toUpperCase symbol) with
    | Some price => ret price
    | None => throw BinanceApiError
    end.

(** ** Create-position route ([src/app/api/paper/positions/route.ts]) *)

Inductive HttpResponse :=
| Http201 (position : Position.t)
| Http400 (error : string)
| Http500 (details : Error).

Definition isPercent (m : option PriceMode) : bool :=
  match m with Some PERCENT => true | _ => false end.

(** The stop-loss price handed to the store: the request's [sl], converted
    when [slMode] is PERCENT and [sl] is truthy. *)
Definition convertSl (body : CreatePositionRequest.t) (entryPrice : Q)
  : option Q :=
  match CreatePositionRequest.sl body with
  | Some p =>
      if isPercent (CreatePositionRequest.slMode body) && negb (isZero p)
      then
        if String.eqb (CreatePositionRequest.side body) "LONG"
        then Some (entryPrice * (1 - p / 100))
        else Some (entryPrice * (1 + p / 100))
      else Some p
  | None => None
  end.

Definition convertTp (body : CreatePositionRequest.t) (entryPrice : Q)
  : option Q :=
  match CreatePositionRequest.tp body with
  | Some p =>
      if isPercent (CreatePositionRequest.tpMode body) && negb (isZero p)
      then
        if String.eqb (CreatePositionRequest.side body) "LONG"
        then Some (entryPrice * (1 + p / 100))
        else Some (entryPrice * (1 - p / 100))
      else Some p
  | None => None
  end.

(** [{ ...body, sl, tp }] *)
Definition withSlTp (body : CreatePositionRequest.t) (sl tp : option Q)
  : CreatePositionRequest.t :=
  CreatePositionRequest.mk
    (CreatePositionRequest.symbol body) (CreatePositionRequest.side body)
    (CreatePositionRequest.sizeMode body)
    (CreatePositionRequest.sizeValue body)
    (CreatePositionRequest.leverage body)
    (CreatePositionRequest.entryType body)
    (CreatePositionRequest.limitPrice body) sl tp
    (CreatePositionRequest.slMode body) (CreatePositionRequest.tpMode body)
    (CreatePositionRequest.notes body).

Definition isEmpty (s : string) : bool :=
  match s with EmptyString => true | _ => false end.

Definition POST (body : CreatePositionRequest.t) (now : Z) : M HttpResponse :=
  tryCatch
    (if isEmpty (CreatePositionRequest.symbol body)
        || isEmpty (CreatePositionRequest.side body)
        || isZero (CreatePositionRequest.sizeValue body)
        || isZero (CreatePositionRequest.leverage body)
     then ret (Http400 "Missing required fields")
     else if Qltb (CreatePositionRequest.leverage body) 1
             || Qltb 125 (CreatePositionRequest.leverage body)
     then ret (Http400 "Leverage must be between 1 and 125")
     else if Qleb (CreatePositionRequest.sizeValue body) 0
     then ret (Http400 "Size must be greater than 0")
     else
       entryPrice <-
         (match CreatePositionRequest.entryType body,
                numOrNull (CreatePositionRequest.limitPrice body) with
          | LIMIT, Some limitPrice => ret limitPrice
          | _, _ => getCurrentPrice (CreatePositionRequest.symbol body)
          end) ;;
       let qty := Queries.deriveQty body entryPrice in
       let notional := Calc.calculateNotional qty entryPrice in
       fee <- Calc.calculateTakerFee notional ;;
       let sl := convertSl body entryPrice in
       let tp := convertTp body entryPrice in
       let positionData := withSlTp body sl tp in
       created <- Queries.createPosition positionData entryPrice fee now ;;
       match created with
       | None => throw TypeError
       | Some position =>
           TriggerEngine.subscribeToSymbol
             (CreatePositionRequest.symbol body) ;;;
           ret (Http201 position)
       end)
    (fun e => ret (Http500 e)).

End Broker.

(** ** Statistics route ([src/app/api/paper/stats/route.ts]) *)

Module Stats.

Definition hasSl (pos : Position.t) : bool :=
  match Position.sl pos with Some _ => true | None => false end.

(** [pos.sl || 0] *)
Definition slOrZero (pos : Position.t) : Q :=
  match numOrNull (Position.sl pos) with Some v => v | None => 0 end.

Definition risk (pos : Position.t) : Q :=
  Qabs (Position.entryPrice pos - slOrZero pos).

Definition rMultiple (pos : Position.t) : Q :=
  if isZero (risk pos) then 0
  else
    let reward := Position.realizedPnl pos / Position.qty pos in
    reward / risk pos.

Definition rMultiples (closedPositions : list Position.t) : list Q :=
  map rMultiple (filter hasSl closedPositions).

Definition sum (l : list Q) : Q := fold_left Qplus l 0.

Definition count {A} (l : list A) : Q := inject_Z (Z.of_nat (List.length l)).

Definition avgRMultiple (closedPositions : list Position.t) : Q :=
  let r := rMultiples closedPositions in
  if (0 <? List.length r)%nat then sum r / count r else 0.

Definition totalPnl (closedPositions : list Position.t) : Q :=
  fold_left (fun sum pos => sum + Position.realizedPnl pos) closedPositions 0.

Definition winRate (closedPositions : list Position.t) : Q :=
  let winners :=
    filter (fun pos => Qltb 0 (Position.realizedPnl pos)) closedPositions in
  if (0 <? List.length closedPositions)%nat
  then (count winners / count closedPositions) * 100
  else 0.

(** [symbolStats]: per symbol, the summed realized PnL and the count. *)
Definition symbolStats (closedPositions : list Position.t)
  : list (string * (Q * nat)) :=
  fold_left
    (fun m pos =>
       let current :=
         match mapGet (Position.symbol pos) m with
         | Some c => c
         | None => (0, O)
         end in
       mapSet (Position.symbol pos)
              (fst current + Position.realizedPnl pos, S (snd current)) m)
    closedPositions [].

(** The state of the [forEach] that picks the best and worst symbols;
    [None] stands for the initial [-Infinity] and [Infinity]. *)
Record Extremes := mkExtremes {
  bestSymbol : option string;
  worstSymbol : option string;
  maxPnl : option Q;
  minPnl : option Q
}.

Definition exceeds (pnl : Q) (bound : option Q) : bool :=
  match bound with
  | None => true
  | Some b => Qltb b pnl
  end.

Definition isBelow (pnl : Q) (bound : option Q) : bool :=
  match bound with
  | None => true
  | Some b => Qltb pnl b
  end.

Definition extremes (m : list (string * (Q * nat))) : Extremes :=
  fold_left
    (fun acc entry =>
       let symbol := fst entry in
       let pnl := fst (snd entry) in
       let acc1 :=
         if exceeds pnl (maxPnl acc)
         then mkExtremes (Some symbol) (worstSymbol acc) (Some pnl)
                         (minPnl acc)
         else acc in
       if isBelow pnl (minPnl acc1)
       then mkExtremes (bestSymbol acc1) (Some symbol) (maxPnl acc1)
                       (Some pnl)
       else acc1)
    m (mkExtremes None None None None).

(** The [Stats] object of the response. *)
Record t := mk {
  totalPositions : nat;
  openPositions : nat;
  closedPositions : nat;
  stats_totalPnl : Q;
  stats_winRate : Q;
  stats_avgRMultiple : Q;
  stats_bestSymbol : option string;
  stats_worstSymbol : option string;
  currentBalance : Q
}.

Definition GET : M t :=
  allPositions <- Queries.getPositions None ;;
  openPositions <- Queries.getPositions (Some OPEN) ;;
  closedPositions <- Queries.getPositions (Some CLOSED) ;;
  settings <- Queries.getSettings ;;
  let best := extremes (symbolStats closedPositions) in
  ret (mk (List.length allPositions) (List.length openPositions)
          (List.length closedPositions)
          (totalPnl closedPositions) (winRate closedPositions)
          (avgRMultiple closedPositions)
          (bestSymbol best) (worstSymbol best)
          (Settings.baseBalance settings + totalPnl closedPositions)).

End Stats.

(** * Vocabulary of the properties *)

Import Queries.

(** The world after the storage layer has consumed one schedule entry. *)
Definition consumed (w : World) : World := set_io w (tl (io w)).

Definition keepsId (f : Position.t -> Position.t) : Prop :=
  forall p, Position.id (f p) = Position.id p.

(** ** What [closePosition] can do to the store *)

Definition realizedPnlOf (p : Position.t) (closePrice fee : Q) : Q :=
  match Position.side p with
  | LONG => (closePrice - Position.entryPrice p) * Position.qty p
  | SHORT => (Position.entryPrice p - closePrice) * Position.qty p
  end - Position.feesOpen p - fee - Position.fundingPnl p.

Definition closedRow (p : Position.t) (closePrice fee : Q) (now : Z)
  : Position.t :=
  markClosed closePrice now (realizedPnlOf p closePrice fee) fee p.

Definition closeFillRow (d : Db) (p : Position.t) (closePrice fee : Q)
           (now : Z) : Fill.t :=
  Fill.mk (seq_fills d + 1) (Position.id p) FillType.CLOSE closePrice
          (Position.qty p) fee now.

Definition closeEventRow (d : Db) (p : Position.t) (closePrice fee : Q)
           (event : CloseEvent) (now : Z) : Event.t :=
  Event.mk (seq_events d + 1) (Position.id p) (closeEventType event)
           (PayloadClosed closePrice (realizedPnlOf p closePrice fee)) now.

(** The four stores a call on an OPEN row [p] can leave behind, by the
    number of writes the storage layer accepted. *)
Definition closeStage (d : Db) (p : Position.t) (closePrice fee : Q)
           (event : CloseEvent) (now : Z) (writes : nat) : Db :=
  let d1 :=
    afterUpdate d (Position.id p)
      (markClosed closePrice now (realizedPnlOf p closePrice fee) fee) in
  let d2 := addFill d1 (closeFillRow d p closePrice fee now) in
  let d3 := addEvent d2 (closeEventRow d p closePrice fee event now) in
  match writes with
  | O => d
  | 1%nat => d1
  | 2%nat => d2
  | _ => d3
  end.

(** The CLOSE fills and the terminal events recorded for a position. *)
Definition closeFills (d : Db) (id : Z) : list Fill.t :=
  filter (fun f => (Fill.positionId f =? id)%Z
                   && FillType.eqb (Fill.type f) FillType.CLOSE)
         (paper_fills d).

Definition terminalEvents (d : Db) (id : Z) : list Event.t :=
  filter (fun e => (Event.positionId e =? id)%Z
                   && isTerminalEvent (Event.event e))
         (paper_events d).

(** A position that is OPEN has no CLOSE fill and no terminal event; any
    other has at most one of each. *)
Definition closedAtMostOnce (d : Db) (id : Z) : Prop :=
  match selectPosition d id with
  | Some p =>
      match Position.status p with
      | OPEN => closeFills d id = [] /\ terminalEvents d id = []
      | CLOSED =>
          (List.length (closeFills d id) <= 1)%nat
          /\ (List.length (terminalEvents d id) <= 1)%nat
      end
  | None =>
      (List.length (closeFills d id) <= 1)%nat
      /\ (List.length (terminalEvents d id) <= 1)%nat
  end.

(** One call of [closePosition] on a fixed position: its arguments. *)
Record CloseCall := mkCall {
  call_closePrice : Q;
  call_fee : Q;
  call_event : CloseEvent;
  call_now : Z
}.

Definition succeeded (r : Res (option Position.t)) : bool :=
  match r with
  | Ok (Some _) => true
  | _ => false
  end.

(** A sequence of [closePosition] calls on one position: the number of
    calls that returned the closed row, and the final world. *)
Fixpoint closeAll (id : Z) (calls : list CloseCall) (w : World)
  : nat * World :=
  match calls with
  | [] => (O, w)
  | c :: rest =>
      let (r, w1) :=
        closePosition id (call_closePrice c) (call_fee c) (call_event c)
                      (call_now c) w in
      let (n, w2) := closeAll id rest w1 in
      ((if succeeded r then 1 else 0) + n, w2)%nat
  end.

(** ** Worlds used in examples *)

(** The row inserted by [schema.sql]. *)
Definition defaultSettings : Settings.t :=
  Settings.mk 1 (4 # 10000) (2 # 10000) false 10000 "en-US" "UTC" 5 10.

Definition emptyDb : Db := mkDb [] [] [] defaultSettings 0 0 0.

Definition idleWs : WsClient := mkWs false [] 0 false 1 [] [] [].

(** A fresh installation whose storage layer accepts every write. *)
Definition freshWorld : World := mkWorld emptyDb [] idleWs [] [].

(** Scenario S1 of the specification: LONG, 1000 USDT at entry 100. *)
Definition requestS1 : CreatePositionRequest.t :=
  CreatePositionRequest.mk "BTCUSDT" "LONG" USDT 1000 1 MARKET None
    (Some 95) (Some 110) (Some PRICE) (Some PRICE) None.

Definition worldS1 : World :=
  snd (createPosition requestS1 100 (4 # 10) 1000 freshWorld).

Definition worldS1closed : World :=
  snd (closePosition 1 110 (44 # 100) CloseTP 2000 worldS1).

Definition positionS1 : Position.t :=
  Position.mk 1 "BTCUSDT" LONG (1000 / 100) 100 1000 (Some 95) (Some 110)
              1 OPEN None None 0 (4 # 10) 0 0 None.

Definition positionS1closed : Position.t :=
  closedRow positionS1 110 (44 # 100) 2000.

Definition worldS1edited : World :=
  snd (updatePosition 1 (UpdatePositionRequest.mk (Some (Some 90)) None)
                      3000 worldS1closed).



(** ** Vocabulary for [updatePosition] *)

(** The assignments [updatePosition] builds from its request. *)
Definition updatesOf (data : UpdatePositionRequest.t)
  : list (Column * option Q) :=
  (match UpdatePositionRequest.sl data with
   | Some v => [(ColSl, v)]
   | None => []
   end) ++
  (match UpdatePositionRequest.tp data with
   | Some v => [(ColTp, v)]
   | None => []
   end).

Definition applyUpdates (data : UpdatePositionRequest.t) (p : Position.t)
  : Position.t :=
  fold_left assign (updatesOf data) p.

Definition updateEventType (data : UpdatePositionRequest.t) : EventType :=
  match UpdatePositionRequest.sl data with
  | Some _ => SL_UPDATED
  | None => TP_UPDATED
  end.

(** A row with its [sl] and [tp] blanked: every other stored field. *)
Definition withoutSlTp (p : Position.t) : Position.t :=
  Position.mk (Position.id p) (Position.symbol p) (Position.side p)
    (Position.qty p) (Position.entryPrice p) (Position.entryTime p)
    None None (Position.leverage p) (Position.status p)
    (Position.closePrice p) (Position.closeTime p)
    (Position.realizedPnl p) (Position.feesOpen p) (Position.feesClose p)
    (Position.fundingPnl p) (Position.notes p).

Definition providesField (data : UpdatePositionRequest.t) : bool :=
  match UpdatePositionRequest.sl data, UpdatePositionRequest.tp data with
  | None, None => false
  | _, _ => true
  end.

(** ** Vocabulary for the statistics *)

(** The per-unit risk [|entryPrice - sl|] of a position that has an [sl]. *)
Definition riskOfSl (pos : Position.t) : Q :=
  match Position.sl pos with
  | Some sl => Qabs (Position.entryPrice pos - sl)
  | None => 0
  end.

Definition hasNonZeroRisk (pos : Position.t) : bool :=
  Stats.hasSl pos && negb (isZero (riskOfSl pos)).

(** [(realizedPnl / qty) / |entryPrice - sl|] *)
Definition rMultipleOfSl (pos : Position.t) : Q :=
  (Position.realizedPnl pos / Position.qty pos) / riskOfSl pos.

(** The average R-multiple in the specification's words: the mean taken
    over exactly the closed positions with a non-null [sl] and non-zero
    risk ([0] when there is none). *)
Definition avgRMultiple_spec (closedPositions : list Position.t) : Q :=
  let selected := filter hasNonZeroRisk closedPositions in
  if (0 <? List.length selected)%nat
  then Stats.sum (map rMultipleOfSl selected) / Stats.count selected
  else 0.

(** Two closed positions entered at 100: one with its stop at the entry
    price (zero risk), one with its stop at 95 that made 10 per unit. *)
Definition closedZeroRisk : Position.t :=
  Position.mk 1 "BTCUSDT" LONG 1 100 1000 (Some 100) None 1 CLOSED
              (Some 103) (Some 2000%Z) 3 0 0 0 None.

Definition closedTwoR : Position.t :=
  Position.mk 2 "BTCUSDT" LONG 1 100 1000 (Some 95) None 1 CLOSED
              (Some 110) (Some 2000%Z) 10 0 0 0 None.

(** ** Vocabulary for [createPosition] *)

Definition openFillRow (d : Db) (data : CreatePositionRequest.t)
           (entryPrice fee : Q) (now : Z) : Fill.t :=
  Fill.mk (seq_fills d + 1) (seq_positions d + 1) FillType.OPEN entryPrice
          (deriveQty data entryPrice) fee now.

Definition createdEventRow (d : Db) (data : CreatePositionRequest.t)
           (now : Z) : Event.t :=
  Event.mk (seq_events d + 1) (seq_positions d + 1) POSITION_CREATED
           (PayloadCreated (CreatePositionRequest.entryType data)
                           (CreatePositionRequest.notes data)) now.

(** The stores a call of [createPosition] can leave behind, by the number
    of writes the storage layer accepted. *)
Definition createStage (d : Db) (data : CreatePositionRequest.t)
           (side : PositionSide) (entryPrice fee : Q) (now : Z)
           (writes : nat) : Db :=
  let d1 := addPosition d (newPositionRow d data side entryPrice fee now) in
  let d2 := addFill d1 (openFillRow d data entryPrice fee now) in
  let d3 := addEvent d2 (createdEventRow d data now) in
  match writes with
  | O => d
  | 1%nat => d1
  | 2%nat => d2
  | _ => d3
  end.

(** AUTOINCREMENT: no stored position has an id above the counter. *)
Definition positionIdsBelowSeq (d : Db) : Prop :=
  Forall (fun p => (Position.id p <= seq_positions d)%Z) (paper_positions d).

(** A fresh installation whose storage layer accepts the first write and
    refuses the second. *)
Definition worldSecondWriteRefused : World :=
  mkWorld emptyDb [false; true] idleWs [] [].

(** ** Vocabulary for the create-position route *)




(** An exchange that answers no request. *)
Definition noTicker : string -> option Q := fun _ => None.

(** An exchange on which BTCUSDT trades at 100. *)
Definition btcAt100 : string -> option Q :=
  fun symbol => if String.eqb symbol "BTCUSDT" then Some 100 else None.


(** A MARKET request on a lower-case symbol. *)
Definition requestLowerCase : CreatePositionRequest.t :=
  CreatePositionRequest.mk "btcusdt" "LONG" QTY 1 1 MARKET None
    None None None None None.

(** The stop-loss column of the row that the route has the store insert. *)
Definition storedSl (d : Db) (body : CreatePositionRequest.t)
           (side : PositionSide) (entryPrice fee : Q) (now : Z) : option Q :=
  Position.sl
    (newPositionRow d
       (withSlTp body (convertSl body entryPrice) (convertTp body entryPrice))
       side entryPrice fee now).

(** [P_sl] of a percent-mode stop. *)
Definition slPriceFromPercent (side : PositionSide) (entry p : Q) : Q :=
  match side with
  | LONG => entry * (1 - p / 100)
  | SHORT => entry * (1 + p / 100)
  end.

(** A mark price strictly on the favorable side of a stop. *)
Definition favorable (side : PositionSide) (markPrice sl : Q) : Prop :=
  match side with
  | LONG => sl < markPrice
  | SHORT => markPrice < sl
  end.

(** A LONG request whose stop is 100 percent below the entry. *)
Definition requestStop100 : CreatePositionRequest.t :=
  CreatePositionRequest.mk "BTCUSDT" "LONG" QTY 1 1 LIMIT (Some 100)
    (Some 100) None (Some PERCENT) None None.


Definition requestSideBuy : CreatePositionRequest.t :=
  CreatePositionRequest.mk "BTCUSDT" "BUY" QTY 1 1 LIMIT (Some 50)
    None None None None None.


(** Scenario S1 with its stops given as percentages: 5 and 10. *)
Definition requestS1percent : CreatePositionRequest.t :=
  CreatePositionRequest.mk "BTCUSDT" "LONG" USDT 1000 1 MARKET None
    (Some 5) (Some 10) (Some PERCENT) (Some PERCENT) None.

(** ** Vocabulary for the trigger engine *)

(** The events recorded for a position, in insertion order. *)
Definition eventsOf (d : Db) (id : Z) : list Event.t :=
  filter (fun e => (Event.positionId e =? id)%Z) (paper_events d).

(** PRIMARY KEY: no two stored positions share an id. *)
Definition uniqueIds (d : Db) : Prop :=
  NoDup (map Position.id (paper_positions d)).

(** A computation that, started where the storage layer refuses nothing,
    ends where it refuses nothing. *)
Definition keepsQuiet {A} (c : M A) : Prop :=
  forall w, io w = [] -> io (snd (c w)) = [].

(** The close fee of a triggered closure: the taker rate on the closing
    notional. *)
Definition triggerFee (d : Db) (p : Position.t) (markPrice : Q) : Q :=
  Calc.calculateFee (Calc.calculateNotional (Position.qty p) markPrice)
                    (Settings.takerFee (settings d)).

(** Scenario S3: LONG entered at 100 with sl = 95 and tp = 94. *)
Definition requestS3 : CreatePositionRequest.t :=
  CreatePositionRequest.mk "BTCUSDT" "LONG" QTY 1 1 LIMIT (Some 100)
    (Some 95) (Some 94) (Some PRICE) (Some PRICE) None.

Definition worldS3 : World :=
  snd (createPosition requestS3 100 (4 # 100) 1000 freshWorld).

Definition positionS3 : Position.t :=
  Position.mk 1 "BTCUSDT" LONG 1 100 1000 (Some 95) (Some 94) 1 OPEN
              None None 0 (4 # 100) 0 0 None.

(** The world after the loop body has run for one position. *)
Definition afterPosition (position : Position.t) (markPrice : Q) (now : Z)
           (w : World) : World :=
  if Calc.shouldTriggerSL (Position.side position) markPrice
                          (Position.sl position)
  then snd (TriggerEngine.executeTrigger (Position.id position) markPrice
                                         CloseSL now w)
  else if Calc.shouldTriggerTP (Position.side position) markPrice
                               (Position.tp position)
  then snd (TriggerEngine.executeTrigger (Position.id position) markPrice
                                         CloseTP now w)
  else w.

(** What a tick may add to the events of a position whose stop-loss
    predicate holds: nothing, or one SL_TRIGGERED event. *)
Definition atMostOneStop (evs : list Event.t) : Prop :=
  evs = [] \/ exists ev, evs = [ev] /\ Event.event ev = SL_TRIGGERED.

(** ** Scenarios S1 and S2 end to end *)

(** The world after one tick received at time [now]. *)
Definition tick (symbol : string) (markPrice : Q) (now : Z) (w : World)
  : World :=
  snd (TriggerEngine.handlePriceUpdate symbol markPrice now now w).

Definition worldS1posted : World :=
  snd (POST btcAt100 requestS1percent 1000 freshWorld).

Definition worldS1ticks : World :=
  tick "BTCUSDT" 110 4000
    (tick "BTCUSDT" 105 3000 (tick "BTCUSDT" 101 2000 worldS1posted)).

Definition requestS2 : CreatePositionRequest.t :=
  CreatePositionRequest.mk "ETHUSDT" "SHORT" QTY 2 5 LIMIT (Some 50)
    (Some 52) (Some 45) (Some PRICE) (Some PRICE) None.

Definition worldS2ticks : World :=
  tick "ETHUSDT" 52 3000
    (tick "ETHUSDT" 51 2000 (snd (POST noTicker requestS2 1000 freshWorld))).

Definition Qeqb_opt (a : option Q) (b : Q) : bool :=
  match a with
  | Some x => Qeq_bool x b
  | None => false
  end.


(** FOREIGN KEY with AUTOINCREMENT: no fill and no event refers to an id
    that has not been handed out yet. *)
Definition referencesBelowSeq (d : Db) : Prop :=
  Forall (fun f => (Fill.positionId f <= seq_positions d)%Z) (paper_fills d)
  /\ Forall (fun e => (Event.positionId e <= seq_positions d)%Z)
            (paper_events d).

(** ** The closing arithmetic in binary64

    A JavaScript number is an IEEE 754 binary64 value and every operation
    rounds.  The model above computes with rationals, so it can name the
    expression that [closePosition] evaluates but not the rounding of each
    step.  The lines below are the same expression of [closePosition]
    ([src/lib/db/queries.ts], lines 141-145) over the primitive floats, to
    measure on concrete inputs what an identity of exact arithmetic
    becomes in the arithmetic of the code. *)

From Stdlib Require Import PrimFloat.

Set Warnings "-inexact-float".

Module Binary64.

(** [const pnl = position.side === 'LONG' ? ... : ...] *)
Definition pnl (side : PositionSide) (entryPrice closePrice qty : float)
  : float :=
  match side with
  | LONG => ((closePrice - entryPrice) * qty)%float
  | SHORT => ((entryPrice - closePrice) * qty)%float
  end.

(** [const realizedPnl = pnl - position.feesOpen - fee -
    position.fundingPnl] *)
Definition realizedPnl (side : PositionSide)
           (entryPrice closePrice qty feesOpen fee fundingPnl : float)
  : float :=
  (pnl side entryPrice closePrice qty - feesOpen - fee - fundingPnl)%float.

(** The left-hand side of the identity, on the stored fields. *)
Definition addedBack (realized feesOpen feesClose fundingPnl : float)
  : float :=
  (realized + feesOpen + feesClose + fundingPnl)%float.

End Binary64.

(** * The rest of the store, the calculator, the feed client and the routes

    Further code of the same engine:
    - the listings and the settings of [src/lib/db/queries.ts];
    - the rest of [src/lib/calc/pnl.ts];
    - the subscriptions of [src/lib/binance/ws-client.ts];
    - the price cache and the start of [src/lib/triggers/engine.ts];
    - the routes [positions/[id]], [positions/[id]/close] and [stream]
      under [src/app/api/paper].

    Further conventions.
    - The engine singleton exists when a route asks for it, as in the
      create route above.
    - A route parameter is the value it parses to: an id is a [Z].
    - A listener on an engine event runs when the engine emits it; the
      engine emits the price update last, so that listener reads the
      world the tick leaves behind.
    - Left out: [handleMessage] and [close] of the feed client, the
      rounding helpers of the calculator, the export and settings routes
      and the pages. *)

From Stdlib Require Import Sorted Qround.

(** ** Queries, continued ([src/lib/db/queries.ts]) *)

(** [ORDER BY] as a stable insertion sort: [before x y] says that a row [x]
    stays in front of a row [y] that was stored after it. *)
Fixpoint insertBy {A} (before : A -> A -> bool) (x : A) (l : list A)
  : list A :=
  match l with
  | [] => [x]
  | y :: l' => if before x y then x :: l else y :: insertBy before x l'
  end.

Definition sortBy {A} (before : A -> A -> bool) (l : list A) : list A :=
  fold_right (insertBy before) [] l.

(** [SELECT * FROM paper_fills WHERE positionId = ? ORDER BY ts ASC] *)
Definition selectFills (d : Db) (positionId : Z) : list Fill.t :=
  sortBy (fun a b => (Fill.ts a <=? Fill.ts b)%Z)
         (filter (fun f => (Fill.positionId f =? positionId)%Z)
                 (paper_fills d)).

Definition getFillsByPosition (positionId : Z) : M (list Fill.t) :=
  gets (fun w => selectFills (db w) positionId).

(** [SELECT * FROM paper_events WHERE positionId = ? ORDER BY ts ASC] *)
Definition selectEvents (d : Db) (positionId : Z) : list Event.t :=
  sortBy (fun a b => (Event.ts a <=? Event.ts b)%Z)
         (filter (fun e => (Event.positionId e =? positionId)%Z)
                 (paper_events d)).

Definition getEventsByPosition (positionId : Z) : M (list Event.t) :=
  gets (fun w => selectEvents (db w) positionId).

(** What a listing with a bound [LIMIT] answers: its rows, or the
    SqliteError [datatype mismatch] that the statement throws. *)
Inductive Listing (A : Type) :=
| Rows (rows : list A)
| DatatypeMismatch.
Arguments Rows {A} rows.
Arguments DatatypeMismatch {A}.

(** The value of [LIMIT ?].  The number is bound as it is, and SQLite
    takes it when it is an integer of 64 bits; any other number (a
    fraction, [2 ^ 63] and beyond) is a datatype mismatch. *)
Definition limitOf (limit : Q) : option Z :=
  let n := Qfloor limit in
  if Qeq_bool (inject_Z n) limit && (- 2 ^ 63 <=? n)%Z && (n <? 2 ^ 63)%Z
  then Some n
  else None.

(** [ORDER BY ts DESC]: a row goes in front of the rows stored after it
    only when its [ts] is greater, so that rows of equal [ts] come out
    last stored first. *)
Definition orderByTsDesc (l : list Event.t) : list Event.t :=
  sortBy (fun a b => (Event.ts b <? Event.ts a)%Z) l.

(** [SELECT * FROM paper_events ORDER BY ts DESC LIMIT ?]; a negative
    limit is no limit. *)
Definition selectAllEvents (d : Db) (limit : Q) : Listing Event.t :=
  match limitOf limit with
  | None => DatatypeMismatch
  | Some n =>
      let ordered := orderByTsDesc (paper_events d) in
      Rows (if (n <? 0)%Z then ordered else firstn (Z.to_nat n) ordered)
  end.

(** [getAllEvents(limit)]: a read, which leaves the world as it is. *)
Definition getAllEvents (limit : Q) (w : World) : Listing Event.t :=
  selectAllEvents (db w) limit.

(** [Partial<Omit<Settings, 'id'>>] *)
Module SettingsPatch.
Record t := mk {
  takerFee : option Q;
  makerFee : option Q;
  enableFunding : option bool;
  baseBalance : option Q;
  numberFormat : option string;
  timezone : option string;
  defaultStopLossPercent : option Q;
  defaultTakeProfitPercent : option Q
}.
End SettingsPatch.

(** One [column = ?] of the UPDATE with its bound value. *)
Inductive SettingsAssignment :=
| SetTakerFee (v : Q)
| SetMakerFee (v : Q)
| SetEnableFunding (v : bool)
| SetBaseBalance (v : Q)
| SetNumberFormat (v : string)
| SetTimezone (v : string)
| SetDefaultStopLossPercent (v : Q)
| SetDefaultTakeProfitPercent (v : Q).

Definition assignSetting (s : Settings.t) (a : SettingsAssignment)
  : Settings.t :=
  match a with
  | SetTakerFee v =>
      Settings.mk (Settings.id s) v (Settings.makerFee s)
        (Settings.enableFunding s) (Settings.baseBalance s)
        (Settings.numberFormat s) (Settings.timezone s)
        (Settings.defaultStopLossPercent s)
        (Settings.defaultTakeProfitPercent s)
  | SetMakerFee v =>
      Settings.mk (Settings.id s) (Settings.takerFee s) v
        (Settings.enableFunding s) (Settings.baseBalance s)
        (Settings.numberFormat s) (Settings.timezone s)
        (Settings.defaultStopLossPercent s)
        (Settings.defaultTakeProfitPercent s)
  | SetEnableFunding v =>
      Settings.mk (Settings.id s) (Settings.takerFee s) (Settings.makerFee s)
        v (Settings.baseBalance s)
        (Settings.numberFormat s) (Settings.timezone s)
        (Settings.defaultStopLossPercent s)
        (Settings.defaultTakeProfitPercent s)
  | SetBaseBalance v =>
      Settings.mk (Settings.id s) (Settings.takerFee s) (Settings.makerFee s)
        (Settings.enableFunding s) v
        (Settings.numberFormat s) (Settings.timezone s)
        (Settings.defaultStopLossPercent s)
        (Settings.defaultTakeProfitPercent s)
  | SetNumberFormat v =>
      Settings.mk (Settings.id s) (Settings.takerFee s) (Settings.makerFee s)
        (Settings.enableFunding s) (Settings.baseBalance s)
        v (Settings.timezone s)
        (Settings.defaultStopLossPercent s)
        (Settings.defaultTakeProfitPercent s)
  | SetTimezone v =>
      Settings.mk (Settings.id s) (Settings.takerFee s) (Settings.makerFee s)
        (Settings.enableFunding s) (Settings.baseBalance s)
        (Settings.numberFormat s) v
        (Settings.defaultStopLossPercent s)
        (Settings.defaultTakeProfitPercent s)
  | SetDefaultStopLossPercent v =>
      Settings.mk (Settings.id s) (Settings.takerFee s) (Settings.makerFee s)
        (Settings.enableFunding s) (Settings.baseBalance s)
        (Settings.numberFormat s) (Settings.timezone s)
        v (Settings.defaultTakeProfitPercent s)
  | SetDefaultTakeProfitPercent v =>
      Settings.mk (Settings.id s) (Settings.takerFee s) (Settings.makerFee s)
        (Settings.enableFunding s) (Settings.baseBalance s)
        (Settings.numberFormat s) (Settings.timezone s)
        (Settings.defaultStopLossPercent s) v
  end.

Definition pushIf {A B} (field : option A) (column : A -> B) : list B :=
  match field with
  | Some v => [column v]
  | None => []
  end.

Definition settingsUpdates (data : SettingsPatch.t)
  : list SettingsAssignment :=
  pushIf (SettingsPatch.takerFee data) SetTakerFee
  ++ pushIf (SettingsPatch.makerFee data) SetMakerFee
  ++ pushIf (SettingsPatch.enableFunding data) SetEnableFunding
  ++ pushIf (SettingsPatch.baseBalance data) SetBaseBalance
  ++ pushIf (SettingsPatch.numberFormat data) SetNumberFormat
  ++ pushIf (SettingsPatch.timezone data) SetTimezone
  ++ pushIf (SettingsPatch.defaultStopLossPercent data)
            SetDefaultStopLossPercent
  ++ pushIf (SettingsPatch.defaultTakeProfitPercent data)
            SetDefaultTakeProfitPercent.

Definition set_settings (d : Db) (s : Settings.t) : Db :=
  mkDb (paper_positions d) (paper_fills d) (paper_events d) s
       (seq_positions d) (seq_fills d) (seq_events d).

(** [UPDATE settings SET <updates> WHERE id = 1]; the table's CHECK keeps
    the single row at id 1. *)
Definition updateSettings (data : SettingsPatch.t) : M Settings.t :=
  let updates := settingsUpdates data in
  (if (0 <? List.length updates)%nat
   then run (fun d =>
          Ok (tt, set_settings d (fold_left assignSetting updates (settings d))))
   else ret tt) ;;;
  getSettings.

(** ** Vocabulary: integrity of the store *)

(** FOREIGN KEY: every fill and every event belongs to a stored
    position. *)
Definition noOrphans (d : Db) : Prop :=
  Forall (fun f => hasPosition d (Fill.positionId f) = true) (paper_fills d)
  /\ Forall (fun e => hasPosition d (Event.positionId e) = true)
            (paper_events d).

(** What the schema promises of every state of the store. *)
Definition storeIntegrity (d : Db) : Prop :=
  uniqueIds d /\ positionIdsBelowSeq d /\ referencesBelowSeq d /\ noOrphans d.

(** The operations that write to the store. *)
Inductive StoreOp :=
| OpCreate (data : CreatePositionRequest.t) (entryPrice fee : Q) (now : Z)
| OpUpdate (id : Z) (data : UpdatePositionRequest.t) (now : Z)
| OpClose (id : Z) (closePrice fee : Q) (event : CloseEvent) (now : Z)
| OpDelete (id : Z)
| OpUpdateSettings (data : SettingsPatch.t)
| OpTick (symbol : string) (markPrice : Q) (timestamp now : Z).

Definition applyOp (w : World) (op : StoreOp) : World :=
  match op with
  | OpCreate data entryPrice fee now =>
      snd (createPosition data entryPrice fee now w)
  | OpUpdate id data now => snd (updatePosition id data now w)
  | OpClose id closePrice fee event now =>
      snd (closePosition id closePrice fee event now w)
  | OpDelete id => snd (deletePosition id w)
  | OpUpdateSettings data => snd (updateSettings data w)
  | OpTick symbol markPrice timestamp now =>
      snd (TriggerEngine.handlePriceUpdate symbol markPrice timestamp now w)
  end.

(** The store with the position [id], its fills and its events removed. *)
Definition withoutPosition (d : Db) (id : Z) : Db :=
  mkDb (filter (fun p => negb (Position.id p =? id)%Z) (paper_positions d))
       (filter (fun f => negb (Fill.positionId f =? id)%Z) (paper_fills d))
       (filter (fun e => negb (Event.positionId e =? id)%Z) (paper_events d))
       (settings d) (seq_positions d) (seq_fills d) (seq_events d).

Definition fillsOf (d : Db) (id : Z) : list Fill.t :=
  filter (fun f => (Fill.positionId f =? id)%Z) (paper_fills d).

Definition emptyWorld (faults : list bool) : World :=
  mkWorld emptyDb faults idleWs [] [].

(** ** Vocabulary: listings *)

(** [a] may stand in front of [b] in a listing by [entryTime] descending. *)
Definition newerFirst (a b : Position.t) : Prop :=
  (Position.entryTime b <= Position.entryTime a)%Z.






(** Scenario S1 with its stop moved within the millisecond of the entry:
    two events of the same [ts]. *)
Definition worldS1moved : World :=
  snd (updatePosition 1 (UpdatePositionRequest.mk (Some (Some 96)) None) 1000
         worldS1).

(** ** Vocabulary: settings *)

Definition orElse {A} (field : option A) (current : A) : A :=
  match field with
  | Some v => v
  | None => current
  end.

(** The settings row with the provided fields of a patch written over. *)
Definition patched (data : SettingsPatch.t) (s : Settings.t) : Settings.t :=
  Settings.mk (Settings.id s)
    (orElse (SettingsPatch.takerFee data) (Settings.takerFee s))
    (orElse (SettingsPatch.makerFee data) (Settings.makerFee s))
    (orElse (SettingsPatch.enableFunding data) (Settings.enableFunding s))
    (orElse (SettingsPatch.baseBalance data) (Settings.baseBalance s))
    (orElse (SettingsPatch.numberFormat data) (Settings.numberFormat s))
    (orElse (SettingsPatch.timezone data) (Settings.timezone s))
    (orElse (SettingsPatch.defaultStopLossPercent data)
            (Settings.defaultStopLossPercent s))
    (orElse (SettingsPatch.defaultTakeProfitPercent data)
            (Settings.defaultTakeProfitPercent s)).

Definition emptyPatch : SettingsPatch.t :=
  SettingsPatch.mk None None None None None None None None.

(** ** Calculator, continued ([src/lib/calc/pnl.ts]) *)

Definition calculatePnLPercent (unrealizedPnl entryPrice qty : Q) : Q :=
  let notional := Calc.calculateNotional qty entryPrice in
  if isZero notional then 0 else (unrealizedPnl / notional) * 100.

Record PnLCalculation := mkPnL {
  unrealizedPnl : Q;
  pnlPercent : Q;
  notional : Q;
  currentPrice : Q
}.

Definition calculatePnLData (position : Position.t) (markPrice : Q)
  : PnLCalculation :=
  let unrealizedPnl :=
    Calc.calculateUnrealizedPnL (Position.side position)
      (Position.entryPrice position) markPrice (Position.qty position) in
  let pnlPercent :=
    calculatePnLPercent unrealizedPnl (Position.entryPrice position)
                        (Position.qty position) in
  let notional :=
    Calc.calculateNotional (Position.qty position)
                           (Position.entryPrice position) in
  mkPnL unrealizedPnl pnlPercent notional markPrice.

Definition calculateRMultiple (entryPrice sl : Q) : Q :=
  Qabs (entryPrice - sl).

Definition calculateTPFromR (side : PositionSide) (entryPrice sl rMultiple : Q)
  : Q :=
  let rValue := calculateRMultiple entryPrice sl in
  match side with
  | LONG => entryPrice + rValue * rMultiple
  | SHORT => entryPrice - rValue * rMultiple
  end.

Definition calculateMargin (notional leverage : Q) : Q :=
  if isZero leverage then notional else notional / leverage.

(** [maintenanceMarginRate] defaults to 0.004. *)
Definition defaultMaintenanceMarginRate : Q := 4 # 1000.

Definition calculateLiquidationPrice (side : PositionSide)
           (entryPrice leverage maintenanceMarginRate : Q) : Q :=
  match side with
  | LONG => entryPrice * (1 - 1 / leverage + maintenanceMarginRate)
  | SHORT => entryPrice * (1 + 1 / leverage - maintenanceMarginRate)
  end.

Definition calculateROE (pnl margin : Q) : Q :=
  if isZero margin then 0 else (pnl / margin) * 100.

(** ** Vocabulary for the statistics *)

Definition rowsOfStatus (d : Db) (s : PositionStatus) : list Position.t :=
  filter (fun p => statusEqb (Position.status p) s) (paper_positions d).

Definition ofSymbol (symbol : string) (l : list Position.t)
  : list Position.t :=
  filter (fun p => String.eqb (Position.symbol p) symbol) l.

(** The realized PnL of the positions of one symbol, added one after the
    other to 0 in the order of the list, as the route adds them. *)
Definition symbolPnl (symbol : string) (l : list Position.t) : Q :=
  Stats.totalPnl (ofSymbol symbol l).

(** One closed position is folded into the per-symbol table. *)
Definition addToSymbolStats (m : list (string * (Q * nat)))
           (pos : Position.t) : list (string * (Q * nat)) :=
  let current :=
    match mapGet (Position.symbol pos) m with
    | Some c => c
    | None => (0, O)
    end in
  mapSet (Position.symbol pos)
         (fst current + Position.realizedPnl pos, S (snd current)) m.

(** What the per-symbol table holds for the closed positions [l]: one
    entry per traded symbol, carrying that symbol's summed PnL and its
    number of positions. *)
Definition tableOf (l : list Position.t) (m : list (string * (Q * nat)))
  : Prop :=
  NoDup (map fst m)
  /\ (forall k v n, In (k, (v, n)) m ->
        v = symbolPnl k l /\ n = List.length (ofSymbol k l)
        /\ exists p, In p l /\ Position.symbol p = k)
  /\ (forall p, In p l -> In (Position.symbol p) (map fst m)).

(** What the scan for the best and worst symbol has found in the entries
    seen so far. *)
Definition scanned (seen : list (string * (Q * nat))) (e : Stats.Extremes)
  : Prop :=
  match seen with
  | [] => Stats.bestSymbol e = None /\ Stats.worstSymbol e = None
          /\ Stats.maxPnl e = None /\ Stats.minPnl e = None
  | _ =>
      exists b w hi lo nb nw,
        Stats.bestSymbol e = Some b /\ Stats.worstSymbol e = Some w
        /\ Stats.maxPnl e = Some hi /\ Stats.minPnl e = Some lo
        /\ In (b, (hi, nb)) seen /\ In (w, (lo, nw)) seen
        /\ forall k v n, In (k, (v, n)) seen -> v <= hi /\ lo <= v
  end.

(** One entry of the table is looked at by the scan. *)
Definition scanEntry (acc : Stats.Extremes) (entry : string * (Q * nat))
  : Stats.Extremes :=
  let symbol := fst entry in
  let pnl := fst (snd entry) in
  let acc1 :=
    if Stats.exceeds pnl (Stats.maxPnl acc)
    then Stats.mkExtremes (Some symbol) (Stats.worstSymbol acc) (Some pnl)
                          (Stats.minPnl acc)
    else acc in
  if Stats.isBelow pnl (Stats.minPnl acc1)
  then Stats.mkExtremes (Stats.bestSymbol acc1) (Some symbol)
                        (Stats.maxPnl acc1) (Some pnl)
  else acc1.

(** ** Vocabulary for the feed client *)

(** What can happen to the client: a call of [subscribe] or
    [unsubscribe], a call of [connect], and the socket's ['open'] and
    ['close'] events. *)
Inductive ClientStep :=
| StepSubscribe (symbol : string)
| StepUnsubscribe (symbol : string)
| StepConnect
| StepOpen
| StepClose.

Definition clientStep (c : WsClient) (s : ClientStep) : WsClient :=
  match s with
  | StepSubscribe symbol => WsClientOps.subscribe symbol c
  | StepUnsubscribe symbol => WsClientOps.unsubscribe symbol c
  | StepConnect => WsClientOps.connect c
  | StepOpen => WsClientOps.onOpen c
  | StepClose => WsClientOps.onClose c
  end.

(** The [id]s of the frames sent so far, oldest first. *)
Definition sentIds (c : WsClient) : list Z := map snd (sent c).

Definition frameParams (f : WsMethod * list string * Z) : list string :=
  snd (fst f).

Definition isLowerCase (s : string) : Prop := toLowerCase s = s.

(** The frames sent so far carry increasing ids, all below the next one. *)
Definition idsInOrder (c : WsClient) : Prop :=
  StronglySorted Z.lt (sentIds c)
  /\ Forall (fun i => (1 <= i < messageId c)%Z) (sentIds c).

(** ** Trigger engine, continued ([src/lib/triggers/engine.ts]) *)

(** [getCachedPrice]: [this.priceCache.get(symbol.toUpperCase())]. *)
Definition getCachedPrice (symbol : string) : M (option Q) :=
  gets (fun w => mapGet (toUpperCase symbol) (priceCache w)).

(** [Array.from(new Set(symbols))]: first occurrences, in order. *)
Definition uniqueSymbols (symbols : list string) : list string :=
  fold_left
    (fun seen s => if existsb (String.eqb s) seen then seen else seen ++ [s])
    symbols [].

Fixpoint forEachSymbol (symbols : list string) : M unit :=
  match symbols with
  | [] => ret tt
  | symbol :: rest =>
      TriggerEngine.subscribeToSymbol symbol ;;; forEachSymbol rest
  end.

(** [resubscribeOpenPositions]; the [catch] block only logs. *)
Definition resubscribeOpenPositions : M unit :=
  tryCatch
    (openPositions <- Queries.getAllOpenPositions ;;
     forEachSymbol (uniqueSymbols (map Position.symbol openPositions)))
    (fun _ => ret tt).

(** [start] *)
Definition start : M unit := resubscribeOpenPositions.

(** ** Vocabulary for a tick *)

(** The closure a tick at [markPrice] asks for on an open position. *)
Definition triggerOf (p : Position.t) (markPrice : Q) : option CloseEvent :=
  if Calc.shouldTriggerSL (Position.side p) markPrice (Position.sl p)
  then Some CloseSL
  else if Calc.shouldTriggerTP (Position.side p) markPrice (Position.tp p)
  then Some CloseTP
  else None.

(** The positions the engine looks at on a tick for [symbol]. *)
Definition watched (symbol : string) (p : Position.t) : bool :=
  statusEqb (Position.status p) OPEN
  && String.eqb (Position.symbol p) (toUpperCase symbol).


Definition ticks (l : list (string * Q * Z)) (w : World) : World :=
  fold_left (fun w t => tick (fst (fst t)) (snd (fst t)) (snd t) w) l w.



(** A computation that leaves a component of the world as it found it. *)
Definition preserves {A B} (proj : World -> B) (c : M A) : Prop :=
  forall w, proj (snd (c w)) = proj w.

(** The components that the storage layer never touches. *)
Definition besideStore {B} (proj : World -> B) : Prop :=
  (forall w d, proj (set_db w d) = proj w)
  /\ (forall w l, proj (set_io w l) = proj w).

(** ** Routes on one position *)

(** What a route answers: the JSON body of a 200, or a status with its
    [error] and, when it comes from the [catch] block, the [details]. *)
Inductive Reply (A : Type) :=
| Reply200 (body : A)
| ReplyError (status : Z) (error : string) (details : option Error).
Arguments Reply200 {A} body.
Arguments ReplyError {A} status error details.

(** [src/app/api/paper/positions/[id]/close/route.ts] *)
Module CloseRoute.

Section Exchange.

Variable ticker : string -> option Q.

Definition POST (id : Z) (now : Z) : M (Reply Position.t) :=
  tryCatch
    (found <- Queries.getPositionById id ;;
     match found with
     | None => ret (ReplyError 404 "Position not found" None)
     | Some position =>
         match Position.status position with
         | CLOSED => ret (ReplyError 400 "Position already closed" None)
         | OPEN =>
             cached <- getCachedPrice (Position.symbol position) ;;
             closePrice <-
               (match numOrNull cached with
                | Some price => ret price
                | None => getCurrentPrice ticker (Position.symbol position)
                end) ;;
             let notional :=
               Calc.calculateNotional (Position.qty position) closePrice in
             closeFee <- Calc.calculateTakerFee notional ;;
             closedPosition <-
               Queries.closePosition id closePrice closeFee CloseManual now ;;
             match closedPosition with
             | None => ret (ReplyError 500 "Failed to close position" None)
             | Some closed => ret (Reply200 closed)
             end
         end
     end)
    (fun e => ret (ReplyError 500 "Failed to close position" (Some e))).

End Exchange.

End CloseRoute.

(** [src/app/api/paper/positions/[id]/route.ts] *)
Module PositionRoute.

Definition GET (id : Z) : M (Reply Position.t) :=
  tryCatch
    (found <- Queries.getPositionById id ;;
     match found with
     | None => ret (ReplyError 404 "Position not found" None)
     | Some position => ret (Reply200 position)
     end)
    (fun e => ret (ReplyError 500 "Failed to get position" (Some e))).

Definition PATCH (id : Z) (body : UpdatePositionRequest.t) (now : Z)
  : M (Reply Position.t) :=
  tryCatch
    (updated <- Queries.updatePosition id body now ;;
     match updated with
     | None => ret (ReplyError 404 "Position not found" None)
     | Some position => ret (Reply200 position)
     end)
    (fun e => ret (ReplyError 500 "Failed to update position" (Some e))).

(** The body of the 200 is [{ success: true }]. *)
Definition DELETE (id : Z) : M (Reply bool) :=
  tryCatch
    (success <- Queries.deletePosition id ;;
     if negb success
     then ret (ReplyError 404 "Position not found" None)
     else ret (Reply200 true))
    (fun e => ret (ReplyError 500 "Failed to delete position" (Some e))).

End PositionRoute.

(** ** Vocabulary for the routes *)



(** ** Event stream route ([src/app/api/paper/stream/route.ts]) *)

Module StreamRoute.

(** The [data] of a [position-update] message. *)
Record PositionUpdate := mkUpdate {
  id : Z;
  symbol : string;
  markPrice : Q;
  unrealizedPnl : Q;
  pnlPercent : Q
}.

(** A row of the [initial] message; the three price fields are
    [undefined] while no truthy price is cached. *)
Record InitialRow := mkInitial {
  position : Position.t;
  initialMarkPrice : option Q;
  initialUnrealizedPnl : option Q;
  initialPnlPercent : option Q
}.

Inductive Message :=
| ConnectedMessage (timestamp : Z)
| InitialMessage (data : list InitialRow)
| PositionUpdateMessage (data : PositionUpdate)
| TriggerExecutedMessage (data : EngineEvent)
| HeartbeatMessage (timestamp : Z).

Definition initialRow (cache : list (string * Q)) (pos : Position.t)
  : InitialRow :=
  match numOrNull (mapGet (toUpperCase (Position.symbol pos)) cache) with
  | Some cachedPrice =>
      let '(mkPnL pnl percent _ _) := calculatePnLData pos cachedPrice in
      mkInitial pos (Some cachedPrice) (Some pnl) (Some percent)
  | None => mkInitial pos None None None
  end.

(** [start], up to the registration of the listeners: the two messages
    sent when a client connects. *)
Definition start (now : Z) : M (list Message) :=
  initial <-
    tryCatch
      (positions <- Queries.getAllOpenPositions ;;
       cache <- gets priceCache ;;
       ret [InitialMessage (map (initialRow cache) positions)])
      (fun _ => ret []) ;;
  ret (ConnectedMessage now :: initial).

Definition positionUpdate (markPrice : Q) (position : Position.t)
  : PositionUpdate :=
  let '(mkPnL pnl percent _ _) := calculatePnLData position markPrice in
  mkUpdate (Position.id position) (Position.symbol position) markPrice
           pnl percent.

(** The listener on the engine's [priceUpdate] events. *)
Definition handlePriceUpdate (symbol : string) (markPrice : Q)
  : M (list Message) :=
  tryCatch
    (openPositions <- Queries.getAllOpenPositions ;;
     let positions :=
       filter (fun p => String.eqb (Position.symbol p) symbol)
              openPositions in
     ret (map (fun position =>
                 PositionUpdateMessage (positionUpdate markPrice position))
              positions))
    (fun _ => ret []).

(** The listener on the engine's [triggerExecuted] events. *)
Definition handleTriggerExecuted (data : EngineEvent) : M (list Message) :=
  ret [TriggerExecutedMessage data].

End StreamRoute.

(** ** Vocabulary for the event stream *)

(** The positions that get a [position-update] after a tick: the open
    positions whose stored symbol is the tick's symbol and which the tick
    did not close. *)
Definition streamed (symbol : string) (markPrice : Q) (p : Position.t)
  : bool :=
  statusEqb (Position.status p) OPEN
  && String.eqb (Position.symbol p) symbol
  && negb (watched symbol p
           && match triggerOf p markPrice with
              | Some _ => true
              | None => false
              end).

(** The row a tick leaves in the place of [p] when the storage layer
    refuses nothing. *)
Definition afterTick (symbol : string) (markPrice : Q) (now : Z) (d : Db)
           (p : Position.t) : Position.t :=
  match (if watched symbol p then triggerOf p markPrice else None) with
  | Some _ => closedRow p markPrice (triggerFee d p markPrice) now
  | None => p
  end.

(** ** Vocabulary for the engine's announcements *)

(** What the engine emits for a position a tick looks at: one
    [triggerExecuted] when the tick closes it. *)
Definition announcement (d : Db) (markPrice : Q) (p : Position.t)
  : list EngineEvent :=
  match triggerOf p markPrice with
  | Some e =>
      [TriggerExecuted (Position.id p) e markPrice
         (realizedPnlOf p markPrice (triggerFee d p markPrice))]
  | None => []
  end.

(** ** Vocabulary for the history *)

Definition deletes (id : Z) (op : StoreOp) : bool :=
  match op with
  | OpDelete j => (j =? id)%Z
  | _ => false
  end.
(** * Properties *)

(** ** Rows and keys *)


Lemma find_updateRow_same (id : Z) f (l : list Position.t) :
  keepsId f ->
  find (fun p => (Position.id p =? id)%Z) (map (updateRow id f) l)
  = option_map f (find (fun p => (Position.id p =? id)%Z) l).
Proof.
  intros Hf. induction l as [|p l IH]; simpl; [reflexivity|].
  assert (Hu : updateRow id f p
               = if (Position.id p =? id)%Z then f p else p) by reflexivity.
  rewrite Hu. destruct (Position.id p =? id)%Z eqn:E.
  - rewrite Hf, E. reflexivity.
  - rewrite E. exact IH.
Qed.

Lemma find_updateRow_other (id j : Z) f (l : list Position.t) :
  keepsId f -> j <> id ->
  find (fun p => (Position.id p =? j)%Z) (map (updateRow id f) l)
  = find (fun p => (Position.id p =? j)%Z) l.
Proof.
  intros Hf Hne. induction l as [|p l IH]; simpl; [reflexivity|].
  assert (Hu : updateRow id f p
               = if (Position.id p =? id)%Z then f p else p) by reflexivity.
  rewrite Hu. destruct (Position.id p =? id)%Z eqn:E.
  - rewrite Hf. apply Z.eqb_eq in E.
    assert (Hj : (Position.id p =? j)%Z = false) by (apply Z.eqb_neq; lia).
    rewrite Hj. exact IH.
  - destruct (Position.id p =? j)%Z; [reflexivity | exact IH].
Qed.

Lemma map_id_updateRow (id : Z) f (l : list Position.t) :
  keepsId f ->
  map Position.id (map (updateRow id f) l) = map Position.id l.
Proof.
  intros Hf. induction l as [|p l IH]; simpl; [reflexivity|].
  rewrite IH. f_equal. unfold updateRow.
  destruct (Position.id p =? id)%Z; [apply Hf | reflexivity].
Qed.

Lemma existsb_find_id (id : Z) (l : list Position.t) :
  existsb (fun p => (Position.id p =? id)%Z) l
  = match find (fun p => (Position.id p =? id)%Z) l with
    | Some _ => true
    | None => false
    end.
Proof.
  induction l as [|p l IH]; simpl; [reflexivity|].
  destruct (Position.id p =? id)%Z; simpl; [reflexivity | exact IH].
Qed.

Lemma find_id_sound (id : Z) (l : list Position.t) p :
  find (fun p => (Position.id p =? id)%Z) l = Some p ->
  In p l /\ Position.id p = id.
Proof.
  intros H. apply find_some in H. destruct H as [Hin He].
  split; [exact Hin | now apply Z.eqb_eq].
Qed.

Lemma keepsId_markClosed cp now r fee : keepsId (markClosed cp now r fee).
Proof. intros p. reflexivity. Qed.

Lemma keepsId_assign (updates : list (Queries.Column * option Q)) :
  keepsId (fun p => fold_left Queries.assign updates p).
Proof.
  induction updates as [|[c v] u IH]; intros p; simpl; [reflexivity|].
  rewrite IH. destruct c; reflexivity.
Qed.

Lemma hasPosition_afterUpdate d id f j :
  keepsId f -> hasPosition (afterUpdate d id f) j = hasPosition d j.
Proof.
  intros Hf. unfold hasPosition, afterUpdate. simpl.
  rewrite !existsb_find_id.
  destruct (Z.eq_dec j id) as [->|Hne].
  - rewrite find_updateRow_same by exact Hf.
    destruct (find _ (paper_positions d)); reflexivity.
  - rewrite find_updateRow_other by assumption. reflexivity.
Qed.

Lemma hasPosition_select d id p :
  Queries.selectPosition d id = Some p -> hasPosition d id = true.
Proof.
  unfold hasPosition, Queries.selectPosition. intros H.
  rewrite existsb_find_id, H. reflexivity.
Qed.

Lemma closePosition_noop_absent id cp fee ev now w :
  Queries.selectPosition (db w) id = None ->
  Queries.closePosition id cp fee ev now w = (Ok None, w).
Proof.
  intros H. unfold Queries.closePosition, bind, Queries.getPositionById, gets.
  rewrite H. reflexivity.
Qed.

Lemma closePosition_noop_closed id cp fee ev now w p :
  Queries.selectPosition (db w) id = Some p ->
  Position.status p = CLOSED ->
  Queries.closePosition id cp fee ev now w = (Ok None, w).
Proof.
  intros H Hs. unfold Queries.closePosition, bind, Queries.getPositionById, gets.
  rewrite H, Hs. reflexivity.
Qed.


(** ** One write statement at a time *)

Lemma run_cases A (statement : Db -> Res (A * Db)) w :
  (exists e, run statement w = (Throw e, consumed w)
             /\ (io w = [] -> statement (db w) = Throw e))
  \/ (exists a d, statement (db w) = Ok (a, d)
                  /\ run statement w = (Ok a, set_db (consumed w) d)).
Proof.
  unfold run, consumed. destruct (io w) as [|[] rest] eqn:E; simpl.
  - destruct (statement (db w)) as [[a d]|e] eqn:Es.
    + right. eauto.
    + left. exists e. split; [reflexivity|]. eauto.
  - left. exists SqliteIoError. split; [reflexivity | discriminate].
  - destruct (statement (db w)) as [[a d]|e] eqn:Es.
    + right. eauto.
    + left. exists e. split; [reflexivity | discriminate].
Qed.

Lemma updateWhereId_cases id f w :
  (exists e, updateWhereId id f w = (Throw e, consumed w) /\ io w <> [])
  \/ updateWhereId id f w
     = (Ok tt, set_db (consumed w) (afterUpdate (db w) id f)).
Proof.
  unfold updateWhereId.
  destruct (run_cases (fun d => Ok (tt, afterUpdate d id f)) w)
    as [(e & He & Hio) | (a & d & Hs & He)].
  - left. exists e. split; [exact He|]. intros Hn. specialize (Hio Hn).
    discriminate.
  - right. injection Hs as <- <-. exact He.
Qed.

Lemma createFill_cases pid ty price qty fee ts w :
  hasPosition (db w) pid = true ->
  let row := Fill.mk (seq_fills (db w) + 1) pid ty price qty fee ts in
  (exists e, createFill pid ty price qty fee ts w = (Throw e, consumed w)
             /\ io w <> [])
  \/ createFill pid ty price qty fee ts w
     = (Ok row, set_db (consumed w) (addFill (db w) row)).
Proof.
  intros Hp row. unfold createFill.
  match goal with |- context [run ?s w] =>
    destruct (run_cases s w) as [(e & He & Hio) | (a & d & Hs & He)] end.
  - left. exists e. split; [exact He|]. intros Hn. specialize (Hio Hn).
    rewrite Hp in Hio. discriminate.
  - right. rewrite Hp in Hs. injection Hs as <- <-. exact He.
Qed.

Lemma createEvent_cases pid ev payload ts w :
  hasPosition (db w) pid = true ->
  let row := Event.mk (seq_events (db w) + 1) pid ev payload ts in
  (exists e, createEvent pid ev payload ts w = (Throw e, consumed w)
             /\ io w <> [])
  \/ createEvent pid ev payload ts w
     = (Ok row, set_db (consumed w) (addEvent (db w) row)).
Proof.
  intros Hp row. unfold createEvent.
  match goal with |- context [run ?s w] =>
    destruct (run_cases s w) as [(e & He & Hio) | (a & d & Hs & He)] end.
  - left. exists e. split; [exact He|]. intros Hn. specialize (Hio Hn).
    rewrite Hp in Hio. discriminate.
  - right. rewrite Hp in Hs. injection Hs as <- <-. exact He.
Qed.

Lemma io_consumed_nil w : io w = [] -> io (consumed w) = [].
Proof. intros H. unfold consumed. simpl. rewrite H. reflexivity. Qed.

Lemma closePosition_open id cp fee ev now w p :
  selectPosition (db w) id = Some p ->
  Position.status p = OPEN ->
  let r := closePosition id cp fee ev now w in
  (exists n, (n <= 2)%nat /\ (exists e, fst r = Throw e)
             /\ db (snd r) = closeStage (db w) p cp fee ev now n
             /\ io w <> [])
  \/ (fst r = Ok (Some (closedRow p cp fee now))
      /\ db (snd r) = closeStage (db w) p cp fee ev now 3).
Proof.
  intros H Hs r. subst r.
  pose proof (find_id_sound _ _ H) as [_ Hid]. subst id.
  pose proof (hasPosition_select _ _ H) as Hhas.
  unfold closePosition, bind, getPositionById, gets.
  rewrite H, Hs.
  fold (realizedPnlOf p cp fee).
  set (rp := realizedPnlOf p cp fee).
  destruct (updateWhereId_cases (Position.id p) (markClosed cp now rp fee) w)
    as [(e & He & Hio) | He]; rewrite He; clear He.
  { left. exists 0%nat. simpl.
    split; [lia|]. split; [eauto|]. split; [reflexivity | exact Hio]. }
  set (w1 := set_db (consumed w) (afterUpdate (db w) (Position.id p) (markClosed cp now rp fee))).
  assert (Hhas1 : hasPosition (db w1) (Position.id p) = true).
  { subst w1. simpl. rewrite hasPosition_afterUpdate; [exact Hhas|].
    apply keepsId_markClosed. }
  destruct (createFill_cases (Position.id p) FillType.CLOSE cp (Position.qty p) fee now w1 Hhas1)
    as [(e & He & Hio) | He]; rewrite He; clear He.
  { left. exists 1%nat. simpl.
    split; [lia|]. split; [eauto|]. split; [reflexivity|].
    intros Hn. apply Hio. subst w1. simpl. rewrite Hn. reflexivity. }
  match goal with |- context [createEvent _ _ _ _ ?w] => set (w2 := w) end.
  assert (Hhas2 : hasPosition (db w2) (Position.id p) = true).
  { subst w2. simpl. exact Hhas1. }
  destruct (createEvent_cases (Position.id p) (closeEventType ev) (PayloadClosed cp rp) now w2 Hhas2)
    as [(e & He & Hio) | He]; rewrite He; clear He.
  { left. exists 2%nat. simpl.
    split; [lia|]. split; [eauto|]. split; [reflexivity|].
    intros Hn. apply Hio. subst w2 w1. simpl. rewrite Hn. reflexivity. }
  right. simpl. split; [|reflexivity].
  unfold selectPosition. simpl.
  rewrite find_updateRow_same by apply keepsId_markClosed.
  fold (selectPosition (db w) (Position.id p)). rewrite H. reflexivity.
Qed.

(** ** At-most-once closure *)

Lemma select_closeStage d p cp fee ev now n :
  selectPosition d (Position.id p) = Some p ->
  (1 <= n)%nat ->
  selectPosition (closeStage d p cp fee ev now n) (Position.id p)
  = Some (closedRow p cp fee now).
Proof.
  intros H Hn.
  assert (E : selectPosition
                (afterUpdate d (Position.id p)
                   (markClosed cp now (realizedPnlOf p cp fee) fee))
                (Position.id p) = Some (closedRow p cp fee now)).
  { unfold selectPosition, afterUpdate. simpl.
    rewrite find_updateRow_same by apply keepsId_markClosed.
    fold (selectPosition d (Position.id p)). rewrite H. reflexivity. }
  destruct n as [|[|[|n]]]; [lia | exact E ..].
Qed.

Lemma fills_closeStage d p cp fee ev now n :
  paper_fills (closeStage d p cp fee ev now n)
  = paper_fills d
    ++ (if (2 <=? n)%nat then [closeFillRow d p cp fee now] else []).
Proof.
  destruct n as [|[|[|n]]]; simpl; try reflexivity; now rewrite app_nil_r.
Qed.

Lemma events_closeStage d p cp fee ev now n :
  paper_events (closeStage d p cp fee ev now n)
  = paper_events d
    ++ (if (3 <=? n)%nat then [closeEventRow d p cp fee ev now] else []).
Proof.
  destruct n as [|[|[|n]]]; simpl; try reflexivity; now rewrite app_nil_r.
Qed.

Lemma closeFills_closeStage d p cp fee ev now n :
  closeFills (closeStage d p cp fee ev now n) (Position.id p)
  = closeFills d (Position.id p)
    ++ (if (2 <=? n)%nat then [closeFillRow d p cp fee now] else []).
Proof.
  unfold closeFills. rewrite fills_closeStage, filter_app.
  destruct (2 <=? n)%nat; simpl; [|reflexivity].
  rewrite Z.eqb_refl. reflexivity.
Qed.

Lemma terminalEvents_closeStage d p cp fee ev now n :
  terminalEvents (closeStage d p cp fee ev now n) (Position.id p)
  = terminalEvents d (Position.id p)
    ++ (if (3 <=? n)%nat then [closeEventRow d p cp fee ev now] else []).
Proof.
  unfold terminalEvents. rewrite events_closeStage, filter_app.
  destruct (3 <=? n)%nat; simpl; [|reflexivity].
  rewrite Z.eqb_refl. destruct ev; reflexivity.
Qed.

Lemma closedAtMostOnce_closeStage d p cp fee ev now n :
  selectPosition d (Position.id p) = Some p ->
  Position.status p = OPEN ->
  closedAtMostOnce d (Position.id p) ->
  closedAtMostOnce (closeStage d p cp fee ev now n) (Position.id p).
Proof.
  intros H Hs Hinv.
  unfold closedAtMostOnce in Hinv. rewrite H, Hs in Hinv.
  destruct Hinv as [Hf He].
  destruct n as [|n]; [unfold closedAtMostOnce; simpl; rewrite H, Hs; auto|].
  unfold closedAtMostOnce.
  rewrite select_closeStage by (assumption || lia).
  cbn [closedRow markClosed Position.status].
  rewrite closeFills_closeStage, terminalEvents_closeStage, Hf, He.
  destruct (2 <=? S n)%nat, (3 <=? S n)%nat; simpl; lia.
Qed.

Lemma closeAll_closed id calls w p :
  selectPosition (db w) id = Some p ->
  Position.status p = CLOSED ->
  closeAll id calls w = (O, w).
Proof.
  intros H Hs. induction calls as [|c calls IH]; simpl; [reflexivity|].
  rewrite (@closePosition_noop_closed id _ _ _ _ w p H Hs), IH. reflexivity.
Qed.

Lemma closeAll_absent id calls w :
  selectPosition (db w) id = None ->
  closeAll id calls w = (O, w).
Proof.
  intros H. induction calls as [|c calls IH]; simpl; [reflexivity|].
  rewrite (@closePosition_noop_absent id _ _ _ _ w H), IH. reflexivity.
Qed.

Lemma closedAtMostOnce_bounds d id :
  closedAtMostOnce d id ->
  (List.length (closeFills d id) <= 1)%nat
  /\ (List.length (terminalEvents d id) <= 1)%nat.
Proof.
  unfold closedAtMostOnce.
  destruct (selectPosition d id) as [p|]; [|tauto].
  destruct (Position.status p); [|tauto].
  intros [-> ->]. simpl. lia.
Qed.

Lemma closeAll_at_most_once id calls :
  forall w, closedAtMostOnce (db w) id ->
  (fst (closeAll id calls w) <= 1)%nat
  /\ closedAtMostOnce (db (snd (closeAll id calls w))) id.
Proof.
  induction calls as [|c calls IH]; intros w Hinv; simpl.
  - split; [lia | exact Hinv].
  - destruct (selectPosition (db w) id) as [p|] eqn:Hsel.
    2:{ rewrite (@closePosition_noop_absent id _ _ _ _ w Hsel).
        specialize (IH w Hinv). destruct (closeAll id calls w). simpl in *.
        exact IH. }
    destruct (Position.status p) eqn:Hs.
    2:{ rewrite (@closePosition_noop_closed id _ _ _ _ w p Hsel Hs).
        specialize (IH w Hinv). destruct (closeAll id calls w). simpl in *.
        exact IH. }
    pose proof (find_id_sound _ _ Hsel) as [_ Hid]. subst id.
    pose proof (@closePosition_open (Position.id p) (call_closePrice c)
                  (call_fee c) (call_event c) (call_now c) w p Hsel Hs) as Hc.
    cbv zeta in Hc.
    destruct (closePosition (Position.id p) (call_closePrice c) (call_fee c)
                (call_event c) (call_now c) w) as [r w1].
    cbn [fst snd] in Hc.
    destruct Hc as [(n & Hn & (e & ->) & Hdb & _) | (-> & Hdb)].
    + assert (Hinv1 : closedAtMostOnce (db w1) (Position.id p)).
      { rewrite Hdb. now apply closedAtMostOnce_closeStage. }
      specialize (IH w1 Hinv1).
      destruct (closeAll (Position.id p) calls w1). simpl in *. exact IH.
    + assert (Hsel1 : selectPosition (db w1) (Position.id p)
                      = Some (closedRow p (call_closePrice c) (call_fee c)
                                        (call_now c))).
      { rewrite Hdb. apply select_closeStage; [assumption | lia]. }
      rewrite (@closeAll_closed (Position.id p) calls w1 _ Hsel1 eq_refl). simpl.
      split; [lia|]. rewrite Hdb. now apply closedAtMostOnce_closeStage.
Qed.

(** C1.  A call of [closePosition] on a position that is already CLOSED
    returns [null] and leaves the whole world, hence every table, as it
    was.  Consequently, in any sequence of [closePosition] calls on one
    position, whatever writes the storage layer refuses, at most one call
    returns the closed row, and the position never has more than one
    CLOSE fill or more than one terminal event. *)
Theorem closePosition_at_most_once :
  (forall w id closePrice closeFee event now p,
      selectPosition (db w) id = Some p ->
      Position.status p = CLOSED ->
      closePosition id closePrice closeFee event now w = (Ok None, w))
  /\ (forall w id calls,
         closedAtMostOnce (db w) id ->
         let result := closeAll id calls w in
         (fst result <= 1)%nat
         /\ (List.length (closeFills (db (snd result)) id) <= 1)%nat
         /\ (List.length (terminalEvents (db (snd result)) id) <= 1)%nat).
Proof.
  split.
  - intros. eapply closePosition_noop_closed; eassumption.
  - intros w id calls Hinv result. subst result.
    destruct (closeAll_at_most_once id calls w Hinv) as [Hn Hi].
    split; [exact Hn|]. now apply closedAtMostOnce_bounds.
Qed.

(** ** Realized PnL *)

Example worldS1_position :
  paper_positions (db worldS1)
  = [Position.mk 1 "BTCUSDT" LONG (1000 / 100) 100 1000 (Some 95) (Some 110)
                 1 OPEN None None 0 (4 # 10) 0 0 None].
Proof. reflexivity. Qed.

Example worldS1closed_pnl :
  match selectPosition (db worldS1closed) 1 with
  | Some p => Position.status p = CLOSED
              /\ Position.realizedPnl p == 9916 # 100
  | None => False
  end.
Proof. vm_compute. split; reflexivity. Qed.

Lemma closePosition_at_most_once_witness :
  closePosition 1 120 (48 # 100) CloseManual 3000 worldS1closed
  = (Ok None, worldS1closed)
  /\ (let result :=
        closeAll 1 [mkCall 110 (44 # 100) CloseTP 2000;
                    mkCall 111 (44 # 100) CloseManual 2001] worldS1 in
      (fst result <= 1)%nat
      /\ (List.length (closeFills (db (snd result)) 1) <= 1)%nat
      /\ (List.length (terminalEvents (db (snd result)) 1) <= 1)%nat).
Proof.
  destruct closePosition_at_most_once as [Hnoop Hseq]. split.
  - eapply (Hnoop worldS1closed 1%Z); vm_compute; reflexivity.
  - apply (Hseq worldS1 1%Z). vm_compute. split; reflexivity.
Defined.

Example two_manual_closes :
  let result :=
    closeAll 1 [mkCall 110 (44 # 100) CloseManual 2000;
                mkCall 111 (44 # 100) CloseManual 2001] worldS1 in
  fst result = 1%nat
  /\ List.length (closeFills (db (snd result)) 1) = 1%nat
  /\ List.length (terminalEvents (db (snd result)) 1) = 1%nat.
Proof. vm_compute. repeat split. Qed.

(** The value that [closePosition] stores as [realizedPnl] gives back the
    price difference times the quantity when the fees and the funding are
    added to it, in the arithmetic of the rationals.  The code adds and
    subtracts in binary64, where this need not hold, as the computation
    after the next theorem shows. *)
Lemma realizedPnlOf_rationals p closePrice fee :
  realizedPnlOf p closePrice fee + Position.feesOpen p + fee
  + Position.fundingPnl p
  == match Position.side p with
     | LONG => (closePrice - Position.entryPrice p) * Position.qty p
     | SHORT => (Position.entryPrice p - closePrice) * Position.qty p
     end.
Proof. unfold realizedPnlOf. destruct (Position.side p); ring. Qed.

(** C2.  When [closePosition] returns a row, that row is the stored one,
    it is CLOSED at the given close price, its [feesClose] is the fee
    passed to the call, and its [realizedPnl] is the value of the
    expression of the code, [pnl - feesOpen - feesClose - fundingPnl]
    taken from left to right, where [pnl] is
    [(closePrice - entryPrice) * qty] for LONG and
    [(entryPrice - closePrice) * qty] for SHORT.  The equation on
    [realizedPnl] is between the stored value and this expression itself:
    no law of arithmetic is used. *)
Theorem closePosition_realizedPnl w id closePrice closeFee event now p' :
  fst (closePosition id closePrice closeFee event now w) = Ok (Some p') ->
  selectPosition (db (snd (closePosition id closePrice closeFee event now w)))
                 id = Some p'
  /\ Position.status p' = CLOSED
  /\ Position.closePrice p' = Some closePrice
  /\ Position.feesClose p' = closeFee
  /\ Position.realizedPnl p'
     = match Position.side p' with
       | LONG => (closePrice - Position.entryPrice p') * Position.qty p'
       | SHORT => (Position.entryPrice p' - closePrice) * Position.qty p'
       end
       - Position.feesOpen p' - Position.feesClose p'
       - Position.fundingPnl p'.
Proof.
  intros Hok.
  destruct (selectPosition (db w) id) as [p|] eqn:Hsel.
  2:{ rewrite (@closePosition_noop_absent id _ _ _ _ w Hsel) in Hok.
      discriminate. }
  destruct (Position.status p) eqn:Hs.
  2:{ rewrite (@closePosition_noop_closed id _ _ _ _ w p Hsel Hs) in Hok.
      discriminate. }
  pose proof (find_id_sound _ _ Hsel) as [_ Hid]. subst id.
  pose proof (@closePosition_open (Position.id p) closePrice closeFee event
                now w p Hsel Hs) as Hc.
  cbv zeta in Hc.
  destruct Hc as [(n & _ & (e & He) & _) | (Hr & Hdb)].
  { rewrite He in Hok. discriminate. }
  rewrite Hr in Hok. injection Hok as <-.
  rewrite Hdb. split.
  { apply select_closeStage; [assumption | lia]. }
  unfold closedRow, markClosed, realizedPnlOf.
  cbn [Position.status Position.closePrice Position.feesClose Position.side
       Position.realizedPnl Position.feesOpen Position.fundingPnl
       Position.entryPrice Position.qty].
  repeat split.
Qed.

Lemma closePosition_realizedPnl_witness :
  let p' := closedRow
              (Position.mk 1 "BTCUSDT" LONG (1000 / 100) 100 1000 (Some 95)
                 (Some 110) 1 OPEN None None 0 (4 # 10) 0 0 None)
              110 (44 # 100) 2000 in
  selectPosition (db worldS1closed) 1 = Some p'
  /\ Position.feesClose p' = 44 # 100
  /\ Position.realizedPnl p'
     = (110 - Position.entryPrice p') * Position.qty p'
       - Position.feesOpen p' - Position.feesClose p'
       - Position.fundingPnl p'.
Proof.
  intros p'.
  pose proof (@closePosition_realizedPnl worldS1 1%Z 110 (44 # 100) CloseTP
                2000 p' eq_refl) as (Hsel & _ & _ & Hfee & Hpnl).
  split; [exact Hsel | split; [exact Hfee | exact Hpnl]].
Defined.

(** The identity of exact arithmetic fails in binary64.  The position of
    scenario S1 (LONG, 1000 USDT at the entry price 100, so [1000 / 100]
    units and an opening fee of 0.4, no funding) is closed at 99.2 with
    the taker fee of 0.04 percent on the closing notional.  The code
    stores [realizedPnl = pnl - feesOpen - fee - fundingPnl]; adding the
    fees and the funding back to it gives -7.9999999999999725, whereas
    [(closePrice - entryPrice) * qty] is -7.9999999999999716. *)
Lemma closePosition_pnl_identity_binary64 :
  let qty := (1000 / 100)%float in
  let fee := (qty * 99.2 * 0.0004)%float in
  let realized := Binary64.realizedPnl LONG 100 99.2 qty 0.4 fee 0 in
  Binary64.addedBack realized 0.4 fee 0 = (-7.9999999999999725)%float
  /\ Binary64.pnl LONG 100 99.2 qty = (-7.9999999999999716)%float
  /\ PrimFloat.eqb (Binary64.addedBack realized 0.4 fee 0)
                   (Binary64.pnl LONG 100 99.2 qty) = false.
Proof. vm_compute. repeat split. Qed.

(** ** Editing SL/TP *)

Lemma updatePosition_empty id now w :
  updatePosition id (UpdatePositionRequest.mk None None) now w
  = (Ok (selectPosition (db w) id), w).
Proof. reflexivity. Qed.

Lemma updatePosition_unfold id data now :
  providesField data = true ->
  updatePosition id data now
  = (updateWhereId id (applyUpdates data) ;;;
     createEvent id (updateEventType data) (PayloadUpdated data) now ;;;
     getPositionById id).
Proof.
  destruct data as [[sl|] [tp|]]; intros H; try discriminate; reflexivity.
Qed.

Lemma keepsId_applyUpdates data : keepsId (applyUpdates data).
Proof. apply keepsId_assign. Qed.

Lemma withoutSlTp_assign a p : withoutSlTp (assign p a) = withoutSlTp p.
Proof. destruct a as [[] v]; reflexivity. Qed.

Lemma withoutSlTp_applyUpdates data p :
  withoutSlTp (applyUpdates data p) = withoutSlTp p.
Proof.
  unfold applyUpdates. generalize (updatesOf data) as u.
  intros u. revert p. induction u as [|a u IH]; intros p; simpl;
    [reflexivity|].
  rewrite IH. apply withoutSlTp_assign.
Qed.

Lemma withoutSlTp_afterUpdate d id data :
  map withoutSlTp (paper_positions (afterUpdate d id (applyUpdates data)))
  = map withoutSlTp (paper_positions d).
Proof.
  unfold afterUpdate. simpl. rewrite map_map. apply map_ext.
  intros p. unfold updateRow.
  destruct (Position.id p =? id)%Z;
    [apply withoutSlTp_applyUpdates | reflexivity].
Qed.

(** The three stores a call that provides a field can leave behind. *)
Lemma updatePosition_stores id data now w :
  providesField data = true ->
  let d := db w in
  let d1 := afterUpdate d id (applyUpdates data) in
  let row :=
    Event.mk (seq_events d + 1) id (updateEventType data)
             (PayloadUpdated data) now in
  let r := updatePosition id data now w in
  ((exists e, fst r = Throw e)
   /\ (db (snd r) = d \/ db (snd r) = d1)
   /\ (io w = [] -> hasPosition d id = false))
  \/ (fst r = Ok (selectPosition d1 id)
      /\ db (snd r) = addEvent d1 row
      /\ hasPosition d id = true).
Proof.
  intros Hp d d1 row r. subst r.
  rewrite (@updatePosition_unfold id data now Hp). unfold bind.
  destruct (updateWhereId_cases id (applyUpdates data) w)
    as [(e & He & Hio) | He]; rewrite He; clear He.
  { left. simpl. split; [eauto|]. split; [left; reflexivity|].
    intros Hn. contradiction. }
  fold d d1.
  destruct (hasPosition d id) eqn:Hhas.
  - assert (Hhas1 : hasPosition (db (set_db (consumed w) d1)) id = true).
    { simpl. subst d1. rewrite hasPosition_afterUpdate; [exact Hhas|].
      apply keepsId_applyUpdates. }
    destruct (createEvent_cases id (updateEventType data)
                (PayloadUpdated data) now (set_db (consumed w) d1) Hhas1)
      as [(e & He & Hio) | He]; rewrite He; clear He.
    { left. simpl. split; [eauto|]. split; [right; reflexivity|].
      intros Hn. exfalso. apply Hio. simpl. rewrite Hn. reflexivity. }
    right. simpl. repeat split.
  - left. unfold createEvent.
    match goal with |- context [run ?s ?w0] =>
      destruct (run_cases s w0) as [(e & He & Hio) | (a & d' & Hs & He)] end.
    + rewrite He. simpl. split; [eauto|]. split; [right; reflexivity|].
      reflexivity.
    + simpl in Hs. subst d1.
      rewrite hasPosition_afterUpdate in Hs by apply keepsId_applyUpdates.
      fold d in Hs. rewrite Hhas in Hs. discriminate.
Qed.

(** C10.  Whatever the request and whatever the storage layer refuses,
    [updatePosition] leaves every stored field other than [sl] and [tp] of
    every row as it was (symbol, side, qty, entryPrice, entryTime,
    leverage, status, closePrice, closeTime, realizedPnl, feesOpen,
    feesClose, fundingPnl, notes); and when the request has neither an
    [sl] nor a [tp] field the call attempts no write, appends no event and
    returns the row as stored: the world is unchanged. *)
Theorem updatePosition_frame :
  (forall w id data now,
      map withoutSlTp
          (paper_positions (db (snd (updatePosition id data now w))))
      = map withoutSlTp (paper_positions (db w)))
  /\ (forall w id now,
         updatePosition id (UpdatePositionRequest.mk None None) now w
         = (Ok (selectPosition (db w) id), w)).
Proof.
  split; [|intros; apply updatePosition_empty].
  intros w id data now.
  destruct (providesField data) eqn:Hp.
  - pose proof (@updatePosition_stores id data now w Hp) as H.
    cbv zeta in H.
    destruct H as [(_ & [-> | ->] & _) | (_ & -> & _)]; try reflexivity.
    + apply withoutSlTp_afterUpdate.
    + cbn [addEvent paper_positions]. apply withoutSlTp_afterUpdate.
  - destruct data as [[|] [|]]; try discriminate. reflexivity.
Qed.

Lemma select_afterUpdate d id f p :
  keepsId f ->
  selectPosition d id = Some p ->
  selectPosition (afterUpdate d id f) id = Some (f p).
Proof.
  intros Hf H. unfold selectPosition, afterUpdate. simpl.
  rewrite find_updateRow_same by exact Hf.
  fold (selectPosition d id). rewrite H. reflexivity.
Qed.

Lemma sl_applyUpdates data p :
  Position.sl (applyUpdates data p)
  = match UpdatePositionRequest.sl data with
    | Some v => v
    | None => Position.sl p
    end.
Proof. destruct data as [[sl|] [tp|]]; reflexivity. Qed.

Lemma tp_applyUpdates data p :
  Position.tp (applyUpdates data p)
  = match UpdatePositionRequest.tp data with
    | Some v => v
    | None => Position.tp p
    end.
Proof. destruct data as [[sl|] [tp|]]; reflexivity. Qed.

(** C6, amended.  [updatePosition] does not look at the status: for a
    stored position, OPEN or CLOSED alike, a request that provides [sl] or
    [tp] (no write being refused) sets exactly the provided fields, leaves
    all others, and appends exactly one event, SL_UPDATED when [sl] is
    provided and TP_UPDATED otherwise. *)
Theorem updatePosition_any_status w id data now p :
  selectPosition (db w) id = Some p ->
  providesField data = true ->
  io w = [] ->
  let r := updatePosition id data now w in
  let p' := applyUpdates data p in
  fst r = Ok (Some p')
  /\ selectPosition (db (snd r)) id = Some p'
  /\ Position.sl p'
     = match UpdatePositionRequest.sl data with
       | Some v => v
       | None => Position.sl p
       end
  /\ Position.tp p'
     = match UpdatePositionRequest.tp data with
       | Some v => v
       | None => Position.tp p
       end
  /\ withoutSlTp p' = withoutSlTp p
  /\ paper_events (db (snd r))
     = paper_events (db w)
       ++ [Event.mk (seq_events (db w) + 1) id
                    (match UpdatePositionRequest.sl data with
                     | Some _ => SL_UPDATED
                     | None => TP_UPDATED
                     end)
                    (PayloadUpdated data) now].
Proof.
  intros Hsel Hp Hio r p'. subst r p'.
  pose proof (hasPosition_select _ _ Hsel) as Hhas.
  pose proof (@updatePosition_stores id data now w Hp) as H.
  cbv zeta in H.
  destruct H as [(_ & _ & Hno) | (Hr & Hdb & _)].
  { rewrite (Hno Hio) in Hhas. discriminate. }
  assert (Hsel1 : selectPosition (afterUpdate (db w) id (applyUpdates data)) id
                  = Some (applyUpdates data p)).
  { apply select_afterUpdate; [apply keepsId_applyUpdates | exact Hsel]. }
  rewrite Hr, Hdb, Hsel1.
  split; [reflexivity|]. split; [exact Hsel1|].
  split; [apply sl_applyUpdates|]. split; [apply tp_applyUpdates|].
  split; [apply withoutSlTp_applyUpdates | reflexivity].
Qed.

(** A CLOSED position is edited like any other: its [sl] changes and an
    SL_UPDATED event is appended. *)
Lemma updatePosition_closed_counterexample :
  (exists p, selectPosition (db worldS1closed) 1 = Some p
             /\ Position.status p = CLOSED
             /\ Position.sl p = Some 95)
  /\ (exists p', fst (updatePosition 1
                        (UpdatePositionRequest.mk (Some (Some 90)) None)
                        3000 worldS1closed) = Ok (Some p')
                 /\ Position.status p' = CLOSED
                 /\ Position.sl p' = Some 90)
  /\ paper_events (db worldS1edited)
     = paper_events (db worldS1closed)
       ++ [Event.mk 3 1 SL_UPDATED
             (PayloadUpdated (UpdatePositionRequest.mk (Some (Some 90)) None))
             3000].
Proof.
  split; [|split].
  - eexists. vm_compute. repeat split.
  - eexists. vm_compute. repeat split.
  - vm_compute. reflexivity.
Qed.

Lemma updatePosition_any_status_witness :
  let data := UpdatePositionRequest.mk (Some (Some 90)) None in
  let r := updatePosition 1 data 3000 worldS1closed in
  Position.status positionS1closed = CLOSED
  /\ fst r = Ok (Some (applyUpdates data positionS1closed))
  /\ Position.sl (applyUpdates data positionS1closed) = Some 90.
Proof.
  intros data r.
  pose proof (@updatePosition_any_status worldS1closed 1%Z data 3000
                positionS1closed eq_refl eq_refl eq_refl)
    as (Hr & _ & Hsl & _).
  split; [reflexivity|]. split; [exact Hr | exact Hsl].
Defined.

(** ** Average R-multiple *)

Lemma isZero_iff x : isZero x = true <-> x == 0.
Proof.
  unfold isZero, Qeq. simpl. rewrite Z.eqb_eq. lia.
Qed.

Lemma isZero_wd x y : x == y -> isZero x = isZero y.
Proof.
  intros H. destruct (isZero x) eqn:Ex, (isZero y) eqn:Ey; try reflexivity.
  - apply isZero_iff in Ex. rewrite H in Ex. apply isZero_iff in Ex. congruence.
  - apply isZero_iff in Ey. rewrite <- H in Ey. apply isZero_iff in Ey.
    congruence.
Qed.

Lemma fold_Qplus_acc (l : list Q) (a : Q) :
  fold_left Qplus l a == a + fold_left Qplus l 0.
Proof.
  revert a. induction l as [|x l IH]; intros a; simpl.
  - ring.
  - rewrite IH, (IH (0 + x)). ring.
Qed.

Lemma sum_cons x l : Stats.sum (x :: l) == x + Stats.sum l.
Proof.
  unfold Stats.sum. simpl. rewrite fold_Qplus_acc. ring.
Qed.

Lemma risk_riskOfSl pos :
  Stats.hasSl pos = true -> Stats.risk pos == riskOfSl pos.
Proof.
  unfold Stats.hasSl, Stats.risk, Stats.slOrZero, riskOfSl, numOrNull.
  destruct (Position.sl pos) as [v|]; [intros _ | discriminate].
  destruct (isZero v) eqn:Ez; [|reflexivity].
  apply isZero_iff in Ez. rewrite Ez. reflexivity.
Qed.

Lemma rMultiple_cases pos :
  Stats.hasSl pos = true ->
  Stats.rMultiple pos
  == if hasNonZeroRisk pos then rMultipleOfSl pos else 0.
Proof.
  intros Hsl. unfold Stats.rMultiple, hasNonZeroRisk. rewrite Hsl. simpl.
  rewrite (isZero_wd (risk_riskOfSl pos Hsl)).
  destruct (isZero (riskOfSl pos)); simpl; [reflexivity|].
  unfold rMultipleOfSl. rewrite (risk_riskOfSl pos Hsl). reflexivity.
Qed.

Lemma sum_rMultiples (closed : list Position.t) :
  Stats.sum (Stats.rMultiples closed)
  == Stats.sum (map rMultipleOfSl (filter hasNonZeroRisk closed)).
Proof.
  unfold Stats.rMultiples.
  induction closed as [|pos l IH]; simpl; [reflexivity|].
  destruct (Stats.hasSl pos) eqn:Hsl.
  - simpl map. rewrite sum_cons, IH, (rMultiple_cases pos Hsl).
    destruct (hasNonZeroRisk pos); simpl map.
    + rewrite sum_cons. reflexivity.
    + ring.
  - assert (Hn : hasNonZeroRisk pos = false).
    { unfold hasNonZeroRisk. rewrite Hsl. reflexivity. }
    rewrite Hn. exact IH.
Qed.

(** C7, amended.  The [avgRMultiple] of [GET /stats] is the sum of
    [(realizedPnl / qty) / |entryPrice - sl|] over the closed positions
    with a non-null [sl] and non-zero risk, divided by the number of closed
    positions with a non-null [sl]: a position with zero risk adds nothing
    to the sum but is counted in the divisor; a position with a null [sl]
    is in neither.  It is [0] when no closed position has an [sl]. *)
Theorem avgRMultiple_counts_zero_risk :
  (forall closedPositions : list Position.t,
      Stats.avgRMultiple closedPositions
      == if (0 <? List.length (filter Stats.hasSl closedPositions))%nat
         then Stats.sum (map rMultipleOfSl
                             (filter hasNonZeroRisk closedPositions))
              / Stats.count (filter Stats.hasSl closedPositions)
         else 0)
  /\ (forall w,
         match fst (Stats.GET w) with
         | Ok stats =>
             Stats.stats_avgRMultiple stats
             = Stats.avgRMultiple (selectPositions (db w) (Some CLOSED))
         | Throw _ => False
         end).
Proof.
  split; [|intros w; reflexivity].
  intros closedPositions. unfold Stats.avgRMultiple.
  assert (Hlen : List.length (Stats.rMultiples closedPositions)
                 = List.length (filter Stats.hasSl closedPositions)).
  { unfold Stats.rMultiples. apply length_map. }
  rewrite Hlen.
  destruct (0 <? List.length (filter Stats.hasSl closedPositions))%nat;
    [|reflexivity].
  unfold Stats.count. rewrite Hlen, sum_rMultiples. reflexivity.
Qed.

(** With one zero-risk position and one position of R-multiple 2, the
    route answers 1 where the mean over the non-zero-risk positions is 2. *)
Lemma avgRMultiple_counterexample :
  Stats.avgRMultiple [closedZeroRisk; closedTwoR] == 1
  /\ avgRMultiple_spec [closedZeroRisk; closedTwoR] == 2
  /\ ~ Stats.avgRMultiple [closedZeroRisk; closedTwoR]
       == avgRMultiple_spec [closedZeroRisk; closedTwoR].
Proof.
  split; [|split]; vm_compute; congruence.
Qed.

(** ** Reconnect backoff *)

Import WsClientOps.

Lemma scheduleReconnect_below c :
  (reconnectAttempts c < maxReconnectAttempts)%nat ->
  let n := S (reconnectAttempts c) in
  reconnectAttempts (scheduleReconnect c) = n
  /\ scheduled (scheduleReconnect c)
     = scheduled c ++ [Z.min 30000 (2 ^ (Z.of_nat n - 1) * 1000)]
  /\ signals (scheduleReconnect c) = signals c.
Proof.
  intros Hlt n. unfold scheduleReconnect.
  destruct (maxReconnectAttempts <=? reconnectAttempts c)%nat eqn:E.
  { apply Nat.leb_le in E. lia. }
  cbn [reconnectAttempts scheduled signals]. split; [reflexivity|].
  split; [|reflexivity]. f_equal. f_equal. unfold reconnectDelay. subst n.
  replace (Z.of_nat (S (reconnectAttempts c) - 1))
    with (Z.of_nat (S (reconnectAttempts c)) - 1)%Z by lia.
  lia.
Qed.

Lemma scheduleReconnect_exhausted c :
  (maxReconnectAttempts <= reconnectAttempts c)%nat ->
  scheduleReconnect c = signal MaxReconnectAttemptsReached c.
Proof.
  intros H. unfold scheduleReconnect.
  apply Nat.leb_le in H. rewrite H. reflexivity.
Qed.

Lemma onOpen_resets c : reconnectAttempts (onOpen c) = O.
Proof.
  unfold onOpen, signal, resubscribeAll, send. cbn.
  destruct (subscribedSymbols c); reflexivity.
Qed.

Lemma onClose_scheduled c :
  isIntentionallyClosed c = false ->
  reconnectAttempts (onClose c) = reconnectAttempts (scheduleReconnect c)
  /\ scheduled (onClose c) = scheduled (scheduleReconnect c).
Proof.
  intros H. unfold onClose. cbn [isIntentionallyClosed]. rewrite H.
  unfold scheduleReconnect. cbn [reconnectAttempts].
  destruct (maxReconnectAttempts <=? reconnectAttempts c)%nat; split; reflexivity.
Qed.

(** C8.  When attempt [n] (from 1 to 10) is scheduled, the attempt counter
    becomes [n] and the delay passed to the timer is
    [min 30000 (2^(n-1) * 1000)] milliseconds; the ['open'] handler resets
    the counter to 0; and when a connection with counter 0 is lost and the
    ten reconnect attempts that follow all fail, the delays scheduled are
    1, 2, 4, 8, 16, 30, 30, 30, 30, 30 seconds, and the failure of the
    tenth schedules nothing further and emits
    [maxReconnectAttemptsReached]. *)
Theorem reconnect_backoff :
  (forall c n,
      (1 <= n <= 10)%nat ->
      reconnectAttempts c = (n - 1)%nat ->
      reconnectAttempts (scheduleReconnect c) = n
      /\ scheduled (scheduleReconnect c)
         = scheduled c ++ [Z.min 30000 (2 ^ (Z.of_nat n - 1) * 1000)]
      /\ signals (scheduleReconnect c) = signals c)
  /\ (forall c, reconnectAttempts (onOpen c) = O)
  /\ (forall c,
         isIntentionallyClosed c = false ->
         reconnectAttempts c = O ->
         let c9 := Nat.iter 9 failedAttempt (onClose c) in
         let c10 := failedAttempt c9 in
         reconnectAttempts c9 = 10%nat
         /\ scheduled c9
            = scheduled c ++ [1000; 2000; 4000; 8000; 16000;
                              30000; 30000; 30000; 30000; 30000]%Z
         /\ signals c9 = signals c ++ repeat Disconnected 10
         /\ reconnectAttempts c10 = 10%nat
         /\ scheduled c10 = scheduled c9
         /\ signals c10
            = signals c9 ++ [MaxReconnectAttemptsReached; Disconnected]).
Proof.
  split; [|split].
  - intros c n Hn Hc.
    assert (Hlt : (reconnectAttempts c < maxReconnectAttempts)%nat)
      by (unfold maxReconnectAttempts; lia).
    pose proof (scheduleReconnect_below c Hlt) as H. cbv zeta in H.
    replace (S (reconnectAttempts c)) with n in H by lia. exact H.
  - apply onOpen_resets.
  - intros c Hint Hc c9 c10. subst c10 c9.
    destruct c as [o subs att int mid snt sch sig]. simpl in Hint, Hc.
    subst att int. cbn.
    repeat rewrite <- app_assoc. repeat split.
Qed.

Lemma reconnect_backoff_witness :
  scheduled (scheduleReconnect
               (mkWs false [] 5 false 1 [] [1000; 2000; 4000; 8000; 16000]%Z
                     []))
  = [1000; 2000; 4000; 8000; 16000; 30000]%Z
  /\ scheduled (Nat.iter 9 failedAttempt (onClose idleWs))
     = [1000; 2000; 4000; 8000; 16000; 30000; 30000; 30000; 30000; 30000]%Z
  /\ signals (failedAttempt (Nat.iter 9 failedAttempt (onClose idleWs)))
     = repeat Disconnected 10 ++ [MaxReconnectAttemptsReached; Disconnected].
Proof.
  destruct reconnect_backoff as (Hdelay & _ & Hgiveup).
  split; [|split].
  - apply (Hdelay (mkWs false [] 5 false 1 []
                        [1000; 2000; 4000; 8000; 16000]%Z []) 6%nat);
      [lia | reflexivity].
  - apply (Hgiveup idleWs); reflexivity.
  - pose proof (Hgiveup idleWs eq_refl eq_refl) as (_ & _ & Hs & _ & _ & H).
    cbv zeta in H. rewrite H, Hs. reflexivity.
Defined.

(** ** Creating a position *)

Lemma insertPosition_cases data entryPrice fee now w side :
  isPositionSide (CreatePositionRequest.side data) = Some side ->
  let row := newPositionRow (db w) data side entryPrice fee now in
  (exists e, insertPosition data entryPrice fee now w = (Throw e, consumed w)
             /\ io w <> [])
  \/ insertPosition data entryPrice fee now w
     = (Ok (Position.id row), set_db (consumed w) (addPosition (db w) row)).
Proof.
  intros Hside row. unfold insertPosition.
  match goal with |- context [run ?s w] =>
    destruct (run_cases s w) as [(e & He & Hio) | (a & d & Hs & He)] end.
  - left. exists e. split; [exact He|]. intros Hn. specialize (Hio Hn).
    rewrite Hside in Hio. discriminate.
  - right. rewrite Hside in Hs. injection Hs as <- <-. exact He.
Qed.

Lemma insertPosition_bad_side data entryPrice fee now w :
  isPositionSide (CreatePositionRequest.side data) = None ->
  exists e, insertPosition data entryPrice fee now w = (Throw e, consumed w).
Proof.
  intros Hside. unfold insertPosition.
  match goal with |- context [run ?s w] =>
    destruct (run_cases s w) as [(e & He & Hio) | (a & d & Hs & He)] end.
  - eauto.
  - rewrite Hside in Hs. discriminate.
Qed.

Lemma hasPosition_addPosition d row :
  hasPosition (addPosition d row) (Position.id row) = true.
Proof.
  unfold hasPosition, addPosition. simpl. rewrite existsb_app. simpl.
  rewrite Z.eqb_refl. apply orb_true_iff. right. reflexivity.
Qed.

Lemma select_addPosition_fresh d row :
  positionIdsBelowSeq d ->
  (seq_positions d < Position.id row)%Z ->
  selectPosition (addPosition d row) (Position.id row) = Some row.
Proof.
  unfold positionIdsBelowSeq, selectPosition, addPosition. simpl.
  intros Hall Hlt. induction (paper_positions d) as [|p l IH]; simpl.
  - rewrite Z.eqb_refl. reflexivity.
  - inversion Hall as [|? ? Hp Hl]; subst.
    assert (E : (Position.id p =? Position.id row)%Z = false)
      by (apply Z.eqb_neq; lia).
    rewrite E. apply IH. exact Hl.
Qed.

Lemma createPosition_outcome data entryPrice fee now w side :
  isPositionSide (CreatePositionRequest.side data) = Some side ->
  let r := createPosition data entryPrice fee now w in
  let stage := createStage (db w) data side entryPrice fee now in
  (exists n, (n <= 2)%nat /\ (exists e, fst r = Throw e)
             /\ db (snd r) = stage n /\ io w <> [])
  \/ (fst r = Ok (selectPosition (stage 3%nat) (seq_positions (db w) + 1))
      /\ db (snd r) = stage 3%nat).
Proof.
  intros Hside r stage. subst r stage.
  unfold createPosition, bind.
  destruct (insertPosition_cases data entryPrice fee now w Hside)
    as [(e & He & Hio) | He]; rewrite He; clear He.
  { left. exists 0%nat. simpl.
    split; [lia|]. split; [eauto|]. split; [reflexivity | exact Hio]. }
  set (row := newPositionRow (db w) data side entryPrice fee now).
  set (w1 := set_db (consumed w) (addPosition (db w) row)).
  assert (Hhas1 : hasPosition (db w1) (Position.id row) = true)
    by apply hasPosition_addPosition.
  destruct (createFill_cases (Position.id row) FillType.OPEN entryPrice
              (deriveQty data entryPrice) fee now w1 Hhas1)
    as [(e & He & Hio) | He]; rewrite He; clear He.
  { left. exists 1%nat. simpl.
    split; [lia|]. split; [eauto|]. split; [reflexivity|].
    intros Hn. apply Hio. subst w1. simpl. rewrite Hn. reflexivity. }
  match goal with |- context [createEvent _ _ _ _ ?w0] => set (w2 := w0) end.
  assert (Hhas2 : hasPosition (db w2) (Position.id row) = true)
    by exact Hhas1.
  destruct (createEvent_cases (Position.id row) POSITION_CREATED
              (PayloadCreated (CreatePositionRequest.entryType data)
                              (CreatePositionRequest.notes data))
              now w2 Hhas2)
    as [(e & He & Hio) | He]; rewrite He; clear He.
  { left. exists 2%nat. simpl.
    split; [lia|]. split; [eauto|]. split; [reflexivity|].
    intros Hn. apply Hio. subst w2 w1. simpl. rewrite Hn. reflexivity. }
  right. split; reflexivity.
Qed.

Lemma createPosition_bad_side data entryPrice fee now w :
  isPositionSide (CreatePositionRequest.side data) = None ->
  let r := createPosition data entryPrice fee now w in
  (exists e, fst r = Throw e) /\ db (snd r) = db w.
Proof.
  intros Hside r. subst r. unfold createPosition, bind.
  destruct (insertPosition_bad_side data entryPrice fee now w Hside)
    as (e & ->).
  simpl. eauto.
Qed.

(** C5, amended.  A call of [createPosition] that returns has persisted
    all three records: the position row with status OPEN, [feesOpen] the
    opening fee and [qty] derived from [sizeMode] ([sizeValue / entryPrice]
    for USDT, [sizeValue] for QTY), one OPEN fill paired with it and one
    POSITION_CREATED event.  A call that fails has persisted nothing when
    its first write failed; the three writes are separate statements, not
    one transaction, so when the second or the third write fails the
    writes already made remain. *)
Theorem createPosition_writes w data entryPrice fee now :
  let r := createPosition data entryPrice fee now w in
  let d := db w in
  match fst r with
  | Ok created =>
      exists side,
        isPositionSide (CreatePositionRequest.side data) = Some side
        /\ let row := newPositionRow d data side entryPrice fee now in
           Position.status row = OPEN
           /\ Position.feesOpen row = fee
           /\ Position.qty row
              = match CreatePositionRequest.sizeMode data with
                | USDT => CreatePositionRequest.sizeValue data / entryPrice
                | QTY => CreatePositionRequest.sizeValue data
                end
           /\ paper_positions (db (snd r)) = paper_positions d ++ [row]
           /\ paper_fills (db (snd r))
              = paper_fills d
                ++ [Fill.mk (seq_fills d + 1) (Position.id row) FillType.OPEN
                            entryPrice (Position.qty row) fee now]
           /\ paper_events (db (snd r))
              = paper_events d
                ++ [Event.mk (seq_events d + 1) (Position.id row)
                      POSITION_CREATED
                      (PayloadCreated (CreatePositionRequest.entryType data)
                                      (CreatePositionRequest.notes data))
                      now]
           /\ (positionIdsBelowSeq d -> created = Some row)
  | Throw _ =>
      db (snd r) = d
      \/ exists side n,
           isPositionSide (CreatePositionRequest.side data) = Some side
           /\ (1 <= n <= 2)%nat
           /\ db (snd r) = createStage d data side entryPrice fee now n
  end.
Proof.
  intros r d. subst r d.
  destruct (isPositionSide (CreatePositionRequest.side data)) as [side|]
    eqn:Hside.
  - pose proof (@createPosition_outcome data entryPrice fee now w side Hside)
      as H.
    cbv zeta in H.
    destruct H as [(n & Hn & (e & He) & Hdb & _) | (Hr & Hdb)].
    + rewrite He. destruct n as [|n].
      * left. exact Hdb.
      * right. exists side, (S n). split; [reflexivity|]. split; [lia|].
        exact Hdb.
    + rewrite Hr, Hdb. exists side. split; [reflexivity|].
      cbv zeta. repeat split.
      intros Hwf. apply (@select_addPosition_fresh (db w)
                           (newPositionRow (db w) data side entryPrice fee now));
        [exact Hwf | simpl; lia].
  - pose proof (@createPosition_bad_side data entryPrice fee now w Hside)
      as [(e & He) Hdb].
    rewrite He. left. exact Hdb.
Qed.

(** The storage layer accepts the INSERT of the position and refuses the
    INSERT of the fill: the call fails and the position row stays, with no
    fill and no event. *)
Lemma createPosition_counterexample :
  let r := createPosition requestS1 100 (4 # 10) 1000
                          worldSecondWriteRefused in
  fst r = Throw SqliteIoError
  /\ paper_positions (db (snd r)) = [positionS1]
  /\ paper_fills (db (snd r)) = []
  /\ paper_events (db (snd r)) = [].
Proof. vm_compute. repeat split. Qed.

Lemma createPosition_writes_witness :
  let r := createPosition requestS1 100 (4 # 10) 1000 freshWorld in
  fst r = Ok (Some positionS1)
  /\ paper_positions (db (snd r)) = [positionS1]
  /\ List.length (paper_fills (db (snd r))) = 1%nat
  /\ List.length (paper_events (db (snd r))) = 1%nat.
Proof.
  intros r.
  pose proof (createPosition_writes freshWorld requestS1 100 (4 # 10) 1000)
    as H.
  cbv zeta in H. fold r in H.
  destruct (fst r) as [created|e] eqn:Hr; [|discriminate].
  destruct H as (side & Hside & _ & _ & _ & Hp & Hf & He & Hc).
  injection Hside as <-.
  split; [f_equal; apply Hc; constructor|].
  split; [exact Hp|]. split; [rewrite Hf | rewrite He]; reflexivity.
Defined.

(** ** The create-position route *)





Lemma side_withSlTp body sl tp :
  CreatePositionRequest.side (withSlTp body sl tp)
  = CreatePositionRequest.side body.
Proof. reflexivity. Qed.






(** A MARKET request on a lower-case symbol is accepted as well: the price
    is fetched for the upper-cased symbol and the row keeps the symbol as
    sent. *)
Example POST_lower_case_symbol :
  isValidSymbolFormat "btcusdt" = false
  /\ exists p,
       fst (POST btcAt100 requestLowerCase 1000 freshWorld) = Ok (Http201 p)
       /\ Position.symbol p = "btcusdt"%string.
Proof.
  split; [reflexivity|]. eexists. vm_compute. repeat split.
Qed.


Example POST_side_buy :
  fst (POST noTicker requestSideBuy 1000 freshWorld)
  = Ok (Http500 SqliteConstraintCheck).
Proof. reflexivity. Qed.

(** ** Percent stops *)

Lemma Qleb_refl x : Qleb x x = true.
Proof. unfold Qleb. apply Qle_bool_iff. apply Qle_refl. Qed.

Lemma Qleb_false_lt x y : x < y -> Qleb y x = false.
Proof.
  intros H. unfold Qleb. destruct (Qle_bool y x) eqn:E; [|reflexivity].
  apply Qle_bool_iff in E. exfalso. apply (Qlt_not_le _ _ H E).
Qed.

Lemma isZero_false x : ~ x == 0 -> isZero x = false.
Proof.
  intros H. destruct (isZero x) eqn:E; [|reflexivity].
  exfalso. apply H. apply isZero_iff. exact E.
Qed.

Lemma side_string body S :
  isPositionSide (CreatePositionRequest.side body) = Some S ->
  String.eqb (CreatePositionRequest.side body) "LONG"
  = match S with LONG => true | SHORT => false end.
Proof.
  unfold isPositionSide.
  destruct (String.eqb (CreatePositionRequest.side body) "LONG").
  - intros [= <-]. reflexivity.
  - destruct (String.eqb (CreatePositionRequest.side body) "SHORT");
      [intros [= <-]; reflexivity | discriminate].
Qed.

Lemma convertSl_percent body S E p :
  isPositionSide (CreatePositionRequest.side body) = Some S ->
  CreatePositionRequest.slMode body = Some PERCENT ->
  CreatePositionRequest.sl body = Some p ->
  0 < p ->
  convertSl body E = Some (slPriceFromPercent S E p).
Proof.
  intros Hside Hmode Hsl Hp. unfold convertSl.
  rewrite Hsl, Hmode, (side_string body Hside). simpl.
  rewrite isZero_false.
  - destruct S; reflexivity.
  - intros H0. rewrite H0 in Hp. apply (Qlt_irrefl 0 Hp).
Qed.

Lemma slPriceFromPercent_nonzero S E p :
  0 < E -> 0 < p -> (S = LONG -> ~ p == 100) ->
  ~ slPriceFromPercent S E p == 0.
Proof.
  intros HE Hp Hne H0. destruct S; simpl in H0.
  - apply Hne; [reflexivity|].
    assert (H1 : E * (1 - p / 100) == 0) by exact H0.
    apply Qmult_integral in H1. destruct H1 as [H1|H1].
    + rewrite H1 in HE. exfalso. apply (Qlt_irrefl 0 HE).
    + assert (Hd : p == 100 * (p / 100)) by field.
      rewrite Hd. set (q := p / 100) in *. lra.
  - assert (Hd : p == 100 * (p / 100)) by field.
    assert (H1 : 0 < E * (1 + p / 100)).
    { apply Qmult_lt_0_compat; [exact HE|].
      rewrite Hd in Hp. set (q := p / 100) in *. lra. }
    rewrite H0 in H1. apply (Qlt_irrefl 0 H1).
Qed.

Lemma shouldTriggerSL_at S P : Calc.shouldTriggerSL S P (Some P) = true.
Proof. destruct S; simpl; apply Qleb_refl. Qed.

Lemma shouldTriggerSL_favorable S m sl :
  (forall P, sl = Some P -> favorable S m P) ->
  Calc.shouldTriggerSL S m sl = false.
Proof.
  intros H. destruct sl as [P|]; [|destruct S; reflexivity].
  specialize (H P eq_refl). destruct S; simpl in *; now apply Qleb_false_lt.
Qed.

(** C4, amended.  For an entry price [E > 0], a side [S] and a percent
    [p > 0], the percent-mode conversion at creation yields
    [P_sl = E * (1 - p/100)] for LONG and [P_sl = E * (1 + p/100)] for
    SHORT, and [shouldTriggerSL S P_sl P_sl] is [true].  Unless [S] is
    LONG and [p = 100], the stop-loss stored at creation is [P_sl], so it
    triggers at [P_sl]; and in every case [shouldTriggerSL] of the stored
    value is [false] at every mark price strictly on the favorable side of
    [P_sl] (above it for LONG, below it for SHORT). *)
Theorem percent_stop_round_trip d body S E p fee now :
  0 < E -> 0 < p ->
  isPositionSide (CreatePositionRequest.side body) = Some S ->
  CreatePositionRequest.slMode body = Some PERCENT ->
  CreatePositionRequest.sl body = Some p ->
  let P_sl := slPriceFromPercent S E p in
  let stored := storedSl d body S E fee now in
  convertSl body E = Some P_sl
  /\ Calc.shouldTriggerSL S P_sl (Some P_sl) = true
  /\ ((S = LONG -> ~ p == 100) ->
      stored = Some P_sl /\ Calc.shouldTriggerSL S P_sl stored = true)
  /\ (forall markPrice,
         favorable S markPrice P_sl ->
         Calc.shouldTriggerSL S markPrice stored = false).
Proof.
  intros HE Hp Hside Hmode Hsl P_sl stored.
  split; [exact (convertSl_percent body E Hside Hmode Hsl Hp)|].
  split; [apply shouldTriggerSL_at|].
  assert (Hst : stored = numOrNull (Some P_sl)).
  { subst stored P_sl. unfold storedSl, newPositionRow.
    cbn [Position.sl withSlTp CreatePositionRequest.sl].
    rewrite (convertSl_percent body E Hside Hmode Hsl Hp). reflexivity. }
  clearbody stored. subst stored. subst P_sl.
  split.
  - intros Hne. simpl.
    rewrite (isZero_false (slPriceFromPercent_nonzero HE Hp Hne)).
    split; [reflexivity | apply shouldTriggerSL_at].
  - intros m Hm. apply shouldTriggerSL_favorable. intros P HP.
    simpl in HP.
    destruct (isZero (slPriceFromPercent S E p)); [discriminate|].
    injection HP as <-. exact Hm.
Qed.

(** A LONG stop of 100 percent converts to the price 0, which the store
    records as no stop at all: nothing triggers at that price. *)
Lemma percent_stop_counterexample :
  let P_sl := slPriceFromPercent LONG 100 100 in
  convertSl requestStop100 100 = Some P_sl
  /\ storedSl emptyDb requestStop100 LONG 100 (4 # 100) 1000 = None
  /\ Calc.shouldTriggerSL LONG P_sl
       (storedSl emptyDb requestStop100 LONG 100 (4 # 100) 1000) = false.
Proof. vm_compute. repeat split. Qed.

Lemma percent_stop_round_trip_witness :
  let stored := storedSl emptyDb requestS1percent LONG 100 (4 # 10) 1000 in
  stored = Some (slPriceFromPercent LONG 100 5)
  /\ Calc.shouldTriggerSL LONG (slPriceFromPercent LONG 100 5) stored = true
  /\ Calc.shouldTriggerSL LONG 96 stored = false.
Proof.
  intros stored.
  assert (H100 : 0 < 100) by reflexivity.
  assert (H5 : 0 < 5) by reflexivity.
  destruct (@percent_stop_round_trip emptyDb requestS1percent LONG 100 5
              (4 # 10) 1000%Z H100 H5 eq_refl eq_refl eq_refl)
    as (_ & _ & Hat & Hfav).
  destruct Hat as [Hs Ht]; [intros _ H; discriminate H|].
  split; [exact Hs|]. split; [exact Ht|].
  apply Hfav. reflexivity.
Defined.

(** ** The trigger engine *)

(** Scenario S3: at the mark price 94 both predicates hold; the position
    is closed by the stop, one [triggerExecuted] is emitted and the symbol
    is unsubscribed. *)
Example tick_S3 :
  let w' :=
    snd (TriggerEngine.handlePriceUpdate "BTCUSDT" 94 5000 2000 worldS3) in
  map Event.event (eventsOf (db w') 1) = [POSITION_CREATED; SL_TRIGGERED]
  /\ emitted w'
     = [TriggerExecuted 1 CloseSL 94
          (realizedPnlOf positionS3 94 (triggerFee (db worldS3) positionS3 94));
        PriceUpdate "BTCUSDT" 94 5000]
  /\ subscribedSymbols (ws w') = [].
Proof. vm_compute. repeat split. Qed.

(** *** Refusals are only ever consumed *)

Lemma keepsQuiet_ret A (a : A) : keepsQuiet (ret a).
Proof. intros w H. exact H. Qed.

Lemma keepsQuiet_gets A (f : World -> A) : keepsQuiet (gets f).
Proof. intros w H. exact H. Qed.

Lemma keepsQuiet_bind A B (c : M A) (k : A -> M B) :
  keepsQuiet c -> (forall a, keepsQuiet (k a)) -> keepsQuiet (bind c k).
Proof.
  intros Hc Hk w H. unfold bind. specialize (Hc w H).
  destruct (c w) as [[a|e] w1]; simpl in *; [apply Hk; exact Hc | exact Hc].
Qed.

Lemma keepsQuiet_tryCatch A (c : M A) (h : Error -> M A) :
  keepsQuiet c -> (forall e, keepsQuiet (h e)) -> keepsQuiet (tryCatch c h).
Proof.
  intros Hc Hh w H. unfold tryCatch. specialize (Hc w H).
  destruct (c w) as [[a|e] w1]; simpl in *; [exact Hc | apply Hh; exact Hc].
Qed.

Lemma keepsQuiet_run A (s : Db -> Res (A * Db)) : keepsQuiet (run s).
Proof.
  intros w H. unfold run. rewrite H. simpl.
  destruct (s (db w)) as [[a d]|e]; reflexivity.
Qed.

Lemma keepsQuiet_modify (f : World -> World) :
  (forall w, io (f w) = io w) -> keepsQuiet (modify f).
Proof. intros Hf w H. simpl. rewrite Hf. exact H. Qed.

Create HintDb quiet.
#[local] Hint Resolve keepsQuiet_ret keepsQuiet_gets keepsQuiet_run
  keepsQuiet_bind keepsQuiet_tryCatch : quiet.

Lemma keepsQuiet_closePosition id cp fee ev now :
  keepsQuiet (closePosition id cp fee ev now).
Proof.
  unfold closePosition, getPositionById, updateWhereId, createFill,
    createEvent.
  apply keepsQuiet_bind; [auto with quiet|]. intros [p|]; [|auto with quiet].
  destruct (Position.status p); auto 8 with quiet.
Qed.

Lemma keepsQuiet_executeTrigger id mark ev now :
  keepsQuiet (TriggerEngine.executeTrigger id mark ev now).
Proof.
  unfold TriggerEngine.executeTrigger.
  apply keepsQuiet_tryCatch; [|intros; apply keepsQuiet_ret].
  apply keepsQuiet_bind; [apply keepsQuiet_gets | intros l].
  destruct (find _ l) as [position|]; [|apply keepsQuiet_ret].
  apply keepsQuiet_bind.
  { apply keepsQuiet_bind; [apply keepsQuiet_gets|]. intros; apply keepsQuiet_ret. }
  intros fee. apply keepsQuiet_bind; [apply keepsQuiet_closePosition|].
  intros [closed|]; [|apply keepsQuiet_ret].
  apply keepsQuiet_bind; [apply keepsQuiet_modify; reflexivity|]. intros _.
  apply keepsQuiet_bind; [apply keepsQuiet_gets|]. intros l'.
  destruct (List.length _ =? 0)%nat; [|apply keepsQuiet_ret].
  apply keepsQuiet_modify. reflexivity.
Qed.

Lemma keepsQuiet_forEachPosition positions mark now :
  keepsQuiet (TriggerEngine.forEachPosition positions mark now).
Proof.
  induction positions as [|q rest IH]; simpl; [apply keepsQuiet_ret|].
  destruct (Calc.shouldTriggerSL _ _ _).
  { apply keepsQuiet_bind; [apply keepsQuiet_executeTrigger | intros; exact IH]. }
  destruct (Calc.shouldTriggerTP _ _ _); [|exact IH].
  apply keepsQuiet_bind; [apply keepsQuiet_executeTrigger | intros; exact IH].
Qed.

(** *** Ordering and keys *)

Lemma insertByEntryTime_perm p l :
  Permutation (insertByEntryTime p l) (p :: l).
Proof.
  induction l as [|q l IH]; simpl; [reflexivity|].
  destruct (Position.entryTime q <=? Position.entryTime p)%Z; [reflexivity|].
  rewrite IH. apply perm_swap.
Qed.

Lemma orderByEntryTimeDesc_perm l : Permutation (orderByEntryTimeDesc l) l.
Proof.
  induction l as [|p l IH]; simpl; [reflexivity|].
  rewrite insertByEntryTime_perm. now constructor.
Qed.

Lemma NoDup_map_filter A B (f : A -> B) (g : A -> bool) l :
  NoDup (map f l) -> NoDup (map f (filter g l)).
Proof.
  induction l as [|x l IH]; simpl; intros H; [constructor|].
  inversion H as [|? ? Hx Hl]; subst.
  destruct (g x); simpl; [|apply IH; exact Hl].
  constructor; [|apply IH; exact Hl].
  intros Hin. apply Hx. apply in_map_iff in Hin.
  destruct Hin as (y & Hy & Hin). apply filter_In in Hin.
  apply in_map_iff. exists y. tauto.
Qed.

Lemma unique_id_eq (l : list Position.t) x y :
  NoDup (map Position.id l) -> In x l -> In y l ->
  Position.id x = Position.id y -> x = y.
Proof.
  induction l as [|z l IH]; simpl; intros Hnd Hx Hy Hid; [contradiction|].
  inversion Hnd as [|? ? Hz Hl]; subst.
  destruct Hx as [-> | Hx], Hy as [-> | Hy].
  - reflexivity.
  - exfalso. apply Hz. rewrite Hid. now apply in_map.
  - exfalso. apply Hz. rewrite <- Hid. now apply in_map.
  - now apply IH.
Qed.

Lemma In_selectOpen d p :
  In p (selectPositions d (Some OPEN))
  <-> In p (paper_positions d) /\ Position.status p = OPEN.
Proof.
  unfold selectPositions.
  assert (Hperm := orderByEntryTimeDesc_perm
                     (filter (fun q => statusEqb (Position.status q) OPEN)
                             (paper_positions d))).
  split.
  - intros H. apply (Permutation_in _ Hperm) in H.
    apply filter_In in H. destruct H as [Hin Hs]. split; [exact Hin|].
    destruct (Position.status p); [reflexivity | discriminate].
  - intros [Hin Hs]. apply (Permutation_in _ (Permutation_sym Hperm)).
    apply filter_In. split; [exact Hin|]. rewrite Hs. reflexivity.
Qed.

Lemma uniqueIds_selectOpen d :
  uniqueIds d -> NoDup (map Position.id (selectPositions d (Some OPEN))).
Proof.
  unfold uniqueIds, selectPositions. intros H.
  eapply Permutation_NoDup.
  - apply Permutation_map. symmetry. apply orderByEntryTimeDesc_perm.
  - apply NoDup_map_filter. exact H.
Qed.

Lemma select_unique d p :
  uniqueIds d -> In p (paper_positions d) ->
  selectPosition d (Position.id p) = Some p.
Proof.
  intros Hu Hin. unfold selectPosition.
  destruct (find _ (paper_positions d)) as [x|] eqn:E.
  - apply find_id_sound in E. destruct E as [Hx Hid].
    f_equal. exact (@unique_id_eq _ x p Hu Hx Hin Hid).
  - exfalso. apply (find_none _ _ E) in Hin. simpl in Hin.
    rewrite Z.eqb_refl in Hin. discriminate.
Qed.

Lemma find_open_unique d p :
  uniqueIds d ->
  selectPosition d (Position.id p) = Some p ->
  Position.status p = OPEN ->
  find (fun q => (Position.id q =? Position.id p)%Z)
       (selectPositions d (Some OPEN)) = Some p.
Proof.
  intros Hu Hsel Hs.
  pose proof (find_id_sound _ _ Hsel) as [Hin _].
  assert (Hopen : In p (selectPositions d (Some OPEN)))
    by (apply In_selectOpen; tauto).
  destruct (find _ (selectPositions d (Some OPEN))) as [x|] eqn:E.
  - apply find_id_sound in E. destruct E as [Hx Hid].
    f_equal.
    exact (@unique_id_eq _ x p (@uniqueIds_selectOpen d Hu) Hx Hopen Hid).
  - exfalso. apply (find_none _ _ E) in Hopen. simpl in Hopen.
    rewrite Z.eqb_refl in Hopen. discriminate.
Qed.

(** *** What one trigger does to the store *)

Lemma positions_closeStage_ids d p cp fee ev now n :
  map Position.id (paper_positions (closeStage d p cp fee ev now n))
  = map Position.id (paper_positions d).
Proof.
  assert (E : map Position.id
                (paper_positions
                   (afterUpdate d (Position.id p)
                      (markClosed cp now (realizedPnlOf p cp fee) fee)))
              = map Position.id (paper_positions d)).
  { unfold afterUpdate. simpl. apply map_id_updateRow.
    apply keepsId_markClosed. }
  destruct n as [|[|[|n]]]; [reflexivity | exact E ..].
Qed.

Lemma select_closeStage_other d p cp fee ev now n id :
  id <> Position.id p ->
  selectPosition (closeStage d p cp fee ev now n) id = selectPosition d id.
Proof.
  intros Hne.
  assert (E : selectPosition
                (afterUpdate d (Position.id p)
                   (markClosed cp now (realizedPnlOf p cp fee) fee)) id
              = selectPosition d id).
  { unfold selectPosition, afterUpdate. simpl.
    apply find_updateRow_other; [apply keepsId_markClosed | exact Hne]. }
  destruct n as [|[|[|n]]]; [reflexivity | exact E ..].
Qed.

Lemma eventsOf_closeStage d p cp fee ev now n id :
  eventsOf (closeStage d p cp fee ev now n) id
  = eventsOf d id
    ++ (if ((3 <=? n)%nat && (Position.id p =? id)%Z)%bool
        then [closeEventRow d p cp fee ev now] else []).
Proof.
  unfold eventsOf. rewrite events_closeStage, filter_app.
  destruct (3 <=? n)%nat; simpl; [|reflexivity].
  destruct (Position.id p =? id)%Z; reflexivity.
Qed.

Lemma executeTrigger_eq id mark ev now w :
  TriggerEngine.executeTrigger id mark ev now w
  = match find (fun p => (Position.id p =? id)%Z)
               (selectPositions (db w) (Some OPEN)) with
    | None => (Ok tt, w)
    | Some position =>
        match closePosition id mark (triggerFee (db w) position mark)
                            ev now w with
        | (Ok (Some closed), w1) =>
            let w2 :=
              emit (TriggerExecuted id ev mark (Position.realizedPnl closed))
                   w1 in
            (Ok tt,
             if (List.length
                   (filter (fun p => String.eqb (Position.symbol p)
                                                (Position.symbol position))
                           (selectPositions (db w2) (Some OPEN))) =? 0)%nat
             then set_ws w2 (WsClientOps.unsubscribe
                               (Position.symbol position) (ws w2))
             else w2)
        | (_, w1) => (Ok tt, w1)
        end
    end.
Proof.
  cbv beta zeta delta
      [TriggerEngine.executeTrigger tryCatch bind getAllOpenPositions
       getPositions gets Calc.calculateTakerFee getSettings ret modify
       TriggerEngine.unsubscribeFromSymbol triggerFee].
  cbv iota beta zeta.
  destruct (find _ (selectPositions (db w) (Some OPEN))) as [position|];
    [|reflexivity].
  cbv iota beta zeta.
  destruct (closePosition id mark _ ev now w) as [[[closed|]|e] w1];
    try reflexivity.
  cbv iota beta zeta.
  destruct (List.length _ =? 0)%nat; reflexivity.
Qed.

(** The store after [executeTrigger]: untouched, or one of the stages of
    closing the row that is stored under the id. *)
Lemma executeTrigger_db id mark ev now w :
  let w' := snd (TriggerEngine.executeTrigger id mark ev now w) in
  fst (TriggerEngine.executeTrigger id mark ev now w) = Ok tt
  /\ (db w' = db w
      \/ exists p fee n,
           selectPosition (db w) id = Some p
           /\ Position.status p = OPEN
           /\ db w' = closeStage (db w) p mark fee ev now n).
Proof.
  intros w'. subst w'. rewrite executeTrigger_eq.
  destruct (find _ (selectPositions (db w) (Some OPEN))) as [position|];
    [|split; [reflexivity | left; reflexivity]].
  set (fee := triggerFee (db w) position mark).
  destruct (selectPosition (db w) id) as [p|] eqn:Hsel.
  2:{ rewrite (@closePosition_noop_absent id mark fee ev now w Hsel).
      split; [reflexivity | left; reflexivity]. }
  destruct (Position.status p) eqn:Hs.
  2:{ rewrite (@closePosition_noop_closed id mark fee ev now w p Hsel Hs).
      split; [reflexivity | left; reflexivity]. }
  pose proof (@closePosition_open id mark fee ev now w p Hsel Hs) as Hc.
  cbv zeta in Hc.
  destruct (closePosition id mark fee ev now w) as [r w1].
  cbn [fst snd] in Hc.
  destruct Hc as [(n & _ & (e & ->) & Hdb & _) | (-> & Hdb)].
  - split; [reflexivity|]. right. exists p, fee, n.
    split; [reflexivity|]. split; [exact Hs | exact Hdb].
  - split; [reflexivity|]. right. exists p, fee, 3%nat.
    split; [reflexivity|]. split; [exact Hs|].
    rewrite <- Hdb. cbv zeta.
    destruct (List.length _ =? 0)%nat; reflexivity.
Qed.

Lemma executeTrigger_target mark ev now w p :
  uniqueIds (db w) ->
  selectPosition (db w) (Position.id p) = Some p ->
  Position.status p = OPEN ->
  let w' := snd (TriggerEngine.executeTrigger (Position.id p) mark ev now w) in
  let fee := triggerFee (db w) p mark in
  exists n, db w' = closeStage (db w) p mark fee ev now n
            /\ (io w = [] -> n = 3%nat).
Proof.
  intros Hu Hsel Hs w' fee. subst w'.
  rewrite executeTrigger_eq, (find_open_unique Hu Hsel Hs). fold fee.
  pose proof (@closePosition_open (Position.id p) mark fee ev now w p Hsel Hs)
    as Hc.
  cbv zeta in Hc.
  destruct (closePosition (Position.id p) mark fee ev now w) as [r w1].
  cbn [fst snd] in Hc.
  destruct Hc as [(n & _ & (e & ->) & Hdb & Hio) | (-> & Hdb)].
  - exists n. split; [exact Hdb | intros Hn; contradiction].
  - exists 3%nat. split; [|reflexivity]. rewrite <- Hdb. cbv zeta.
    destruct (List.length _ =? 0)%nat; reflexivity.
Qed.

(** *** The loop over the positions of a symbol *)

Lemma forEachPosition_cons q rest mark now w :
  TriggerEngine.forEachPosition (q :: rest) mark now w
  = TriggerEngine.forEachPosition rest mark now (afterPosition q mark now w).
Proof.
  simpl. unfold afterPosition.
  destruct (Calc.shouldTriggerSL _ _ _).
  { unfold bind.
    destruct (executeTrigger_db (Position.id q) mark CloseSL now w) as [H _].
    destruct (TriggerEngine.executeTrigger _ _ _ _ w) as [r w1].
    simpl in H. subst r. reflexivity. }
  destruct (Calc.shouldTriggerTP _ _ _); [|reflexivity].
  unfold bind.
  destruct (executeTrigger_db (Position.id q) mark CloseTP now w) as [H _].
  destruct (TriggerEngine.executeTrigger _ _ _ _ w) as [r w1].
  simpl in H. subst r. reflexivity.
Qed.

Lemma executeTrigger_frame id mark ev now w T :
  id <> T ->
  let w' := snd (TriggerEngine.executeTrigger id mark ev now w) in
  selectPosition (db w') T = selectPosition (db w) T
  /\ eventsOf (db w') T = eventsOf (db w) T.
Proof.
  intros Hne w'. subst w'.
  destruct (executeTrigger_db id mark ev now w)
    as [_ [-> | (p & fee & n & Hsel & _ & ->)]]; [split; reflexivity|].
  apply find_id_sound in Hsel. destruct Hsel as [_ Hid].
  split.
  - apply select_closeStage_other. congruence.
  - rewrite eventsOf_closeStage.
    assert (E : (Position.id p =? T)%Z = false)
      by (apply Z.eqb_neq; congruence).
    rewrite E, andb_false_r, app_nil_r. reflexivity.
Qed.

Lemma executeTrigger_uniqueIds id mark ev now w :
  uniqueIds (db w) ->
  uniqueIds (db (snd (TriggerEngine.executeTrigger id mark ev now w))).
Proof.
  intros Hu.
  destruct (executeTrigger_db id mark ev now w)
    as [_ [-> | (p & fee & n & _ & _ & ->)]]; [exact Hu|].
  unfold uniqueIds. rewrite positions_closeStage_ids. exact Hu.
Qed.

Lemma afterPosition_frame q mark now w T :
  Position.id q <> T ->
  selectPosition (db (afterPosition q mark now w)) T = selectPosition (db w) T
  /\ eventsOf (db (afterPosition q mark now w)) T = eventsOf (db w) T.
Proof.
  intros Hne. unfold afterPosition.
  destruct (Calc.shouldTriggerSL _ _ _);
    [apply executeTrigger_frame; exact Hne|].
  destruct (Calc.shouldTriggerTP _ _ _);
    [apply executeTrigger_frame; exact Hne | split; reflexivity].
Qed.

Lemma afterPosition_uniqueIds q mark now w :
  uniqueIds (db w) -> uniqueIds (db (afterPosition q mark now w)).
Proof.
  intros Hu. unfold afterPosition.
  destruct (Calc.shouldTriggerSL _ _ _);
    [apply executeTrigger_uniqueIds; exact Hu|].
  destruct (Calc.shouldTriggerTP _ _ _);
    [apply executeTrigger_uniqueIds; exact Hu | exact Hu].
Qed.

Lemma afterPosition_quiet q mark now w :
  io w = [] -> io (afterPosition q mark now w) = [].
Proof.
  intros H. unfold afterPosition.
  destruct (Calc.shouldTriggerSL _ _ _);
    [apply keepsQuiet_executeTrigger; exact H|].
  destruct (Calc.shouldTriggerTP _ _ _);
    [apply keepsQuiet_executeTrigger; exact H | exact H].
Qed.

Lemma forEachPosition_frame T positions mark now :
  ~ In T (map Position.id positions) ->
  forall w,
    let w' := snd (TriggerEngine.forEachPosition positions mark now w) in
    selectPosition (db w') T = selectPosition (db w) T
    /\ eventsOf (db w') T = eventsOf (db w) T.
Proof.
  induction positions as [|q rest IH]; intros Hnot w; [split; reflexivity|].
  cbv zeta. rewrite forEachPosition_cons.
  simpl in Hnot.
  destruct (IH (fun H => Hnot (or_intror H)) (afterPosition q mark now w))
    as [Hs He].
  destruct (@afterPosition_frame q mark now w T
              (fun H => Hnot (or_introl H))) as [Hs1 He1].
  split; congruence.
Qed.

Lemma forEachPosition_stop positions mark now p :
  NoDup (map Position.id positions) ->
  In p positions ->
  Calc.shouldTriggerSL (Position.side p) mark (Position.sl p) = true ->
  forall w,
    uniqueIds (db w) ->
    selectPosition (db w) (Position.id p) = Some p ->
    Position.status p = OPEN ->
    let w' := snd (TriggerEngine.forEachPosition positions mark now w) in
    exists n ev,
      Event.event ev = SL_TRIGGERED
      /\ eventsOf (db w') (Position.id p)
         = eventsOf (db w) (Position.id p)
           ++ (if (3 <=? n)%nat then [ev] else [])
      /\ (io w = [] ->
          n = 3%nat
          /\ selectPosition (db w') (Position.id p)
             = Some (closedRow p mark (triggerFee (db w) p mark) now)).
Proof.
  induction positions as [|q rest IH]; intros Hnd Hin Hsl w Hu Hsel Hs;
    [contradiction|].
  cbv zeta. rewrite forEachPosition_cons.
  simpl in Hnd. inversion Hnd as [|? ? Hq Hrest]; subst.
  destruct (Z.eq_dec (Position.id q) (Position.id p)) as [Heq|Hne].
  - assert (q = p).
    { destruct Hin as [Hin|Hin]; [exact Hin|].
      exfalso. apply Hq. rewrite Heq. now apply in_map. }
    subst q. clear Hin Heq.
    unfold afterPosition. rewrite Hsl.
    destruct (@executeTrigger_target mark CloseSL now w p Hu Hsel Hs)
      as (n & Hdb & Hquiet).
    destruct (@forEachPosition_frame (Position.id p) rest mark now Hq
                (snd (TriggerEngine.executeTrigger (Position.id p) mark
                        CloseSL now w))) as [Hs1 He1].
    exists n, (closeEventRow (db w) p mark (triggerFee (db w) p mark)
                             CloseSL now).
    split; [reflexivity|]. split.
    + rewrite He1, Hdb, eventsOf_closeStage, Z.eqb_refl, andb_true_r.
      reflexivity.
    + intros Hio. split; [apply Hquiet; exact Hio|].
      rewrite Hs1, Hdb. apply select_closeStage; [exact Hsel|].
      rewrite (Hquiet Hio). lia.
  - assert (Hin' : In p rest).
    { destruct Hin as [->|Hin]; [contradiction | exact Hin]. }
    destruct (@afterPosition_frame q mark now w (Position.id p) Hne)
      as [Hs1 He1].
    assert (Hset : settings (db (afterPosition q mark now w))
                   = settings (db w)).
    { unfold afterPosition.
      destruct (Calc.shouldTriggerSL (Position.side q) mark (Position.sl q)).
      - destruct (executeTrigger_db (Position.id q) mark CloseSL now w)
          as [_ [-> | (p0 & fee & n & _ & _ & ->)]]; [reflexivity|].
        destruct n as [|[|[|n]]]; reflexivity.
      - destruct (Calc.shouldTriggerTP (Position.side q) mark
                                       (Position.tp q)); [|reflexivity].
        destruct (executeTrigger_db (Position.id q) mark CloseTP now w)
          as [_ [-> | (p0 & fee & n & _ & _ & ->)]]; [reflexivity|].
        destruct n as [|[|[|n]]]; reflexivity. }
    destruct (IH Hrest Hin' Hsl (afterPosition q mark now w)
                 (@afterPosition_uniqueIds q mark now w Hu)
                 (eq_trans Hs1 Hsel) Hs) as (n & ev & Hev & He & Hquiet).
    exists n, ev. split; [exact Hev|]. split.
    + rewrite He, He1. reflexivity.
    + intros Hio.
      destruct (Hquiet (@afterPosition_quiet q mark now w Hio)) as [Hn Hc].
      split; [exact Hn|]. rewrite Hc. unfold triggerFee. rewrite Hset.
      reflexivity.
Qed.

Lemma checkTriggersForSymbol_world symbol mark now w :
  snd (TriggerEngine.checkTriggersForSymbol symbol mark now w)
  = snd (TriggerEngine.forEachPosition
           (TriggerEngine.positionsOfSymbol symbol
              (selectPositions (db w) (Some OPEN)))
           mark now w).
Proof.
  unfold TriggerEngine.checkTriggersForSymbol, tryCatch, bind,
    getAllOpenPositions, getPositions, gets.
  destruct (TriggerEngine.forEachPosition _ mark now w) as [[u|e] w1];
    reflexivity.
Qed.

Lemma checkTriggers_stop_first symbol markPrice now w p :
  uniqueIds (db w) ->
  In p (paper_positions (db w)) ->
  Position.status p = OPEN ->
  Position.symbol p = symbol ->
  Calc.shouldTriggerSL (Position.side p) markPrice (Position.sl p) = true ->
  Calc.shouldTriggerTP (Position.side p) markPrice (Position.tp p) = true ->
  let w' := snd (TriggerEngine.checkTriggersForSymbol symbol markPrice now w) in
  (forall rest w0,
      TriggerEngine.forEachPosition (p :: rest) markPrice now w0
      = TriggerEngine.forEachPosition rest markPrice now
          (snd (TriggerEngine.executeTrigger (Position.id p) markPrice
                                             CloseSL now w0)))
  /\ (exists evs,
         eventsOf (db w') (Position.id p)
         = eventsOf (db w) (Position.id p) ++ evs
         /\ atMostOneStop evs)
  /\ (io w = [] ->
      exists ev p',
        eventsOf (db w') (Position.id p)
        = eventsOf (db w) (Position.id p) ++ [ev]
        /\ Event.event ev = SL_TRIGGERED
        /\ selectPosition (db w') (Position.id p) = Some p'
        /\ Position.status p' = CLOSED
        /\ Position.closePrice p' = Some markPrice).
Proof.
  intros Hu Hin Hs Hsym Hsl Htp w'. subst w'.
  split.
  { intros rest w0. rewrite forEachPosition_cons. unfold afterPosition.
    rewrite Hsl. reflexivity. }
  rewrite checkTriggersForSymbol_world.
  set (positions := TriggerEngine.positionsOfSymbol symbol
                      (selectPositions (db w) (Some OPEN))).
  assert (Hnd : NoDup (map Position.id positions)).
  { apply NoDup_map_filter. apply uniqueIds_selectOpen. exact Hu. }
  assert (Hp : In p positions).
  { apply filter_In. split; [apply In_selectOpen; tauto|].
    rewrite Hsym. apply String.eqb_refl. }
  destruct (@forEachPosition_stop positions markPrice now p Hnd Hp Hsl w Hu
              (@select_unique (db w) p Hu Hin) Hs)
    as (n & ev & Hev & He & Hquiet).
  split.
  - eexists. split; [exact He|].
    destruct (3 <=? n)%nat; [right; eauto | left; reflexivity].
  - intros Hio. destruct (Hquiet Hio) as [-> Hc].
    exists ev. eexists. split; [exact He|]. split; [exact Hev|].
    split; [exact Hc|]. split; reflexivity.
Qed.


(** C3.  On a tick for a symbol, for every stored OPEN position [p] on that
    symbol for which both [shouldTriggerSL] and [shouldTriggerTP] hold at
    the mark price: the loop's turn for [p] is the stop-loss trigger
    followed by the rest of the loop (the take-profit branch is not
    reached); whatever the storage layer refuses, the tick adds to the
    events of [p] nothing or exactly one event, SL_TRIGGERED, never
    TP_TRIGGERED; and when no write is refused the tick leaves [p] CLOSED
    at the mark price with exactly one new event, SL_TRIGGERED. *)
Theorem stop_loss_takes_priority symbol markPrice now w p :
  uniqueIds (db w) ->
  In p (paper_positions (db w)) ->
  Position.status p = OPEN ->
  Position.symbol p = symbol ->
  Calc.shouldTriggerSL (Position.side p) markPrice (Position.sl p) = true ->
  Calc.shouldTriggerTP (Position.side p) markPrice (Position.tp p) = true ->
  let w' := snd (TriggerEngine.checkTriggersForSymbol symbol markPrice now w) in
  (forall rest w0,
      TriggerEngine.forEachPosition (p :: rest) markPrice now w0
      = TriggerEngine.forEachPosition rest markPrice now
          (snd (TriggerEngine.executeTrigger (Position.id p) markPrice
                                             CloseSL now w0)))
  /\ (exists evs,
         eventsOf (db w') (Position.id p)
         = eventsOf (db w) (Position.id p) ++ evs
         /\ atMostOneStop evs)
  /\ (io w = [] ->
      exists ev p',
        eventsOf (db w') (Position.id p)
        = eventsOf (db w) (Position.id p) ++ [ev]
        /\ Event.event ev = SL_TRIGGERED
        /\ selectPosition (db w') (Position.id p) = Some p'
        /\ Position.status p' = CLOSED
        /\ Position.closePrice p' = Some markPrice).
Proof. exact (@checkTriggers_stop_first symbol markPrice now w p). Qed.

Lemma stop_loss_takes_priority_witness :
  let w' := snd (TriggerEngine.checkTriggersForSymbol "BTCUSDT" 94 2000
                   worldS3) in
  Calc.shouldTriggerSL LONG 94 (Some 95) = true
  /\ Calc.shouldTriggerTP LONG 94 (Some 94) = true
  /\ exists ev p',
       eventsOf (db w') 1 = eventsOf (db worldS3) 1 ++ [ev]
       /\ Event.event ev = SL_TRIGGERED
       /\ selectPosition (db w') 1 = Some p'
       /\ Position.status p' = CLOSED
       /\ Position.closePrice p' = Some 94.
Proof.
  intros w'. split; [reflexivity|]. split; [reflexivity|].
  assert (Hu : uniqueIds (db worldS3)).
  { unfold uniqueIds. simpl. constructor; [intros []|constructor]. }
  destruct (@stop_loss_takes_priority "BTCUSDT" 94 2000%Z worldS3 positionS3
              Hu (or_introl eq_refl) eq_refl eq_refl eq_refl eq_refl)
    as (_ & _ & H).
  exact (H eq_refl).
Defined.

(** ** Scenarios of the specification *)

(** S1: 1000 USDT LONG at 100 with stops of 5 and 10 percent; the ticks
    101, 105, 110 close it on the take-profit at 110. *)
Example scenario_S1 :
  match selectPosition (db worldS1posted) 1,
        selectPosition (db worldS1ticks) 1 with
  | Some p, Some p' =>
      Position.qty p == 10 /\ Qeqb_opt (Position.sl p) 95 = true
      /\ Qeqb_opt (Position.tp p) 110 = true
      /\ Position.feesOpen p == 4 # 10
      /\ Position.status p' = CLOSED
      /\ Position.closePrice p' = Some 110
      /\ Position.feesClose p' == 44 # 100
      /\ Position.realizedPnl p' == 9916 # 100
  | _, _ => False
  end
  /\ map Event.event (paper_events (db worldS1ticks))
     = [POSITION_CREATED; TP_TRIGGERED]
  /\ subscribedSymbols (ws worldS1posted) = ["btcusdt"%string]
  /\ subscribedSymbols (ws worldS1ticks) = [].
Proof. vm_compute. repeat split; congruence. Qed.

(** S2: SHORT 2 units at the limit price 50 with sl = 52; the ticks 51, 52
    stop it out at 52. *)
Example scenario_S2 :
  match selectPosition (db worldS2ticks) 1 with
  | Some p' =>
      Position.feesOpen p' == 4 # 100
      /\ Position.status p' = CLOSED
      /\ Position.closePrice p' = Some 52
      /\ Position.feesClose p' == 416 # 10000
      /\ Position.realizedPnl p' == - (40816 # 10000)
  | None => False
  end
  /\ map Event.event (paper_events (db worldS2ticks))
     = [POSITION_CREATED; SL_TRIGGERED].
Proof. vm_compute. repeat split; congruence. Qed.

(** ** Ticks *)

Lemma handlePriceUpdate_world symbol mark ts now w :
  snd (TriggerEngine.handlePriceUpdate symbol mark ts now w)
  = emit (PriceUpdate symbol mark ts)
         (snd (TriggerEngine.checkTriggersForSymbol (toUpperCase symbol) mark
                 now
                 (set_priceCache w
                    (TriggerEngine.cacheSet (toUpperCase symbol) mark
                                            (priceCache w))))).
Proof.
  unfold TriggerEngine.handlePriceUpdate, bind, modify.
  set (w0 := set_priceCache w _).
  assert (H : fst (TriggerEngine.checkTriggersForSymbol (toUpperCase symbol)
                     mark now w0) = Ok tt).
  { unfold TriggerEngine.checkTriggersForSymbol, tryCatch.
    destruct (bind _ _ w0) as [[[]|e] w1]; reflexivity. }
  destruct (TriggerEngine.checkTriggersForSymbol _ mark now w0) as [r w1].
  simpl in H. subst r. reflexivity.
Qed.

(** A tick that reaches the engine as [(symbol, markPrice)] is handled as a
    tick on the upper-cased symbol: for a stored OPEN position on it whose
    stop-loss predicate holds, the tick records nothing or one
    SL_TRIGGERED event, and exactly that event when no write is refused. *)
Lemma handlePriceUpdate_stop_first symbol markPrice ts now w p :
  uniqueIds (db w) ->
  In p (paper_positions (db w)) ->
  Position.status p = OPEN ->
  Position.symbol p = toUpperCase symbol ->
  Calc.shouldTriggerSL (Position.side p) markPrice (Position.sl p) = true ->
  Calc.shouldTriggerTP (Position.side p) markPrice (Position.tp p) = true ->
  let w' := snd (TriggerEngine.handlePriceUpdate symbol markPrice ts now w) in
  (exists evs,
      eventsOf (db w') (Position.id p)
      = eventsOf (db w) (Position.id p) ++ evs
      /\ atMostOneStop evs)
  /\ (io w = [] ->
      exists ev p',
        eventsOf (db w') (Position.id p)
        = eventsOf (db w) (Position.id p) ++ [ev]
        /\ Event.event ev = SL_TRIGGERED
        /\ selectPosition (db w') (Position.id p) = Some p'
        /\ Position.status p' = CLOSED
        /\ Position.closePrice p' = Some markPrice).
Proof.
  intros Hu Hin Hs Hsym Hsl Htp w'. subst w'.
  rewrite handlePriceUpdate_world.
  set (w0 := set_priceCache w _).
  destruct (@checkTriggers_stop_first (toUpperCase symbol) markPrice now w0 p
              Hu Hin Hs Hsym Hsl Htp) as (_ & Hany & Hquiet).
  split; [exact Hany | exact Hquiet].
Qed.

(** ** At-most-once closure across positions and ticks *)

Lemma closeFills_closeStage_other d p cp fee ev now n id :
  id <> Position.id p ->
  closeFills (closeStage d p cp fee ev now n) id = closeFills d id.
Proof.
  intros Hne. unfold closeFills. rewrite fills_closeStage, filter_app.
  destruct (2 <=? n)%nat; simpl; [|apply app_nil_r].
  assert (E : (Position.id p =? id)%Z = false)
    by (apply Z.eqb_neq; congruence).
  rewrite E. apply app_nil_r.
Qed.

Lemma terminalEvents_closeStage_other d p cp fee ev now n id :
  id <> Position.id p ->
  terminalEvents (closeStage d p cp fee ev now n) id = terminalEvents d id.
Proof.
  intros Hne. unfold terminalEvents. rewrite events_closeStage, filter_app.
  destruct (3 <=? n)%nat; simpl; [|apply app_nil_r].
  assert (E : (Position.id p =? id)%Z = false)
    by (apply Z.eqb_neq; congruence).
  rewrite E. apply app_nil_r.
Qed.

Lemma closeStage_keeps d p cp fee ev now n id :
  selectPosition d (Position.id p) = Some p ->
  Position.status p = OPEN ->
  closedAtMostOnce d id ->
  closedAtMostOnce (closeStage d p cp fee ev now n) id.
Proof.
  intros Hsel Hs Hinv.
  destruct (Z.eq_dec id (Position.id p)) as [->|Hne].
  - now apply closedAtMostOnce_closeStage.
  - unfold closedAtMostOnce in *.
    rewrite select_closeStage_other, closeFills_closeStage_other,
      terminalEvents_closeStage_other by exact Hne.
    exact Hinv.
Qed.

Lemma executeTrigger_keeps id' mark ev now w id :
  closedAtMostOnce (db w) id ->
  closedAtMostOnce
    (db (snd (TriggerEngine.executeTrigger id' mark ev now w))) id.
Proof.
  intros Hinv.
  destruct (executeTrigger_db id' mark ev now w)
    as [_ [-> | (p & fee & n & Hsel & Hs & ->)]]; [exact Hinv|].
  pose proof (find_id_sound _ _ Hsel) as [_ Hid]. subst id'.
  now apply closeStage_keeps.
Qed.

Lemma forEachPosition_keeps positions mark now id :
  forall w,
    closedAtMostOnce (db w) id ->
    closedAtMostOnce
      (db (snd (TriggerEngine.forEachPosition positions mark now w))) id.
Proof.
  induction positions as [|q rest IH]; intros w Hinv; [exact Hinv|].
  rewrite forEachPosition_cons. apply IH. unfold afterPosition.
  destruct (Calc.shouldTriggerSL _ _ _); [now apply executeTrigger_keeps|].
  destruct (Calc.shouldTriggerTP _ _ _);
    [now apply executeTrigger_keeps | exact Hinv].
Qed.

(** No tick can give a position a second CLOSE fill or a second terminal
    event. *)
Lemma tick_keeps_closedAtMostOnce symbol mark now id w :
  closedAtMostOnce (db w) id ->
  closedAtMostOnce (db (tick symbol mark now w)) id.
Proof.
  intros Hinv. unfold tick. rewrite handlePriceUpdate_world.
  cbn [emit db]. rewrite checkTriggersForSymbol_world.
  apply forEachPosition_keeps. exact Hinv.
Qed.

Lemma ticks_keep_closedAtMostOnce (ticks : list (string * Q * Z)) id :
  forall w,
    closedAtMostOnce (db w) id ->
    let w' := fold_left (fun w t => tick (fst (fst t)) (snd (fst t)) (snd t) w)
                        ticks w in
    (List.length (closeFills (db w') id) <= 1)%nat
    /\ (List.length (terminalEvents (db w') id) <= 1)%nat.
Proof.
  induction ticks as [|[[s m] t] ticks IH]; intros w Hinv; simpl.
  - now apply closedAtMostOnce_bounds.
  - apply IH. now apply tick_keeps_closedAtMostOnce.
Qed.

Lemma closeFills_unreferenced d id :
  referencesBelowSeq d -> (seq_positions d < id)%Z -> closeFills d id = [].
Proof.
  intros [Hf _] Hlt. unfold closeFills.
  induction (paper_fills d) as [|f l IH]; simpl; [reflexivity|].
  inversion Hf as [|? ? Hx Hl]; subst.
  assert (E : (Fill.positionId f =? id)%Z = false)
    by (apply Z.eqb_neq; lia).
  rewrite E. simpl. apply IH. exact Hl.
Qed.

Lemma terminalEvents_unreferenced d id :
  referencesBelowSeq d -> (seq_positions d < id)%Z -> terminalEvents d id = [].
Proof.
  intros [_ He] Hlt. unfold terminalEvents.
  induction (paper_events d) as [|e l IH]; simpl; [reflexivity|].
  inversion He as [|? ? Hx Hl]; subst.
  assert (E : (Event.positionId e =? id)%Z = false)
    by (apply Z.eqb_neq; lia).
  rewrite E. simpl. apply IH. exact Hl.
Qed.

(** A position comes into being with no CLOSE fill and no terminal event,
    however many of the writes of [createPosition] are accepted. *)
Lemma createStage_closedAtMostOnce d data side entryPrice fee now n :
  positionIdsBelowSeq d ->
  referencesBelowSeq d ->
  closedAtMostOnce (createStage d data side entryPrice fee now n)
                   (seq_positions d + 1).
Proof.
  intros Hp Hr.
  assert (Hlt : (seq_positions d < seq_positions d + 1)%Z) by lia.
  pose proof (closeFills_unreferenced Hr Hlt) as Hf.
  pose proof (terminalEvents_unreferenced Hr Hlt) as He.
  assert (Hcf : closeFills (createStage d data side entryPrice fee now n)
                           (seq_positions d + 1) = []).
  { unfold closeFills in *.
    destruct n as [|[|[|n]]]; simpl; try exact Hf;
      rewrite filter_app, Hf; simpl; rewrite andb_false_r; reflexivity. }
  assert (Hte : terminalEvents (createStage d data side entryPrice fee now n)
                               (seq_positions d + 1) = []).
  { unfold terminalEvents in *.
    destruct n as [|[|[|n]]]; simpl; try exact He.
    rewrite filter_app, He. simpl. rewrite andb_false_r. reflexivity. }
  unfold closedAtMostOnce. rewrite Hcf, Hte.
  destruct (selectPosition _ _) as [p|]; [|simpl; lia].
  destruct (Position.status p); [split; reflexivity | simpl; lia].
Qed.

(** * Properties of the rest of the code *)

(** ** Deleting a position *)

Lemma deletePosition_cases id w :
  (exists e, deletePosition id w = (Throw e, consumed w) /\ io w <> [])
  \/ deletePosition id w
     = (Ok (hasPosition (db w) id),
        set_db (consumed w) (withoutPosition (db w) id)).
Proof.
  unfold deletePosition.
  match goal with |- context [run ?s w] =>
    destruct (run_cases s w) as [(e & He & Hio) | (a & d & Hs & He)] end.
  - left. exists e. split; [exact He|]. intros Hn. specialize (Hio Hn).
    discriminate.
  - right. injection Hs as <- <-. exact He.
Qed.

Lemma select_withoutPosition d id j :
  selectPosition (withoutPosition d id) j
  = if (j =? id)%Z then None else selectPosition d j.
Proof.
  unfold selectPosition, withoutPosition. simpl.
  induction (paper_positions d) as [|p l IH]; simpl.
  - destruct (j =? id)%Z; reflexivity.
  - destruct (Position.id p =? id)%Z eqn:E; simpl.
    + rewrite IH. apply Z.eqb_eq in E.
      destruct (j =? id)%Z eqn:Ej; [reflexivity|].
      assert (Hne : (Position.id p =? j)%Z = false).
      { apply Z.eqb_neq. apply Z.eqb_neq in Ej. lia. }
      rewrite Hne. reflexivity.
    + destruct (Position.id p =? j)%Z eqn:Ej.
      * apply Z.eqb_eq in Ej. subst j. rewrite E. reflexivity.
      * exact IH.
Qed.

Lemma filter_filter_neq A (key : A -> Z) (l : list A) id j :
  j <> id ->
  filter (fun x => (key x =? j)%Z)
         (filter (fun x => negb (key x =? id)%Z) l)
  = filter (fun x => (key x =? j)%Z) l.
Proof.
  intros Hne. induction l as [|x l IH]; simpl; [reflexivity|].
  destruct (key x =? id)%Z eqn:E; simpl.
  - apply Z.eqb_eq in E.
    assert (Hj : (key x =? j)%Z = false) by (apply Z.eqb_neq; lia).
    rewrite Hj. exact IH.
  - rewrite IH. reflexivity.
Qed.

Lemma filter_filter_same A (key : A -> Z) (l : list A) id :
  filter (fun x => (key x =? id)%Z)
         (filter (fun x => negb (key x =? id)%Z) l) = [].
Proof.
  induction l as [|x l IH]; simpl; [reflexivity|].
  destruct (key x =? id)%Z eqn:E; simpl; [exact IH|].
  rewrite E. exact IH.
Qed.

(** X1.  [deletePosition], when its write is accepted, answers whether a
    position was stored under the id and leaves no position, fill or event
    with that id, while the position, fills and events of every other id
    are as before; when the write is refused the store is unchanged. *)
Theorem deletePosition_cascades id w :
  let r := deletePosition id w in
  let d' := db (snd r) in
  match fst r with
  | Ok existed =>
      existed = hasPosition (db w) id
      /\ selectPosition d' id = None
      /\ fillsOf d' id = []
      /\ eventsOf d' id = []
      /\ (forall j, j <> id ->
            selectPosition d' j = selectPosition (db w) j
            /\ fillsOf d' j = fillsOf (db w) j
            /\ eventsOf d' j = eventsOf (db w) j)
  | Throw _ => d' = db w
  end.
Proof.
  intros r d'. subst d' r.
  destruct (deletePosition_cases id w) as [(e & -> & _) | ->]; simpl;
    [reflexivity|].
  split; [reflexivity|]. split.
  { rewrite select_withoutPosition, Z.eqb_refl. reflexivity. }
  split; [apply (filter_filter_same Fill.positionId)|].
  split; [apply (filter_filter_same Event.positionId)|].
  intros j Hne. split.
  { rewrite select_withoutPosition.
    apply Z.eqb_neq in Hne. rewrite Hne. reflexivity. }
  split.
  - apply (filter_filter_neq Fill.positionId). exact Hne.
  - apply (filter_filter_neq Event.positionId). exact Hne.
Qed.

(** ** Integrity of the store *)

Lemma hasPosition_app d row j :
  hasPosition (addPosition d row) j
  = (hasPosition d j || (Position.id row =? j)%Z)%bool.
Proof.
  unfold hasPosition, addPosition. simpl. rewrite existsb_app. simpl.
  rewrite orb_false_r. reflexivity.
Qed.

Lemma Forall_impl_has (A : Type) (key : A -> Z) (l : list A) (d d' : Db) :
  (forall j, hasPosition d j = true -> hasPosition d' j = true) ->
  Forall (fun x => hasPosition d (key x) = true) l ->
  Forall (fun x => hasPosition d' (key x) = true) l.
Proof.
  intros H. apply Forall_impl. intros x. apply H.
Qed.

Lemma noOrphans_same_positions d d' :
  (forall j, hasPosition d j = true -> hasPosition d' j = true) ->
  paper_fills d' = paper_fills d ->
  paper_events d' = paper_events d ->
  noOrphans d -> noOrphans d'.
Proof.
  intros H Hf He [Hof Hoe]. unfold noOrphans. rewrite Hf, He.
  split; eapply Forall_impl_has; eassumption.
Qed.

Lemma integrity_addPosition d row :
  Position.id row = (seq_positions d + 1)%Z ->
  storeIntegrity d -> storeIntegrity (addPosition d row).
Proof.
  intros Hid (Hu & Hb & [Hrf Hre] & Ho).
  assert (Hmono : forall j, hasPosition d j = true ->
                            hasPosition (addPosition d row) j = true).
  { intros j Hj. rewrite hasPosition_app, Hj. reflexivity. }
  split; [|split; [|split]].
  - unfold uniqueIds, addPosition. simpl. rewrite map_app. simpl.
    apply NoDup_app; [exact Hu | constructor; [intros [] | constructor] |].
    { intros x Hx [<-|[]]. apply in_map_iff in Hx.
      destruct Hx as (p & Hp & Hin).
      unfold positionIdsBelowSeq in Hb.
      rewrite Forall_forall in Hb. specialize (Hb p Hin). lia. }
  - unfold positionIdsBelowSeq, addPosition in *. simpl.
    apply Forall_app. split.
    + eapply Forall_impl; [|exact Hb]. intros p Hp. simpl in Hp. lia.
    + constructor; [lia | constructor].
  - unfold referencesBelowSeq, addPosition. simpl. split.
    + eapply Forall_impl; [|exact Hrf]. intros f Hf. simpl in Hf. lia.
    + eapply Forall_impl; [|exact Hre]. intros e He. simpl in He. lia.
  - apply (@noOrphans_same_positions d (addPosition d row));
      [exact Hmono | reflexivity | reflexivity | exact Ho].
Qed.

Lemma integrity_addFill d row :
  hasPosition d (Fill.positionId row) = true ->
  (Fill.positionId row <= seq_positions d)%Z ->
  storeIntegrity d -> storeIntegrity (addFill d row).
Proof.
  intros Hhas Hle (Hu & Hb & [Hrf Hre] & [Hof Hoe]).
  split; [exact Hu|]. split; [exact Hb|]. split.
  - split; [|exact Hre]. unfold addFill. simpl.
    apply Forall_app. split; [exact Hrf | constructor; [exact Hle | constructor]].
  - split; [|exact Hoe]. unfold addFill. simpl.
    apply Forall_app. split; [exact Hof | constructor; [exact Hhas | constructor]].
Qed.

Lemma integrity_addEvent d row :
  hasPosition d (Event.positionId row) = true ->
  (Event.positionId row <= seq_positions d)%Z ->
  storeIntegrity d -> storeIntegrity (addEvent d row).
Proof.
  intros Hhas Hle (Hu & Hb & [Hrf Hre] & [Hof Hoe]).
  split; [exact Hu|]. split; [exact Hb|]. split.
  - split; [exact Hrf|]. unfold addEvent. simpl.
    apply Forall_app. split; [exact Hre | constructor; [exact Hle | constructor]].
  - split; [exact Hof|]. unfold addEvent. simpl.
    apply Forall_app. split; [exact Hoe | constructor; [exact Hhas | constructor]].
Qed.

Lemma hasPosition_below d j :
  positionIdsBelowSeq d -> hasPosition d j = true -> (j <= seq_positions d)%Z.
Proof.
  unfold positionIdsBelowSeq, hasPosition. intros Hb Hj.
  apply existsb_exists in Hj. destruct Hj as (p & Hin & He).
  apply Z.eqb_eq in He. subst j.
  rewrite Forall_forall in Hb. exact (Hb p Hin).
Qed.

Lemma Forall_updateRow (P : Position.t -> Prop) id f l :
  (forall p, P p -> P (f p)) ->
  Forall P l -> Forall P (map (updateRow id f) l).
Proof.
  intros Hf H. induction H as [|p l Hp Hl IH]; simpl; constructor;
    [|exact IH].
  unfold updateRow. destruct (Position.id p =? id)%Z; auto.
Qed.

Lemma integrity_afterUpdate d id f :
  keepsId f -> storeIntegrity d -> storeIntegrity (afterUpdate d id f).
Proof.
  intros Hf (Hu & Hb & Hr & Ho).
  split; [|split; [|split]].
  - unfold uniqueIds, afterUpdate. simpl. rewrite map_id_updateRow; assumption.
  - unfold positionIdsBelowSeq, afterUpdate in *. simpl.
    apply Forall_updateRow; [|exact Hb]. intros p Hp. rewrite Hf. exact Hp.
  - exact Hr.
  - apply (@noOrphans_same_positions d (afterUpdate d id f));
      [|reflexivity | reflexivity | exact Ho].
    intros j Hj. rewrite hasPosition_afterUpdate; assumption.
Qed.

Lemma integrity_createStage d data side entryPrice fee now n :
  storeIntegrity d ->
  storeIntegrity (createStage d data side entryPrice fee now n).
Proof.
  intros Hi.
  set (row := newPositionRow d data side entryPrice fee now).
  assert (H1 : storeIntegrity (addPosition d row))
    by (apply integrity_addPosition; [reflexivity | exact Hi]).
  assert (Hhas : hasPosition (addPosition d row) (seq_positions d + 1) = true)
    by apply (hasPosition_addPosition d row).
  assert (H2 : storeIntegrity
                 (addFill (addPosition d row)
                          (openFillRow d data entryPrice fee now))).
  { apply integrity_addFill; [exact Hhas | simpl; lia | exact H1]. }
  assert (H3 : storeIntegrity
                 (addEvent (addFill (addPosition d row)
                                    (openFillRow d data entryPrice fee now))
                           (createdEventRow d data now))).
  { apply integrity_addEvent; [exact Hhas | simpl; lia | exact H2]. }
  destruct n as [|[|[|n]]]; assumption.
Qed.

Lemma integrity_closeStage d p cp fee ev now n :
  selectPosition d (Position.id p) = Some p ->
  storeIntegrity d ->
  storeIntegrity (closeStage d p cp fee ev now n).
Proof.
  intros Hsel Hi.
  pose proof (hasPosition_select _ _ Hsel) as Hhas.
  assert (Hle : (Position.id p <= seq_positions d)%Z).
  { destruct Hi as (_ & Hb & _). now apply hasPosition_below. }
  set (f := markClosed cp now (realizedPnlOf p cp fee) fee).
  assert (Hf : keepsId f) by apply keepsId_markClosed.
  assert (H1 : storeIntegrity (afterUpdate d (Position.id p) f))
    by (apply integrity_afterUpdate; assumption).
  assert (Hhas1 : hasPosition (afterUpdate d (Position.id p) f) (Position.id p)
                  = true)
    by (rewrite hasPosition_afterUpdate; assumption).
  assert (H2 : storeIntegrity
                 (addFill (afterUpdate d (Position.id p) f)
                          (closeFillRow d p cp fee now))).
  { apply integrity_addFill; [exact Hhas1 | exact Hle | exact H1]. }
  assert (H3 : storeIntegrity
                 (addEvent
                    (addFill (afterUpdate d (Position.id p) f)
                             (closeFillRow d p cp fee now))
                    (closeEventRow d p cp fee ev now))).
  { apply integrity_addEvent; [exact Hhas1 | exact Hle | exact H2]. }
  destruct n as [|[|[|n]]]; assumption.
Qed.

Lemma hasPosition_withoutPosition d id j :
  hasPosition (withoutPosition d id) j
  = (negb (j =? id)%Z && hasPosition d j)%bool.
Proof.
  unfold hasPosition. rewrite !existsb_find_id.
  fold (selectPosition (withoutPosition d id) j) (selectPosition d j).
  rewrite select_withoutPosition.
  destruct (j =? id)%Z; reflexivity.
Qed.

Lemma integrity_withoutPosition d id :
  storeIntegrity d -> storeIntegrity (withoutPosition d id).
Proof.
  intros (Hu & Hb & [Hrf Hre] & [Hof Hoe]).
  split; [|split; [|split]].
  - unfold uniqueIds, withoutPosition. simpl. now apply NoDup_map_filter.
  - unfold positionIdsBelowSeq, withoutPosition in *. simpl.
    rewrite Forall_forall in Hb. apply Forall_forall.
    intros p Hp. apply filter_In in Hp. apply Hb. tauto.
  - rewrite Forall_forall in Hrf, Hre.
    unfold referencesBelowSeq, withoutPosition. simpl.
    split; apply Forall_forall; intros x Hx; apply filter_In in Hx;
      [apply Hrf | apply Hre]; tauto.
  - rewrite Forall_forall in Hof, Hoe.
    assert (Hpf : paper_fills (withoutPosition d id)
                  = filter (fun f => negb (Fill.positionId f =? id)%Z)
                           (paper_fills d)) by reflexivity.
    assert (Hpe : paper_events (withoutPosition d id)
                  = filter (fun e => negb (Event.positionId e =? id)%Z)
                           (paper_events d)) by reflexivity.
    unfold noOrphans. rewrite Hpf, Hpe.
    split; apply Forall_forall; intros x Hx; apply filter_In in Hx;
      destruct Hx as [Hx Hk]; rewrite hasPosition_withoutPosition, Hk; simpl.
    + now apply Hof.
    + now apply Hoe.
Qed.

Lemma integrity_set_settings d s :
  storeIntegrity d -> storeIntegrity (set_settings d s).
Proof. intros H. exact H. Qed.

Lemma updateSettings_db data w :
  db (snd (updateSettings data w)) = db w
  \/ db (snd (updateSettings data w))
     = set_settings (db w)
         (fold_left assignSetting (settingsUpdates data) (settings (db w))).
Proof.
  unfold updateSettings, bind.
  destruct (0 <? List.length (settingsUpdates data))%nat; [|left; reflexivity].
  match goal with |- context [run ?s w] =>
    destruct (run_cases s w) as [(e & He & Hio) | (a & d & Hs & He)] end;
    rewrite He.
  - left. reflexivity.
  - right. injection Hs as <- <-. reflexivity.
Qed.

Lemma integrity_executeTrigger id mark ev now w :
  storeIntegrity (db w) ->
  storeIntegrity (db (snd (TriggerEngine.executeTrigger id mark ev now w))).
Proof.
  intros Hi.
  destruct (executeTrigger_db id mark ev now w)
    as [_ [-> | (p & fee & n & Hsel & _ & ->)]]; [exact Hi|].
  pose proof (find_id_sound _ _ Hsel) as [_ Hid]. subst id.
  now apply integrity_closeStage.
Qed.

Lemma integrity_forEachPosition positions mark now :
  forall w,
    storeIntegrity (db w) ->
    storeIntegrity
      (db (snd (TriggerEngine.forEachPosition positions mark now w))).
Proof.
  induction positions as [|q rest IH]; intros w Hi; [exact Hi|].
  rewrite forEachPosition_cons. apply IH. unfold afterPosition.
  destruct (Calc.shouldTriggerSL _ _ _);
    [now apply integrity_executeTrigger|].
  destruct (Calc.shouldTriggerTP _ _ _);
    [now apply integrity_executeTrigger | exact Hi].
Qed.

Lemma integrity_emptyDb : storeIntegrity emptyDb.
Proof.
  repeat split; try constructor.
Qed.

Lemma integrity_applyOp w op :
  storeIntegrity (db w) -> storeIntegrity (db (applyOp w op)).
Proof.
  intros Hi. destruct op as [data E fee now | id data now | id cp fee ev now
                             | id | data | symbol mark ts now]; simpl.
  - destruct (isPositionSide (CreatePositionRequest.side data)) as [side|]
      eqn:Hside.
    + pose proof (@createPosition_outcome data E fee now w side Hside) as H.
      cbv zeta in H.
      destruct H as [(n & _ & _ & -> & _) | (_ & ->)];
        now apply integrity_createStage.
    + pose proof (@createPosition_bad_side data E fee now w Hside) as [_ ->].
      exact Hi.
  - destruct (providesField data) eqn:Hp.
    + pose proof (@updatePosition_stores id data now w Hp) as H.
      cbv zeta in H.
      destruct H as [(_ & [-> | ->] & _) | (_ & -> & Hhas)].
      * exact Hi.
      * apply integrity_afterUpdate; [apply keepsId_applyUpdates | exact Hi].
      * apply integrity_addEvent.
        -- simpl. rewrite hasPosition_afterUpdate;
             [exact Hhas | apply keepsId_applyUpdates].
        -- simpl. destruct Hi as (_ & Hb & _). now apply hasPosition_below.
        -- apply integrity_afterUpdate;
             [apply keepsId_applyUpdates | exact Hi].
    + destruct data as [[|] [|]]; try discriminate. exact Hi.
  - destruct (selectPosition (db w) id) as [p|] eqn:Hsel.
    2:{ rewrite (@closePosition_noop_absent id cp fee ev now w Hsel).
        exact Hi. }
    destruct (Position.status p) eqn:Hs.
    2:{ rewrite (@closePosition_noop_closed id cp fee ev now w p Hsel Hs).
        exact Hi. }
    pose proof (@closePosition_open id cp fee ev now w p Hsel Hs) as H.
    cbv zeta in H.
    pose proof (find_id_sound _ _ Hsel) as [_ Hid]. subst id.
    destruct H as [(n & _ & _ & -> & _) | (_ & ->)];
      now apply integrity_closeStage.
  - destruct (deletePosition_cases id w) as [(e & -> & _) | ->]; simpl;
      [exact Hi | now apply integrity_withoutPosition].
  - destruct (updateSettings_db data w) as [-> | ->]; exact Hi.
  - rewrite handlePriceUpdate_world. cbn [emit db].
    rewrite checkTriggersForSymbol_world.
    apply integrity_forEachPosition. exact Hi.
Qed.

(** X2.  Every operation that writes to the store ([createPosition],
    [updatePosition], [closePosition], [deletePosition], [updateSettings],
    a tick of the trigger engine) keeps the integrity of the store,
    whatever the storage layer refuses: position ids are unique and never
    above the AUTOINCREMENT counter, fills and events refer only to ids
    that were handed out, and each belongs to a stored position.  Hence
    every store reached from the empty one has these properties. *)
Theorem storeIntegrity_invariant :
  (forall w op, storeIntegrity (db w) -> storeIntegrity (db (applyOp w op)))
  /\ (forall faults ops,
         storeIntegrity (db (fold_left applyOp ops (emptyWorld faults)))).
Proof.
  split; [exact integrity_applyOp|].
  intros faults ops.
  assert (H : forall w, storeIntegrity (db w) ->
                        storeIntegrity (db (fold_left applyOp ops w))).
  { induction ops as [|op ops IH]; intros w Hi; [exact Hi|].
    simpl. apply IH. now apply integrity_applyOp. }
  apply H. exact integrity_emptyDb.
Qed.

Lemma storeIntegrity_invariant_witness :
  storeIntegrity (db (applyOp worldS1 (OpClose 1 110 (44 # 100) CloseTP 2000))).
Proof.
  destruct storeIntegrity_invariant as [Hstep Hreach].
  apply Hstep.
  exact (Hreach [] [OpCreate requestS1 100 (4 # 10) 1000]).
Defined.

(** ** Listings *)

Lemma insertByEntryTime_sorted p l :
  StronglySorted newerFirst l ->
  StronglySorted newerFirst (insertByEntryTime p l).
Proof.
  induction l as [|q l IH]; intros Hs; simpl.
  - constructor; constructor.
  - inversion Hs as [|? ? Hl Hq]; subst.
    destruct (Position.entryTime q <=? Position.entryTime p)%Z eqn:E.
    + apply Z.leb_le in E. constructor; [exact Hs|].
      constructor; [exact E|].
      eapply Forall_impl; [|exact Hq]. unfold newerFirst. intros a Ha. lia.
    + apply Z.leb_gt in E. constructor; [apply IH; exact Hl|].
      apply (Permutation_Forall (Permutation_sym (insertByEntryTime_perm p l))).
      constructor; [unfold newerFirst; lia | exact Hq].
Qed.

Lemma orderByEntryTimeDesc_sorted l :
  StronglySorted newerFirst (orderByEntryTimeDesc l).
Proof.
  induction l as [|p l IH]; simpl; [constructor|].
  apply insertByEntryTime_sorted. exact IH.
Qed.

(** X3.  [getPositions(status)] lists exactly the stored positions of the
    requested status (all of them without a status), each once, by
    [entryTime] descending. *)
Theorem getPositions_ordered d status :
  let rows := selectPositions d status in
  StronglySorted newerFirst rows
  /\ Permutation rows
       (filter (fun p => match status with
                         | Some s => statusEqb (Position.status p) s
                         | None => true
                         end) (paper_positions d))
  /\ (forall p s, status = Some s -> In p rows -> Position.status p = s).
Proof.
  intros rows. subst rows. destruct status as [s|]; simpl.
  - split; [apply orderByEntryTimeDesc_sorted|].
    split; [apply orderByEntryTimeDesc_perm|].
    intros p s' [= <-] Hin.
    apply (Permutation_in _ (orderByEntryTimeDesc_perm _)) in Hin.
    apply filter_In in Hin. destruct Hin as [_ Hs].
    destruct (Position.status p), s; (reflexivity || discriminate).
  - split; [apply orderByEntryTimeDesc_sorted|].
    split; [|intros p s H; discriminate].
    rewrite orderByEntryTimeDesc_perm.
    assert (E : filter (fun _ : Position.t => true) (paper_positions d)
                = paper_positions d).
    { induction (paper_positions d) as [|p l IH]; simpl; congruence. }
    rewrite E. reflexivity.
Qed.

Section SortBy.

Context {A : Type} (before : A -> A -> bool) (R : A -> A -> Prop).
Hypothesis before_R : forall x y, before x y = true -> R x y.
Hypothesis after_R : forall x y, before x y = false -> R y x.
Hypothesis R_trans : forall x y z, R x y -> R y z -> R x z.





End SortBy.


(** *** The bound limit *)



(** *** Equal timestamps *)




(** *** The events are stored in the order of their ids *)










Example getAllEvents_limit_on_equal_ts :
  getAllEvents 1 worldS1moved
  = Rows [Event.mk 2 1 SL_UPDATED
            (PayloadUpdated (UpdatePositionRequest.mk (Some (Some 96)) None))
            1000]
  /\ getAllEvents (5 # 2) worldS1moved = DatatypeMismatch
  /\ getAllEvents (inject_Z (2 ^ 63)) worldS1moved = DatatypeMismatch.
Proof. vm_compute. repeat split. Qed.


(** ** Settings *)

Lemma settingsUpdates_patched data s :
  fold_left assignSetting (settingsUpdates data) s = patched data s.
Proof.
  destruct s, data as [[?|] [?|] [?|] [?|] [?|] [?|] [?|] [?|]]; reflexivity.
Qed.

Lemma settingsUpdates_empty data :
  settingsUpdates data = [] -> data = emptyPatch.
Proof.
  destruct data as [[?|] [?|] [?|] [?|] [?|] [?|] [?|] [?|]];
    try discriminate; reflexivity.
Qed.

(** X5.  [updateSettings] never touches positions, fills or events; with
    no field provided it attempts no write and returns the stored row;
    when its write is accepted it returns and stores the row with exactly
    the provided fields written over, and a taker fee computed afterwards
    uses the new rate. *)
Theorem updateSettings_patches data w :
  let r := updateSettings data w in
  let d' := db (snd r) in
  updateSettings emptyPatch w = (Ok (settings (db w)), w)
  /\ paper_positions d' = paper_positions (db w)
  /\ paper_fills d' = paper_fills (db w)
  /\ paper_events d' = paper_events (db w)
  /\ (settings d' = settings (db w)
      \/ settings d' = patched data (settings (db w)))
  /\ (io w = [] ->
      fst r = Ok (patched data (settings (db w)))
      /\ settings d' = patched data (settings (db w))
      /\ forall notional,
           fst (Calc.calculateTakerFee notional (snd r))
           = Ok (notional
                 * orElse (SettingsPatch.takerFee data)
                          (Settings.takerFee (settings (db w))))).
Proof.
  intros r d'. subst d' r.
  split; [reflexivity|].
  unfold updateSettings, bind.
  destruct (0 <? List.length (settingsUpdates data))%nat eqn:El.
  - match goal with |- context [run ?s w] =>
      destruct (run_cases s w) as [(e & He & Hio) | (a & d & Hs & He)] end;
      rewrite He.
    + simpl. repeat (split; [reflexivity|]). split; [left; reflexivity|].
      intros Hn. specialize (Hio Hn). discriminate.
    + injection Hs as <- <-. simpl. rewrite settingsUpdates_patched.
      repeat (split; [reflexivity|]). split; [right; reflexivity|].
      intros _. repeat split.
  - assert (Hd : data = emptyPatch).
    { apply settingsUpdates_empty.
      destruct (settingsUpdates data); [reflexivity | discriminate]. }
    subst data. simpl. repeat (split; [reflexivity|]).
    split; [left; reflexivity|]. intros _. destruct (settings (db w)).
    repeat split.
Qed.

(** ** The calculator

    Rounding is not modelled: the numbers are rationals.  The properties
    of this section are therefore kept to the order of the results, which
    the operations of binary64 keep as well, each being monotone in its
    operands, and to equations between an expression of the code and
    itself. *)

Lemma Qleb_true_le x y : Qleb x y = true -> x <= y.
Proof. unfold Qleb. apply Qle_bool_iff. Qed.

Lemma Qleb_le_true x y : x <= y -> Qleb x y = true.
Proof. unfold Qleb. apply Qle_bool_iff. Qed.

Lemma Qdiv_sign (a b : Q) :
  0 < b -> (0 <= a -> 0 <= a / b * 100) /\ (a <= 0 -> a / b * 100 <= 0).
Proof.
  intro Hb. pose proof (Qinv_lt_0_compat b Hb) as Hi.
  unfold Qdiv. split; intro Ha; nra.
Qed.

(** X6.  The sign of what [calculatePnLData] reports, for a position
    with a positive entry price and quantity: the notional is the
    quantity times the entry price and the price is the mark price; when
    the mark price is on the profit side of the entry (at or above it for
    a LONG, at or below it for a SHORT) neither the unrealized PnL nor
    its percentage is negative, and on the other side neither is
    positive. *)
Theorem calculatePnLData_sign (p : Position.t) (mark : Q) :
  0 < Position.entryPrice p -> 0 < Position.qty p ->
  let r := calculatePnLData p mark in
  currentPrice r = mark
  /\ notional r = Position.qty p * Position.entryPrice p
  /\ (match Position.side p with
      | LONG => Position.entryPrice p <= mark
      | SHORT => mark <= Position.entryPrice p
      end -> 0 <= unrealizedPnl r /\ 0 <= pnlPercent r)
  /\ (match Position.side p with
      | LONG => mark <= Position.entryPrice p
      | SHORT => Position.entryPrice p <= mark
      end -> unrealizedPnl r <= 0 /\ pnlPercent r <= 0).
Proof.
  intros He Hq.
  unfold calculatePnLData, calculatePnLPercent, Calc.calculateNotional,
    Calc.calculateUnrealizedPnL.
  cbn [currentPrice notional unrealizedPnl pnlPercent].
  assert (Hn : 0 < Position.qty p * Position.entryPrice p)
    by (apply Qmult_lt_0_compat; assumption).
  assert (Hz : ~ Position.qty p * Position.entryPrice p == 0) by lra.
  rewrite (@isZero_false _ Hz).
  split; [reflexivity|]. split; [reflexivity|].
  split; intro Hside.
  - assert (Hp : 0 <= match Position.side p with
                      | LONG => (mark - Position.entryPrice p)
                                * Position.qty p
                      | SHORT => (Position.entryPrice p - mark)
                                 * Position.qty p
                      end)
      by (destruct (Position.side p); nra).
    split; [exact Hp|]. apply (Qdiv_sign _ Hn). exact Hp.
  - assert (Hp : match Position.side p with
                 | LONG => (mark - Position.entryPrice p) * Position.qty p
                 | SHORT => (Position.entryPrice p - mark) * Position.qty p
                 end <= 0)
      by (destruct (Position.side p); nra).
    split; [exact Hp|]. apply (Qdiv_sign _ Hn). exact Hp.
Qed.

Lemma calculatePnLData_sign_witness :
  let r := calculatePnLData positionS1 101 in
  currentPrice r = 101
  /\ notional r = Position.qty positionS1 * Position.entryPrice positionS1
  /\ 0 <= unrealizedPnl r /\ 0 <= pnlPercent r.
Proof.
  intro r.
  destruct (@calculatePnLData_sign positionS1 101) as (H1 & H2 & H3 & _).
  - reflexivity.
  - reflexivity.
  - split; [exact H1|]. split; [exact H2|]. apply H3. discriminate.
Defined.

(** X7.  The take-profit that [calculateTPFromR] computes for a number
    [r >= 0] of risk units is never on the loss side of the entry: it is
    at or above the entry for a LONG and at or below it for a SHORT, so
    that leaving there with a quantity that is not negative gives an
    unrealized PnL that is not negative. *)
Theorem calculateTPFromR_profit_side (side : PositionSide)
        (entryPrice sl r qty : Q) :
  0 <= r -> 0 <= qty ->
  let tp := calculateTPFromR side entryPrice sl r in
  match side with
  | LONG => entryPrice <= tp
  | SHORT => tp <= entryPrice
  end
  /\ 0 <= Calc.calculateUnrealizedPnL side entryPrice tp qty.
Proof.
  intros Hr Hq. cbv zeta.
  unfold calculateTPFromR, calculateRMultiple, Calc.calculateUnrealizedPnL.
  pose proof (Qabs_nonneg (entryPrice - sl)) as Ha.
  set (d := Qabs (entryPrice - sl)) in *.
  assert (Hd : 0 <= d * r) by nra.
  destruct side; split; nra.
Qed.

Lemma calculateTPFromR_profit_side_witness :
  100 <= calculateTPFromR LONG 100 90 2
  /\ 0 <= Calc.calculateUnrealizedPnL LONG 100
            (calculateTPFromR LONG 100 90 2) 2.
Proof.
  apply (@calculateTPFromR_profit_side LONG 100 90 2 2); discriminate.
Defined.

Lemma Qinv_le_1 (l : Q) : 1 <= l -> 0 < / l /\ / l <= 1.
Proof.
  intro H.
  assert (Hp : 0 < l) by lra.
  pose proof (Qinv_lt_0_compat l Hp) as Hi.
  assert (E : l * / l == 1) by (field; lra).
  split; [exact Hi|]. nra.
Qed.

Lemma Qinv_ge (l b : Q) : 0 < l -> l <= b -> / b <= / l.
Proof.
  intros Hl Hb.
  assert (Hpb : 0 < b) by lra.
  pose proof (Qinv_lt_0_compat l Hl) as Hil.
  pose proof (Qinv_lt_0_compat b Hpb) as Hib.
  assert (E1 : l * / l == 1) by (field; lra).
  assert (E2 : b * / b == 1) by (field; lra).
  nra.
Qed.

(** X9.  Leverage never lowers the size of the return on the margin of
    [calculateMargin].  With a leverage of 0 the margin is the notional
    and [calculateROE] evaluates the expression of [calculatePnLPercent].
    With a leverage of at least 1 and a positive notional, a PnL that is
    not negative has a return at least its percentage, and a PnL that is
    not positive a return at most its percentage. *)
Theorem calculateROE_leverage (pnl entryPrice qty leverage : Q) :
  let notional := Calc.calculateNotional qty entryPrice in
  let roe := calculateROE pnl (calculateMargin notional leverage) in
  let percent := calculatePnLPercent pnl entryPrice qty in
  (leverage == 0 -> roe = percent)
  /\ (1 <= leverage -> 0 < notional ->
      (0 <= pnl -> 0 <= percent /\ percent <= roe)
      /\ (pnl <= 0 -> roe <= percent /\ percent <= 0)).
Proof.
  unfold calculateROE, calculateMargin, calculatePnLPercent,
    Calc.calculateNotional.
  cbv zeta. split.
  - intro E. apply (proj2 (isZero_iff leverage)) in E. rewrite E.
    reflexivity.
  - intros Hl Hn.
    destruct (Qinv_le_1 Hl) as [Hi1 Hi2].
    assert (Hp : 0 < leverage) by lra.
    assert (Hlz : ~ leverage == 0) by lra.
    assert (Hnz : ~ qty * entryPrice == 0) by lra.
    assert (Hm : 0 < qty * entryPrice / leverage).
    { unfold Qdiv. apply Qmult_lt_0_compat; assumption. }
    assert (Hmz : ~ qty * entryPrice / leverage == 0) by lra.
    rewrite (@isZero_false _ Hlz), (@isZero_false _ Hnz),
      (@isZero_false _ Hmz).
    assert (E : pnl / (qty * entryPrice / leverage) * 100
                == pnl / (qty * entryPrice) * 100 * leverage)
      by (field; repeat split; intro Ex; try (rewrite Ex in Hn; lra); lra).
    rewrite E.
    destruct (Qdiv_sign pnl Hn) as [Hpos Hneg].
    split; intro Hs.
    + specialize (Hpos Hs). split; [exact Hpos|]. nra.
    + specialize (Hneg Hs). split; [nra | exact Hneg].
Qed.

(** X10.  For every leverage the create route accepts (1 to 125), a
    positive entry price and the default maintenance margin rate, the
    liquidation price of a LONG lies strictly between 0 and the entry
    price and that of a SHORT strictly above it; a higher leverage brings
    neither further from the entry. *)
Theorem calculateLiquidationPrice_sides (entryPrice leverage : Q) :
  0 < entryPrice -> 1 <= leverage -> leverage <= 125 ->
  let long :=
    calculateLiquidationPrice LONG entryPrice leverage
                              defaultMaintenanceMarginRate in
  let short :=
    calculateLiquidationPrice SHORT entryPrice leverage
                              defaultMaintenanceMarginRate in
  0 < long /\ long < entryPrice /\ entryPrice < short /\
  (forall higher, leverage <= higher ->
     long <= calculateLiquidationPrice LONG entryPrice higher
               defaultMaintenanceMarginRate /\
     calculateLiquidationPrice SHORT entryPrice higher
       defaultMaintenanceMarginRate <= short).
Proof.
  intros He Hl Hu. cbv zeta.
  unfold calculateLiquidationPrice, defaultMaintenanceMarginRate.
  destruct (Qinv_le_1 Hl) as [Hi1 Hi2].
  assert (Hp : 0 < leverage) by lra.
  assert (Hi3 : / 125 <= / leverage) by (apply Qinv_ge; assumption).
  assert (E125 : / 125 == 8 # 1000) by reflexivity.
  rewrite E125 in Hi3.
  assert (Ed : forall x, 1 / x == / x) by (intro x; unfold Qdiv; ring).
  rewrite !Ed.
  split; [nra|]. split; [nra|]. split; [nra|].
  intros higher Hh. rewrite !Ed.
  assert (Hi4 : / higher <= / leverage) by (apply Qinv_ge; assumption).
  split; nra.
Qed.

Lemma calculateLiquidationPrice_sides_witness :
  0 < calculateLiquidationPrice LONG 100 10 defaultMaintenanceMarginRate /\
  calculateLiquidationPrice LONG 100 10 defaultMaintenanceMarginRate < 100 /\
  100 < calculateLiquidationPrice SHORT 100 10 defaultMaintenanceMarginRate.
Proof.
  destruct (@calculateLiquidationPrice_sides 100 10) as (H1 & H2 & H3 & _).
  - reflexivity.
  - discriminate.
  - discriminate.
  - split; [exact H1|]. split; [exact H2|exact H3].
Defined.

(** ** Brackets *)

(** X11.  The trigger predicates on a bracket of stored levels.  A level
    that is null never triggers.  With the stop-loss on the loss side of
    the take-profit (below it for a LONG, above it for a SHORT) no mark
    price triggers both; otherwise the price of the stop-loss triggers
    both.  A stop-loss that a price triggers is triggered by every price
    further on the loss side, and a take-profit by every price further on
    the profit side. *)
Theorem bracket_triggers (S : PositionSide) (sl tp : Q) :
  (forall m, Calc.shouldTriggerSL S m None = false
             /\ Calc.shouldTriggerTP S m None = false)
  /\ (match S with
      | LONG => sl < tp
      | SHORT => tp < sl
      end ->
      forall m, Calc.shouldTriggerSL S m (Some sl)
                && Calc.shouldTriggerTP S m (Some tp) = false)
  /\ (match S with
      | LONG => tp <= sl
      | SHORT => sl <= tp
      end ->
      Calc.shouldTriggerSL S sl (Some sl)
      && Calc.shouldTriggerTP S sl (Some tp) = true)
  /\ (forall m m',
        match S with
        | LONG => m' <= m
        | SHORT => m <= m'
        end ->
        Calc.shouldTriggerSL S m (Some sl) = true ->
        Calc.shouldTriggerSL S m' (Some sl) = true)
  /\ (forall m m',
        match S with
        | LONG => m <= m'
        | SHORT => m' <= m
        end ->
        Calc.shouldTriggerTP S m (Some tp) = true ->
        Calc.shouldTriggerTP S m' (Some tp) = true).
Proof.
  split; [intro m; destruct S; split; reflexivity|].
  split; [|split; [|split]].
  - intros Ho m. destruct S; simpl.
    + destruct (Qleb m sl) eqn:E1; [|reflexivity].
      apply Qleb_true_le in E1. simpl. apply Qleb_false_lt. lra.
    + destruct (Qleb sl m) eqn:E1; [|reflexivity].
      apply Qleb_true_le in E1. simpl. apply Qleb_false_lt. lra.
  - intros Ho. destruct S; simpl; apply andb_true_iff; split;
      apply Qleb_le_true; lra.
  - intros m m' Hm. destruct S; simpl; intro H; apply Qleb_true_le in H;
      apply Qleb_le_true; lra.
  - intros m m' Hm. destruct S; simpl; intro H; apply Qleb_true_le in H;
      apply Qleb_le_true; lra.
Qed.

(** ** The statistics route *)

Lemma filter_length_le A (f : A -> bool) (l : list A) :
  (List.length (filter f l) <= List.length l)%nat.
Proof.
  induction l as [|x l IH]; simpl; [lia|].
  destruct (f x); simpl; lia.
Qed.

Lemma status_partition (l : list Position.t) :
  List.length l
  = (List.length (filter (fun p => statusEqb (Position.status p) OPEN) l)
     + List.length (filter (fun p => statusEqb (Position.status p) CLOSED) l))%nat.
Proof.
  induction l as [|p l IH]; simpl; [reflexivity|].
  destruct (Position.status p); simpl; lia.
Qed.

Lemma count_le A (l1 l2 : list A) :
  (List.length l1 <= List.length l2)%nat -> Stats.count l1 <= Stats.count l2.
Proof.
  intro H. unfold Stats.count. rewrite <- Zle_Qle. lia.
Qed.

Lemma count_pos A (l : list A) :
  (0 <? List.length l)%nat = true -> 0 < Stats.count l.
Proof.
  intro H. apply Nat.ltb_lt in H. unfold Stats.count.
  change 0 with (inject_Z 0). rewrite <- Zlt_Qlt. lia.
Qed.

Lemma winRate_bounds l : 0 <= Stats.winRate l /\ Stats.winRate l <= 100.
Proof.
  unfold Stats.winRate. cbv zeta.
  destruct (0 <? List.length l)%nat eqn:E; [|split; discriminate].
  pose proof (count_pos l E) as Hc.
  set (ws := filter (fun pos => Qltb 0 (Position.realizedPnl pos)) l).
  assert (Hw : Stats.count ws <= Stats.count l)
    by (apply count_le; apply filter_length_le).
  assert (H0 : 0 <= Stats.count ws).
  { unfold Stats.count. change 0 with (inject_Z 0). rewrite <- Zle_Qle. lia. }
  assert (Hd : Stats.count ws == Stats.count ws / Stats.count l * Stats.count l)
    by (field; lra).
  set (r := Stats.count ws / Stats.count l) in *.
  split; nra.
Qed.

(** X12.  The statistics route never fails and changes nothing; it counts
    every stored position, the open and the closed ones adding up to the
    total; the total PnL is the realized PnL of the closed positions added
    one after the other to 0, in the order of the listing the route reads
    ([entryTime] descending), the balance is the base balance plus that
    total, and the win rate lies between 0 and 100, being 100 when every
    closed position made a profit. *)
Theorem stats_report (w : World) :
  exists s,
    Stats.GET w = (Ok s, w)
    /\ Stats.totalPositions s = List.length (paper_positions (db w))
    /\ Stats.openPositions s = List.length (rowsOfStatus (db w) OPEN)
    /\ Stats.closedPositions s = List.length (rowsOfStatus (db w) CLOSED)
    /\ Stats.totalPositions s
       = (Stats.openPositions s + Stats.closedPositions s)%nat
    /\ Stats.stats_totalPnl s
       = fold_left (fun sum pos => sum + Position.realizedPnl pos)
                   (selectPositions (db w) (Some CLOSED)) 0
    /\ Stats.currentBalance s
       = Settings.baseBalance (settings (db w)) + Stats.stats_totalPnl s
    /\ 0 <= Stats.stats_winRate s /\ Stats.stats_winRate s <= 100
    /\ ((forall p, In p (rowsOfStatus (db w) CLOSED) ->
           0 < Position.realizedPnl p) ->
        rowsOfStatus (db w) CLOSED <> [] ->
        Stats.stats_winRate s == 100).
Proof.
  eexists. split; [reflexivity|].
  cbn [Stats.totalPositions Stats.openPositions Stats.closedPositions
       Stats.stats_totalPnl Stats.currentBalance Stats.stats_winRate].
  pose proof (orderByEntryTimeDesc_perm (paper_positions (db w))) as Pall.
  pose proof (orderByEntryTimeDesc_perm (rowsOfStatus (db w) OPEN)) as Popen.
  pose proof (orderByEntryTimeDesc_perm (rowsOfStatus (db w) CLOSED)) as Pcl.
  assert (Eall : selectPositions (db w) None
                 = orderByEntryTimeDesc (paper_positions (db w)))
    by reflexivity.
  assert (Eopen : selectPositions (db w) (Some OPEN)
                  = orderByEntryTimeDesc (rowsOfStatus (db w) OPEN))
    by reflexivity.
  assert (Ecl : selectPositions (db w) (Some CLOSED)
                = orderByEntryTimeDesc (rowsOfStatus (db w) CLOSED))
    by reflexivity.
  rewrite Eall, Eopen, (Permutation_length Pall), (Permutation_length Popen).
  split; [reflexivity|]. split; [reflexivity|].
  split; [rewrite Ecl; apply (Permutation_length Pcl)|].
  split; [rewrite Ecl, (Permutation_length Pcl); apply status_partition|].
  split; [reflexivity|].
  split; [reflexivity|].
  split; [apply winRate_bounds|]. split; [apply winRate_bounds|].
  intros Hall Hne. rewrite Ecl.
  set (l := orderByEntryTimeDesc (rowsOfStatus (db w) CLOSED)) in *.
  assert (Hl : forall p, In p l -> Qltb 0 (Position.realizedPnl p) = true).
  { intros p Hp. apply (Permutation_in _ Pcl) in Hp. apply Hall in Hp.
    unfold Qltb. destruct (Qle_bool (Position.realizedPnl p) 0) eqn:E;
      [|reflexivity].
    apply Qle_bool_iff in E. lra. }
  assert (Hf : filter (fun pos => Qltb 0 (Position.realizedPnl pos)) l = l).
  { clear - Hl. induction l as [|p l IH]; simpl; [reflexivity|].
    rewrite (Hl p (or_introl eq_refl)). f_equal. apply IH.
    intros q Hq. apply Hl. right. exact Hq. }
  unfold Stats.winRate. cbv zeta. rewrite Hf.
  assert (Hlen : (0 <? List.length l)%nat = true).
  { apply Nat.ltb_lt. rewrite (Permutation_length Pcl).
    destruct (rowsOfStatus (db w) CLOSED); [congruence|simpl; lia]. }
  rewrite Hlen. pose proof (count_pos l Hlen) as Hc. field. lra.
Qed.

(** ** Best and worst symbols *)

Lemma mapGet_None V (k : string) (m : list (string * V)) :
  mapGet k m = None <-> ~ In k (map fst m).
Proof.
  unfold mapGet. induction m as [|[k' v'] m IH]; simpl.
  - split; [intros _ []|reflexivity].
  - destruct (String.eqb k' k) eqn:E.
    + apply String.eqb_eq in E. subst. split; [discriminate|].
      intro H. exfalso. apply H. left. reflexivity.
    + apply String.eqb_neq in E. rewrite IH. split.
      * intros H [H1|H1]; [congruence|tauto].
      * intros H H1. apply H. right. exact H1.
Qed.

Lemma mapGet_Some_In V (k : string) (v : V) (m : list (string * V)) :
  mapGet k m = Some v -> In (k, v) m.
Proof.
  unfold mapGet. induction m as [|[k' v'] m IH]; simpl; [discriminate|].
  destruct (String.eqb k' k) eqn:E.
  - apply String.eqb_eq in E. subst. simpl. intros [= ->]. left. reflexivity.
  - intro H. right. apply IH. exact H.
Qed.

Lemma mapSet_keys_present V (k : string) (v : V) (m : list (string * V)) :
  In k (map fst m) -> map fst (mapSet k v m) = map fst m.
Proof.
  induction m as [|[k' v'] m IH]; simpl; [intros []|].
  destruct (String.eqb k' k) eqn:E.
  - reflexivity.
  - apply String.eqb_neq in E. intros [H|H]; [congruence|].
    simpl. f_equal. apply IH. exact H.
Qed.

Lemma mapSet_keys_absent V (k : string) (v : V) (m : list (string * V)) :
  ~ In k (map fst m) -> mapSet k v m = m ++ [(k, v)].
Proof.
  induction m as [|[k' v'] m IH]; simpl; [reflexivity|].
  intro H. destruct (String.eqb k' k) eqn:E.
  - apply String.eqb_eq in E. subst. exfalso. apply H. left. reflexivity.
  - f_equal. apply IH. intro H1. apply H. right. exact H1.
Qed.

Lemma mapSet_In V (k : string) (v : V) (m : list (string * V)) k' v' :
  NoDup (map fst m) ->
  In (k', v') (mapSet k v m) ->
  (k' = k /\ v' = v) \/ (k' <> k /\ In (k', v') m).
Proof.
  induction m as [|[k0 v0] m IH]; simpl; intro Hnd.
  - intros [[= <- <-]|[]]. left. split; reflexivity.
  - inversion Hnd as [|? ? Hnot Hnd']; subst.
    destruct (String.eqb k0 k) eqn:E.
    + apply String.eqb_eq in E. subst k0. simpl.
      intros [[= <- <-]|H]; [left; split; reflexivity|].
      right. split; [|right; exact H].
      intros ->. apply Hnot. apply (in_map fst) in H. exact H.
    + apply String.eqb_neq in E. simpl.
      intros [[= <- <-]|H].
      * right. split; [exact E|left; reflexivity].
      * destruct (IH Hnd' H) as [H1|[H1 H2]]; [left; exact H1|].
        right. split; [exact H1|right; exact H2].
Qed.

Lemma mapSet_In_other V (k : string) (v : V) (m : list (string * V)) k' v' :
  k' <> k -> In (k', v') m -> In (k', v') (mapSet k v m).
Proof.
  intro Hne. induction m as [|[k0 v0] m IH]; simpl; [intros []|].
  destruct (String.eqb k0 k) eqn:E.
  - apply String.eqb_eq in E. subst k0.
    intros [[= <- <-]|H]; [congruence|right; exact H].
  - intros [H|H]; [left; exact H|right; apply IH; exact H].
Qed.

Lemma mapSet_In_same V (k : string) (v : V) (m : list (string * V)) :
  In (k, v) (mapSet k v m).
Proof.
  induction m as [|[k0 v0] m IH]; simpl; [left; reflexivity|].
  destruct (String.eqb k0 k) eqn:E.
  - apply String.eqb_eq in E. subst k0. left. reflexivity.
  - right. exact IH.
Qed.

Lemma mapSet_NoDup V (k : string) (v : V) (m : list (string * V)) :
  NoDup (map fst m) -> NoDup (map fst (mapSet k v m)).
Proof.
  intro Hnd.
  destruct (in_dec string_dec k (map fst m)) as [Hin|Hnot].
  - rewrite (mapSet_keys_present k v m Hin). exact Hnd.
  - rewrite (mapSet_keys_absent k v m Hnot), map_app. simpl.
    apply (Permutation_NoDup (Permutation_cons_append (map fst m) k)).
    constructor; assumption.
Qed.

Lemma ofSymbol_snoc k l p :
  ofSymbol k (l ++ [p])
  = ofSymbol k l
    ++ (if String.eqb (Position.symbol p) k then [p] else []).
Proof.
  unfold ofSymbol. rewrite filter_app. reflexivity.
Qed.

Lemma symbolPnl_snoc_same l p :
  symbolPnl (Position.symbol p) (l ++ [p])
  = symbolPnl (Position.symbol p) l + Position.realizedPnl p.
Proof.
  unfold symbolPnl, Stats.totalPnl.
  rewrite ofSymbol_snoc, String.eqb_refl, fold_left_app. reflexivity.
Qed.

Lemma symbolPnl_snoc_other k l p :
  Position.symbol p <> k -> symbolPnl k (l ++ [p]) = symbolPnl k l.
Proof.
  intro H. unfold symbolPnl. rewrite ofSymbol_snoc.
  apply String.eqb_neq in H. rewrite H, app_nil_r. reflexivity.
Qed.

Lemma ofSymbol_nil k l :
  (forall p, In p l -> Position.symbol p <> k) -> ofSymbol k l = [].
Proof.
  intro H. unfold ofSymbol. induction l as [|p l IH]; simpl; [reflexivity|].
  assert (E : String.eqb (Position.symbol p) k = false).
  { apply String.eqb_neq. apply H. left. reflexivity. }
  rewrite E. apply IH. intros q Hq. apply H. right. exact Hq.
Qed.

Lemma symbolStats_snoc l p :
  Stats.symbolStats (l ++ [p]) = addToSymbolStats (Stats.symbolStats l) p.
Proof.
  unfold Stats.symbolStats. rewrite fold_left_app. reflexivity.
Qed.

Lemma tableOf_step l m p :
  tableOf l m -> tableOf (l ++ [p]) (addToSymbolStats m p).
Proof.
  intros (Hnd & Hval & Hkeys). unfold addToSymbolStats.
  set (k := Position.symbol p).
  set (current := match mapGet k m with Some c => c | None => (0, O) end).
  split; [apply mapSet_NoDup; exact Hnd|]. split.
  - intros k' v' n' Hin.
    destruct (mapSet_In k _ m k' (v', n') Hnd Hin) as [[-> Hv]|[Hne Hold]].
    + injection Hv as -> ->. subst k.
      assert (Hcur : fst current = symbolPnl (Position.symbol p) l
                     /\ snd current
                        = List.length (ofSymbol (Position.symbol p) l)).
      { subst current.
        destruct (mapGet (Position.symbol p) m) as [[v n]|] eqn:Eg.
        - apply mapGet_Some_In in Eg.
          destruct (Hval _ _ _ Eg) as (H1 & H2 & _). split; assumption.
        - apply mapGet_None in Eg.
          assert (Hn : ofSymbol (Position.symbol p) l = []).
          { apply ofSymbol_nil. intros q Hq E. apply Eg. rewrite <- E.
            apply Hkeys. exact Hq. }
          unfold symbolPnl. rewrite Hn. split; reflexivity. }
      destruct Hcur as [Hc1 Hc2].
      split; [rewrite symbolPnl_snoc_same, Hc1; reflexivity|].
      split.
      * rewrite ofSymbol_snoc, String.eqb_refl, length_app, Hc2. simpl. lia.
      * exists p. split; [apply in_or_app; right; left|]; reflexivity.
    + destruct (Hval _ _ _ Hold) as (H1 & H2 & q & Hq & Hs).
      assert (Hne' : Position.symbol p <> k') by (intro E; apply Hne; symmetry; exact E).
      split; [rewrite (@symbolPnl_snoc_other k' l p Hne'); exact H1|].
      split.
      * rewrite ofSymbol_snoc.
        apply String.eqb_neq in Hne'. rewrite Hne', app_nil_r. exact H2.
      * exists q. split; [apply in_or_app; left; exact Hq|exact Hs].
  - intros q Hq. apply in_app_or in Hq.
    destruct (string_dec (Position.symbol q) k) as [E|E].
    + rewrite E.
      apply (in_map fst _ (k, (fst current + Position.realizedPnl p,
                               S (snd current)))).
      apply mapSet_In_same.
    + destruct Hq as [Hq|[<-|[]]]; [|exfalso; apply E; reflexivity].
      apply Hkeys in Hq. apply in_map_iff in Hq.
      destruct Hq as ([k0 v0] & Hk & Hin). simpl in Hk. subst k0.
      apply (in_map fst _ (Position.symbol q, v0)).
      apply mapSet_In_other; assumption.
Qed.

Lemma tableOf_symbolStats l : tableOf l (Stats.symbolStats l).
Proof.
  induction l as [|p l IH] using rev_ind.
  - split; [constructor|]. split; [intros k v n []|intros p []].
  - rewrite symbolStats_snoc. apply tableOf_step. exact IH.
Qed.

Lemma Qltb_true a b : Qltb a b = true -> a < b.
Proof.
  unfold Qltb. destruct (Qle_bool b a) eqn:E; [discriminate|]. intros _.
  apply Qnot_le_lt. intro H. apply Qle_bool_iff in H. congruence.
Qed.

Lemma Qltb_false a b : Qltb a b = false -> b <= a.
Proof.
  unfold Qltb. destruct (Qle_bool b a) eqn:E; [|discriminate]. intros _.
  apply Qle_bool_iff. exact E.
Qed.

Lemma extremes_snoc seen x :
  Stats.extremes (seen ++ [x]) = scanEntry (Stats.extremes seen) x.
Proof.
  unfold Stats.extremes. rewrite fold_left_app. reflexivity.
Qed.

Lemma scanned_step seen e k v n :
  scanned seen e -> scanned (seen ++ [(k, (v, n))]) (scanEntry e (k, (v, n))).
Proof.
  intro H.
  assert (Hgoal :
    exists b w hi lo nb nw,
      Stats.bestSymbol (scanEntry e (k, (v, n))) = Some b
      /\ Stats.worstSymbol (scanEntry e (k, (v, n))) = Some w
      /\ Stats.maxPnl (scanEntry e (k, (v, n))) = Some hi
      /\ Stats.minPnl (scanEntry e (k, (v, n))) = Some lo
      /\ In (b, (hi, nb)) (seen ++ [(k, (v, n))])
      /\ In (w, (lo, nw)) (seen ++ [(k, (v, n))])
      /\ forall k' v' n', In (k', (v', n')) (seen ++ [(k, (v, n))]) ->
                          v' <= hi /\ lo <= v').
  { destruct seen as [|s0 seen'].
    - destruct H as (Hb & Hw & Hhi & Hlo).
      unfold scanEntry. cbn [fst snd]. rewrite Hhi. cbn [Stats.exceeds].
      cbn [Stats.minPnl]. rewrite Hlo. cbn [Stats.isBelow].
      exists k, k, v, v, n, n. cbn.
      repeat (split; [first [reflexivity | left; reflexivity]|]).
      intros k' v' n' [[= <- <- <-]|[]]. split; apply Qle_refl.
    - set (seen := s0 :: seen') in *.
      destruct H as (b & w & hi & lo & nb & nw & Hb & Hw & Hhi & Hlo
                     & Inb & Inw & Hall).
      clearbody seen.
      assert (Hlohi : lo <= hi).
      { destruct (Hall _ _ _ Inb) as [_ H1]. exact H1. }
      unfold scanEntry. cbn [fst snd]. rewrite Hhi. cbn [Stats.exceeds].
      destruct (Qltb hi v) eqn:E1.
      + apply Qltb_true in E1. cbn [Stats.minPnl]. rewrite Hlo.
        cbn [Stats.isBelow].
        assert (E2 : Qltb v lo = false).
        { unfold Qltb. assert (Hle : lo <= v) by lra.
          apply Qle_bool_iff in Hle. rewrite Hle. reflexivity. }
        rewrite E2.
        cbn [Stats.bestSymbol Stats.worstSymbol Stats.maxPnl Stats.minPnl].
        rewrite Hw.
        exists k, w, v, lo, n, nw.
        split; [reflexivity|]. split; [reflexivity|].
        split; [reflexivity|]. split; [reflexivity|].
        split; [apply in_or_app; right; left; reflexivity|].
        split; [apply in_or_app; left; exact Inw|].
        intros k' v' n' Hin. apply in_app_or in Hin.
        destruct Hin as [Hin|[[= <- <- <-]|[]]].
        * destruct (Hall _ _ _ Hin). split; lra.
        * split; lra.
      + apply Qltb_false in E1. rewrite Hlo. cbn [Stats.isBelow].
        destruct (Qltb v lo) eqn:E2.
        * apply Qltb_true in E2.
          cbn [Stats.bestSymbol Stats.worstSymbol Stats.maxPnl Stats.minPnl].
          rewrite Hb, Hhi.
          exists b, k, hi, v, nb, n.
          split; [reflexivity|]. split; [reflexivity|].
          split; [reflexivity|]. split; [reflexivity|].
          split; [apply in_or_app; left; exact Inb|].
          split; [apply in_or_app; right; left; reflexivity|].
          intros k' v' n' Hin. apply in_app_or in Hin.
          destruct Hin as [Hin|[[= <- <- <-]|[]]].
          -- destruct (Hall _ _ _ Hin). split; lra.
          -- split; lra.
        * apply Qltb_false in E2.
          exists b, w, hi, lo, nb, nw.
          split; [exact Hb|]. split; [exact Hw|].
          split; [exact Hhi|]. split; [exact Hlo|].
          split; [apply in_or_app; left; exact Inb|].
          split; [apply in_or_app; left; exact Inw|].
          intros k' v' n' Hin. apply in_app_or in Hin.
          destruct Hin as [Hin|[[= <- <- <-]|[]]].
          -- apply (Hall _ _ _ Hin).
          -- split; assumption. }
  destruct (seen ++ [(k, (v, n))]) eqn:E; [|exact Hgoal].
  exfalso. apply (app_cons_not_nil seen [] (k, (v, n))). symmetry. exact E.
Qed.

Lemma scanned_extremes m : scanned m (Stats.extremes m).
Proof.
  induction m as [|[k [v n]] m IH] using rev_ind.
  - repeat split.
  - rewrite extremes_snoc. apply scanned_step. exact IH.
Qed.

(** X13.  With no closed position the statistics route reports no best
    and no worst symbol.  Otherwise the best symbol is the symbol of a
    closed position whose summed realized PnL no other symbol exceeds, and
    the worst symbol one whose summed realized PnL is exceeded by no
    other.  The sum of a symbol is the one the route computes: the
    realized PnL of its closed positions added one after the other to 0,
    in the order of the listing the route reads. *)
Theorem best_and_worst_symbols (w : World) :
  let closed := selectPositions (db w) (Some CLOSED) in
  exists s,
    Stats.GET w = (Ok s, w)
    /\ (closed = [] ->
        Stats.stats_bestSymbol s = None /\ Stats.stats_worstSymbol s = None)
    /\ (closed <> [] ->
        exists best worst,
          Stats.stats_bestSymbol s = Some best
          /\ Stats.stats_worstSymbol s = Some worst
          /\ (exists p, In p closed /\ Position.symbol p = best)
          /\ (exists p, In p closed /\ Position.symbol p = worst)
          /\ forall p, In p closed ->
               symbolPnl (Position.symbol p) closed <= symbolPnl best closed
               /\ symbolPnl worst closed
                  <= symbolPnl (Position.symbol p) closed).
Proof.
  intro closed. eexists. split; [reflexivity|].
  cbn [Stats.stats_bestSymbol Stats.stats_worstSymbol].
  fold closed.
  pose proof (tableOf_symbolStats closed) as (Hnd & Hval & Hkeys).
  pose proof (scanned_extremes (Stats.symbolStats closed)) as Hscan.
  split.
  - intro E. rewrite E in Hscan |- *. simpl. split; reflexivity.
  - intro Hne.
    destruct (Stats.symbolStats closed) as [|e0 m'] eqn:Em.
    { exfalso. destruct closed as [|p0 c']; [congruence|].
      apply (Hkeys p0). left. reflexivity. }
    destruct Hscan as (b & wo & hi & lo & nb & nw & Hb & Hw & _ & _
                       & Inb & Inw & Hall).
    exists b, wo. split; [exact Hb|]. split; [exact Hw|].
    destruct (Hval _ _ _ Inb) as (Hhi & _ & pb & Hpb & Hsb).
    destruct (Hval _ _ _ Inw) as (Hlo & _ & pw & Hpw & Hsw).
    split; [exists pb; split; [exact Hpb|exact Hsb]|].
    split; [exists pw; split; [exact Hpw|exact Hsw]|].
    intros p Hp.
    pose proof (Hkeys p Hp) as Hk. apply in_map_iff in Hk.
    destruct Hk as ([k0 [v0 n0]] & Hk0 & Hin0). simpl in Hk0. subst k0.
    destruct (Hval _ _ _ Hin0) as (Hv0 & _).
    destruct (Hall _ _ _ Hin0) as [H1 H2].
    rewrite <- Hv0, <- Hhi, <- Hlo. split; assumption.
Qed.

(** ** The feed client *)

Import WsClientOps.

Lemma has_subscribe t s c :
  has t (subscribe s c) = has t c || String.eqb t (toLowerCase s).
Proof.
  unfold subscribe. cbv zeta.
  destruct (has (toLowerCase s) c) eqn:E.
  - destruct (String.eqb t (toLowerCase s)) eqn:Et.
    + apply String.eqb_eq in Et. subst t. rewrite E. reflexivity.
    + rewrite orb_false_r. reflexivity.
  - assert (H : forall c', subscribedSymbols c'
                           = subscribedSymbols c ++ [toLowerCase s] ->
                has t c' = has t c || String.eqb t (toLowerCase s)).
    { intros c' Hc. unfold has. rewrite Hc, existsb_app. simpl.
      rewrite orb_false_r. reflexivity. }
    destruct (ws_open _); apply H; reflexivity.
Qed.

Lemma existsb_filter_neq t k (l : list string) :
  existsb (String.eqb t) (filter (fun s => negb (String.eqb k s)) l)
  = existsb (String.eqb t) l && negb (String.eqb t k).
Proof.
  induction l as [|x l IH]; simpl; [reflexivity|].
  destruct (String.eqb k x) eqn:Ek; simpl.
  - apply String.eqb_eq in Ek. subst x. rewrite IH.
    destruct (String.eqb t k); simpl.
    + rewrite andb_false_r. reflexivity.
    + reflexivity.
  - rewrite IH. apply String.eqb_neq in Ek.
    destruct (String.eqb t x) eqn:Ex; simpl; [|reflexivity].
    apply String.eqb_eq in Ex. subst x.
    assert (E : String.eqb t k = false)
      by (apply String.eqb_neq; intro; subst; apply Ek; reflexivity).
    rewrite E. reflexivity.
Qed.

Lemma has_unsubscribe t s c :
  has t (unsubscribe s c) = has t c && negb (String.eqb t (toLowerCase s)).
Proof.
  unfold unsubscribe. cbv zeta.
  destruct (has (toLowerCase s) c) eqn:E; simpl.
  - assert (H : forall c',
                subscribedSymbols c'
                = filter (fun x => negb (String.eqb (toLowerCase s) x))
                         (subscribedSymbols c) ->
                has t c' = has t c && negb (String.eqb t (toLowerCase s))).
    { intros c' Hc. unfold has. rewrite Hc. apply existsb_filter_neq. }
    destruct (ws_open _); apply H; reflexivity.
  - destruct (String.eqb t (toLowerCase s)) eqn:Et; simpl.
    + apply String.eqb_eq in Et. subst t. rewrite E. reflexivity.
    + rewrite andb_true_r. reflexivity.
Qed.

Lemma has_In t c : has t c = true <-> In t (subscribedSymbols c).
Proof.
  unfold has. rewrite existsb_exists. split.
  - intros (x & Hx & E). apply String.eqb_eq in E. subst. exact Hx.
  - intro H. exists t. split; [exact H|apply String.eqb_refl].
Qed.

Lemma subscribedSymbols_subscribe s c :
  subscribedSymbols (subscribe s c)
  = if has (toLowerCase s) c then subscribedSymbols c
    else subscribedSymbols c ++ [toLowerCase s].
Proof.
  unfold subscribe. cbv zeta.
  destruct (has (toLowerCase s) c); [reflexivity|].
  destruct (ws_open _); reflexivity.
Qed.

Lemma subscribedSymbols_unsubscribe s c :
  subscribedSymbols (unsubscribe s c)
  = filter (fun x => negb (String.eqb (toLowerCase s) x))
           (subscribedSymbols c).
Proof.
  unfold unsubscribe. cbv zeta.
  destruct (has (toLowerCase s) c) eqn:E; simpl.
  - destruct (ws_open _); reflexivity.
  - symmetry. apply forallb_filter_id. apply forallb_forall.
    intros x Hx. destruct (String.eqb (toLowerCase s) x) eqn:Ex;
      [|reflexivity].
    apply String.eqb_eq in Ex. subst x.
    apply has_In in Hx. congruence.
Qed.

Lemma asciiToLower_idem a : asciiToLower (asciiToLower a) = asciiToLower a.
Proof.
  destruct a as [[] [] [] [] [] [] [] []]; reflexivity.
Qed.

Lemma toLowerCase_idem s : toLowerCase (toLowerCase s) = toLowerCase s.
Proof.
  unfold toLowerCase. induction s as [|a s IH]; simpl; [reflexivity|].
  rewrite asciiToLower_idem, IH. reflexivity.
Qed.

(** X14.  The subscriptions of the feed client form a set of lower-case
    symbols: after [subscribe s] exactly the former symbols and the
    lower-cased [s] are subscribed, after [unsubscribe s] exactly the
    former symbols other than it; the list stays free of duplicates and
    lower-case; both calls are idempotent and insensitive to the case of
    their argument; and [unsubscribe] undoes a [subscribe] that added a
    symbol. *)
Theorem subscriptions_form_a_set (s : string) (c : WsClient) :
  (forall t, has t (subscribe s c)
             = has t c || String.eqb t (toLowerCase s))
  /\ (forall t, has t (unsubscribe s c)
                = has t c && negb (String.eqb t (toLowerCase s)))
  /\ (NoDup (subscribedSymbols c) ->
      NoDup (subscribedSymbols (subscribe s c))
      /\ NoDup (subscribedSymbols (unsubscribe s c)))
  /\ (Forall isLowerCase (subscribedSymbols c) ->
      Forall isLowerCase (subscribedSymbols (subscribe s c))
      /\ Forall isLowerCase (subscribedSymbols (unsubscribe s c)))
  /\ (forall t, toLowerCase t = toLowerCase s ->
        subscribe t (subscribe s c) = subscribe s c
        /\ unsubscribe t (unsubscribe s c) = unsubscribe s c)
  /\ (has (toLowerCase s) c = false ->
      subscribedSymbols (unsubscribe s (subscribe s c)) = subscribedSymbols c).
Proof.
  split; [intro t; apply has_subscribe|].
  split; [intro t; apply has_unsubscribe|].
  split.
  { intro Hnd. rewrite subscribedSymbols_subscribe,
      subscribedSymbols_unsubscribe.
    split; [|apply NoDup_filter; exact Hnd].
    destruct (has (toLowerCase s) c) eqn:E; [exact Hnd|].
    apply (Permutation_NoDup (Permutation_cons_append _ _)).
    constructor; [|exact Hnd].
    intro Hin. apply has_In in Hin. congruence. }
  split.
  { intro Hl. rewrite subscribedSymbols_subscribe,
      subscribedSymbols_unsubscribe.
    split.
    - destruct (has (toLowerCase s) c); [exact Hl|].
      apply Forall_app. split; [exact Hl|].
      constructor; [apply toLowerCase_idem|constructor].
    - apply Forall_forall. intros x Hx. apply filter_In in Hx.
      destruct Hx as [Hx _]. rewrite Forall_forall in Hl. apply Hl, Hx. }
  split.
  { intros t Ht. split.
    - unfold subscribe at 1. cbv zeta. rewrite Ht, has_subscribe.
      rewrite String.eqb_refl, orb_true_r. reflexivity.
    - unfold unsubscribe at 1. cbv zeta. rewrite Ht, has_unsubscribe.
      rewrite String.eqb_refl, andb_false_r. reflexivity. }
  intro Hn.
  rewrite subscribedSymbols_unsubscribe, subscribedSymbols_subscribe, Hn.
  rewrite filter_app. simpl. rewrite String.eqb_refl. simpl.
  rewrite app_nil_r. apply forallb_filter_id. apply forallb_forall.
  intros x Hx. destruct (String.eqb (toLowerCase s) x) eqn:Ex; [|reflexivity].
  apply String.eqb_eq in Ex. subst x. apply has_In in Hx. congruence.
Qed.

Lemma StronglySorted_snoc (l : list Z) (x : Z) :
  StronglySorted Z.lt l -> Forall (fun i => (i < x)%Z) l ->
  StronglySorted Z.lt (l ++ [x]).
Proof.
  induction l as [|y l IH]; intros Hs Hf; simpl.
  - constructor; constructor.
  - inversion Hs as [|? ? Hs' Hy]; subst.
    inversion Hf as [|? ? Hyx Hf']; subst.
    constructor; [apply IH; assumption|].
    apply Forall_app. split; [exact Hy|constructor; [exact Hyx|constructor]].
Qed.

Lemma idsInOrder_send method params c :
  (1 <= messageId c)%Z -> idsInOrder c -> idsInOrder (send method params c).
Proof.
  intros H1 [Hs Hf]. unfold idsInOrder, sentIds, send in *.
  cbn [sent messageId]. rewrite map_app. simpl. split.
  - apply StronglySorted_snoc; [exact Hs|].
    eapply Forall_impl; [|exact Hf]. simpl. intros i Hi. lia.
  - apply Forall_app. split.
    + eapply Forall_impl; [|exact Hf]. simpl. intros i Hi. lia.
    + constructor; [lia|constructor].
Qed.

Lemma idsInOrder_same c c' :
  sent c' = sent c -> (messageId c <= messageId c')%Z ->
  idsInOrder c -> idsInOrder c'.
Proof.
  intros Hs Hm [H1 H2]. unfold idsInOrder, sentIds in *. rewrite Hs.
  split; [exact H1|].
  eapply Forall_impl; [|exact H2]. simpl. intros i Hi. lia.
Qed.

Lemma idsInOrder_step c st :
  (1 <= messageId c)%Z /\ idsInOrder c ->
  (1 <= messageId (clientStep c st))%Z /\ idsInOrder (clientStep c st).
Proof.
  intros [H1 Hi]. destruct st as [s|s| | | ]; simpl.
  - unfold subscribe. cbv zeta.
    destruct (has (toLowerCase s) c); [split; assumption|].
    set (c1 := set_subscribed _ c).
    assert (Hc1 : (1 <= messageId c1)%Z /\ idsInOrder c1)
      by (split; [exact H1|exact Hi]).
    destruct (ws_open c1); [|exact Hc1].
    split; [simpl; lia|apply idsInOrder_send; tauto].
  - unfold unsubscribe. cbv zeta.
    destruct (negb (has (toLowerCase s) c)); [split; assumption|].
    set (c1 := set_subscribed _ c).
    assert (Hc1 : (1 <= messageId c1)%Z /\ idsInOrder c1)
      by (split; [exact H1|exact Hi]).
    destruct (ws_open c1); [|exact Hc1].
    split; [simpl; lia|apply idsInOrder_send; tauto].
  - unfold connect. destruct (ws_open c); split; assumption.
  - unfold onOpen, resubscribeAll. cbv zeta. cbn [subscribedSymbols ws_open].
    destruct (subscribedSymbols c) as [|x l] eqn:E.
    + split; assumption.
    + split; [simpl; lia|].
      apply (@idsInOrder_same
               (send SUBSCRIBE (map stream (x :: l))
                  (mkWs true (x :: l) 0 (isIntentionallyClosed c)
                        (messageId c) (sent c) (scheduled c) (signals c))));
        [reflexivity|simpl; lia|].
      apply idsInOrder_send; [exact H1|exact Hi].
  - unfold onClose. cbv zeta. cbn [isIntentionallyClosed].
    destruct (isIntentionallyClosed c); [split; assumption|].
    unfold scheduleReconnect. cbn [reconnectAttempts].
    destruct (maxReconnectAttempts <=? reconnectAttempts c)%nat;
      split; assumption.
Qed.

(** X15.  Whatever the sequence of calls and socket events, the frames
    the feed client has sent carry strictly increasing ids, starting at 1
    or above and below the next id: no two frames share an id. *)
Theorem frame_ids_increase (steps : list ClientStep) :
  let c := fold_left clientStep steps idleWs in
  StronglySorted Z.lt (sentIds c)
  /\ NoDup (sentIds c)
  /\ Forall (fun i => (1 <= i < messageId c)%Z) (sentIds c).
Proof.
  intro c.
  assert (H : (1 <= messageId c)%Z /\ idsInOrder c).
  { subst c.
    assert (H0 : (1 <= messageId idleWs)%Z /\ idsInOrder idleWs).
    { split; [simpl; lia|]. split; constructor. }
    revert H0. generalize idleWs.
    induction steps as [|st steps IH]; intros c0 H0; simpl; [exact H0|].
    apply IH. apply idsInOrder_step. exact H0. }
  destruct H as [_ [Hs Hf]].
  split; [exact Hs|]. split; [|exact Hf].
  clear Hf. induction Hs as [|x l Hs IH Hx]; constructor; [|exact IH].
  intro Hin. rewrite Forall_forall in Hx. specialize (Hx x Hin). lia.
Qed.

Lemma sent_onOpen c :
  sent (onOpen c)
  = match subscribedSymbols c with
    | [] => sent c
    | symbols => sent c ++ [(SUBSCRIBE, map stream symbols, messageId c)]
    end.
Proof.
  unfold onOpen, resubscribeAll. cbv zeta. cbn [subscribedSymbols ws_open].
  destruct (subscribedSymbols c); reflexivity.
Qed.

(** X16.  Subscriptions survive a reconnect.  The socket's close event
    changes neither the subscriptions nor the frames sent; its open event
    keeps the subscriptions and sends one SUBSCRIBE frame naming the
    streams of all of them (none when there are none).  A [subscribe]
    made while the socket is closed sends nothing, and its stream is in
    the frame sent when the socket opens. *)
Theorem reconnect_resubscribes (c : WsClient) :
  subscribedSymbols (onClose c) = subscribedSymbols c
  /\ sent (onClose c) = sent c
  /\ messageId (onClose c) = messageId c
  /\ ws_open (onClose c) = false
  /\ subscribedSymbols (onOpen c) = subscribedSymbols c
  /\ ws_open (onOpen c) = true
  /\ (subscribedSymbols c = [] -> sent (onOpen c) = sent c)
  /\ (subscribedSymbols c <> [] ->
      sent (onOpen c)
      = sent c ++ [(SUBSCRIBE, map stream (subscribedSymbols c), messageId c)])
  /\ (forall s,
        ws_open c = false ->
        sent (subscribe s c) = sent c
        /\ exists frame,
             sent (onOpen (subscribe s c)) = sent c ++ [frame]
             /\ fst (fst frame) = SUBSCRIBE
             /\ In (stream (toLowerCase s)) (frameParams frame)
             /\ forall t, In t (subscribedSymbols c) ->
                          In (stream t) (frameParams frame)).
Proof.
  assert (Hclose : subscribedSymbols (onClose c) = subscribedSymbols c
                   /\ sent (onClose c) = sent c
                   /\ messageId (onClose c) = messageId c
                   /\ ws_open (onClose c) = false).
  { unfold onClose. cbv zeta. cbn [isIntentionallyClosed].
    destruct (isIntentionallyClosed c); [repeat split|].
    unfold scheduleReconnect. cbn [reconnectAttempts].
    destruct (maxReconnectAttempts <=? reconnectAttempts c)%nat;
      repeat split. }
  destruct Hclose as (H1 & H2 & H3 & H4).
  split; [exact H1|]. split; [exact H2|]. split; [exact H3|].
  split; [exact H4|].
  split.
  { unfold onOpen, resubscribeAll. cbv zeta. cbn [subscribedSymbols ws_open].
    destruct (subscribedSymbols c); reflexivity. }
  split.
  { unfold onOpen, resubscribeAll. cbv zeta. cbn [subscribedSymbols ws_open].
    destruct (subscribedSymbols c); reflexivity. }
  split; [intro E; rewrite sent_onOpen, E; reflexivity|].
  split.
  { intro Hne. rewrite sent_onOpen.
    destruct (subscribedSymbols c); [congruence|reflexivity]. }
  intros s Hclosed.
  assert (Hsent : sent (subscribe s c) = sent c).
  { unfold subscribe. cbv zeta.
    destruct (has (toLowerCase s) c); [reflexivity|].
    cbn [ws_open set_subscribed]. rewrite Hclosed. reflexivity. }
  assert (Hid : messageId (subscribe s c) = messageId c).
  { unfold subscribe. cbv zeta.
    destruct (has (toLowerCase s) c); [reflexivity|].
    cbn [ws_open set_subscribed]. rewrite Hclosed. reflexivity. }
  split; [exact Hsent|].
  assert (Hin : In (toLowerCase s) (subscribedSymbols (subscribe s c))).
  { apply has_In. rewrite has_subscribe, String.eqb_refl.
    apply orb_true_r. }
  assert (Hold : forall t, In t (subscribedSymbols c) ->
                           In t (subscribedSymbols (subscribe s c))).
  { intros t Ht. apply has_In. rewrite has_subscribe.
    apply has_In in Ht. rewrite Ht. reflexivity. }
  rewrite sent_onOpen, Hsent, Hid.
  destruct (subscribedSymbols (subscribe s c)) as [|x l] eqn:E; [destruct Hin|].
  eexists. split; [reflexivity|]. split; [reflexivity|].
  unfold frameParams. cbn [fst snd]. split.
  - apply in_map. exact Hin.
  - intros t Ht. apply in_map. apply Hold. exact Ht.
Qed.

(** ** What a tick does to each position *)

Lemma afterPosition_settings q mark now w :
  settings (db (afterPosition q mark now w)) = settings (db w).
Proof.
  unfold afterPosition.
  destruct (Calc.shouldTriggerSL (Position.side q) mark (Position.sl q)).
  - destruct (executeTrigger_db (Position.id q) mark CloseSL now w)
      as [_ [-> | (p0 & fee & n & _ & _ & ->)]]; [reflexivity|].
    destruct n as [|[|[|n]]]; reflexivity.
  - destruct (Calc.shouldTriggerTP (Position.side q) mark
                                   (Position.tp q)); [|reflexivity].
    destruct (executeTrigger_db (Position.id q) mark CloseTP now w)
      as [_ [-> | (p0 & fee & n & _ & _ & ->)]]; [reflexivity|].
    destruct n as [|[|[|n]]]; reflexivity.
Qed.

Lemma afterPosition_target p mark now w :
  uniqueIds (db w) ->
  selectPosition (db w) (Position.id p) = Some p ->
  Position.status p = OPEN ->
  match triggerOf p mark with
  | Some e =>
      exists n,
        db (afterPosition p mark now w)
        = closeStage (db w) p mark (triggerFee (db w) p mark) e now n
        /\ (io w = [] -> n = 3%nat)
  | None => afterPosition p mark now w = w
  end.
Proof.
  intros Hu Hsel Hs. unfold triggerOf, afterPosition.
  destruct (Calc.shouldTriggerSL _ _ _).
  - apply (@executeTrigger_target mark CloseSL now w p Hu Hsel Hs).
  - destruct (Calc.shouldTriggerTP _ _ _); [|reflexivity].
    apply (@executeTrigger_target mark CloseTP now w p Hu Hsel Hs).
Qed.

Lemma forEachPosition_outcome positions mark now p :
  NoDup (map Position.id positions) ->
  In p positions ->
  forall w,
    uniqueIds (db w) ->
    selectPosition (db w) (Position.id p) = Some p ->
    Position.status p = OPEN ->
    let w' := snd (TriggerEngine.forEachPosition positions mark now w) in
    match triggerOf p mark with
    | Some e =>
        io w = [] ->
        selectPosition (db w') (Position.id p)
        = Some (closedRow p mark (triggerFee (db w) p mark) now)
        /\ exists row,
             eventsOf (db w') (Position.id p)
             = eventsOf (db w) (Position.id p) ++ [row]
             /\ Event.event row = closeEventType e
             /\ Event.ts row = now
    | None =>
        selectPosition (db w') (Position.id p) = Some p
        /\ eventsOf (db w') (Position.id p) = eventsOf (db w) (Position.id p)
    end.
Proof.
  induction positions as [|q rest IH]; intros Hnd Hin w Hu Hsel Hs;
    [contradiction|].
  cbv zeta. rewrite forEachPosition_cons.
  simpl in Hnd. inversion Hnd as [|? ? Hq Hrest]; subst.
  destruct (Z.eq_dec (Position.id q) (Position.id p)) as [Heq|Hne].
  - assert (q = p).
    { destruct Hin as [Hin|Hin]; [exact Hin|].
      exfalso. apply Hq. rewrite Heq. now apply in_map. }
    subst q. clear Hin Heq.
    destruct (@forEachPosition_frame (Position.id p) rest mark now Hq
                (afterPosition p mark now w)) as [Hs1 He1].
    pose proof (@afterPosition_target p mark now w Hu Hsel Hs) as Ht.
    destruct (triggerOf p mark) as [e|].
    + intro Hio. destruct Ht as (n & Hdb & Hn). specialize (Hn Hio).
      subst n. rewrite Hs1, He1, Hdb. split.
      * apply select_closeStage; [exact Hsel|lia].
      * exists (closeEventRow (db w) p mark (triggerFee (db w) p mark) e now).
        rewrite eventsOf_closeStage, Z.eqb_refl. simpl.
        split; [reflexivity|]. split; reflexivity.
    + rewrite Hs1, He1, Ht. split; [exact Hsel|reflexivity].
  - assert (Hin' : In p rest).
    { destruct Hin as [->|Hin]; [contradiction | exact Hin]. }
    destruct (@afterPosition_frame q mark now w (Position.id p) Hne)
      as [Hs1 He1].
    pose proof (IH Hrest Hin' (afterPosition q mark now w)
                   (@afterPosition_uniqueIds q mark now w Hu)
                   (eq_trans Hs1 Hsel) Hs) as Hrec.
    cbv zeta in Hrec.
    destruct (triggerOf p mark) as [e|].
    + intro Hio.
      destruct (Hrec (@afterPosition_quiet q mark now w Hio))
        as (Hc & row & Hev & Hty & Hts).
      split.
      * rewrite Hc. unfold triggerFee. rewrite afterPosition_settings.
        reflexivity.
      * exists row. rewrite Hev, He1. repeat split; assumption.
    + destruct Hrec as [Hc He]. split; [exact Hc|].
      rewrite He, He1. reflexivity.
Qed.

Lemma watched_In symbol d p :
  In p (paper_positions d) -> watched symbol p = true ->
  In p (TriggerEngine.positionsOfSymbol (toUpperCase symbol)
          (selectPositions d (Some OPEN)))
  /\ Position.status p = OPEN.
Proof.
  intros Hin Hw. unfold watched in Hw. apply andb_true_iff in Hw.
  destruct Hw as [Hs Hsym].
  assert (Hst : Position.status p = OPEN)
    by (destruct (Position.status p); [reflexivity|discriminate]).
  split; [|exact Hst].
  unfold TriggerEngine.positionsOfSymbol. apply filter_In.
  split; [|exact Hsym]. apply In_selectOpen. split; assumption.
Qed.

Lemma unwatched_not_In symbol d p :
  uniqueIds d ->
  In p (paper_positions d) -> watched symbol p = false ->
  ~ In (Position.id p)
       (map Position.id
          (TriggerEngine.positionsOfSymbol (toUpperCase symbol)
             (selectPositions d (Some OPEN)))).
Proof.
  intros Hu Hin Hw Hmem. apply in_map_iff in Hmem.
  destruct Hmem as (q & Hid & Hq).
  unfold TriggerEngine.positionsOfSymbol in Hq. apply filter_In in Hq.
  destruct Hq as [Hq Hsym]. apply In_selectOpen in Hq.
  destruct Hq as [Hq Hst].
  assert (q = p) by (apply (@unique_id_eq (paper_positions d)); assumption).
  subst q. unfold watched in Hw. rewrite Hst, Hsym in Hw. discriminate.
Qed.



Lemma tick_db symbol mark now w :
  db (tick symbol mark now w)
  = db (snd (TriggerEngine.forEachPosition
               (TriggerEngine.positionsOfSymbol (toUpperCase symbol)
                  (selectPositions (db w) (Some OPEN)))
               mark now
               (set_priceCache w
                  (TriggerEngine.cacheSet (toUpperCase symbol) mark
                                          (priceCache w))))).
Proof.
  unfold tick. rewrite handlePriceUpdate_world, checkTriggersForSymbol_world.
  reflexivity.
Qed.

(** The row and the events of one position after a tick. *)
Lemma tick_row symbol markPrice now w p :
  uniqueIds (db w) ->
  In p (paper_positions (db w)) ->
  let w' := tick symbol markPrice now w in
  let id := Position.id p in
  match (if watched symbol p then triggerOf p markPrice else None) with
  | Some e =>
      io w = [] ->
      selectPosition (db w') id
      = Some (closedRow p markPrice (triggerFee (db w) p markPrice) now)
      /\ exists row,
           eventsOf (db w') id = eventsOf (db w) id ++ [row]
           /\ Event.event row = closeEventType e
           /\ Event.ts row = now
  | None =>
      selectPosition (db w') id = Some p
      /\ eventsOf (db w') id = eventsOf (db w) id
  end.
Proof.
  intros Hu Hin w' id. subst w' id. rewrite tick_db.
  set (w0 := set_priceCache w _).
  assert (Hsel : selectPosition (db w0) (Position.id p) = Some p)
    by (apply select_unique; assumption).
  destruct (watched symbol p) eqn:Hw.
  - destruct (@watched_In symbol (db w) p Hin Hw) as [Hmem Hst].
    assert (Hnd : NoDup (map Position.id
                           (TriggerEngine.positionsOfSymbol
                              (toUpperCase symbol)
                              (selectPositions (db w) (Some OPEN))))).
    { unfold TriggerEngine.positionsOfSymbol. apply NoDup_map_filter.
      apply uniqueIds_selectOpen. exact Hu. }
    pose proof (@forEachPosition_outcome _ markPrice now p Hnd Hmem w0 Hu
                  Hsel Hst) as H.
    cbv zeta in H. exact H.
  - pose proof (@unwatched_not_In symbol (db w) p Hu Hin Hw) as Hnot.
    destruct (@forEachPosition_frame (Position.id p) _ markPrice now Hnot w0)
      as [H1 H2].
    split; [rewrite H1; exact Hsel|exact H2].
Qed.

(** X17.  What a price tick does to each stored position.  An open
    position whose symbol is the upper-cased symbol of the tick and whose
    stop-loss or take-profit predicate holds is closed, when the storage
    layer refuses nothing, at the mark price with the taker fee on the
    closing notional, and one event of the triggered kind is recorded for
    it.  Every other position keeps its row and its events, whatever the
    storage layer does. *)
Theorem tick_outcome symbol markPrice now w p :
  uniqueIds (db w) ->
  In p (paper_positions (db w)) ->
  let w' := tick symbol markPrice now w in
  let id := Position.id p in
  match (if watched symbol p then triggerOf p markPrice else None) with
  | Some e =>
      io w = [] ->
      selectPosition (db w') id
      = Some (closedRow p markPrice (triggerFee (db w) p markPrice) now)
      /\ exists row,
           eventsOf (db w') id = eventsOf (db w) id ++ [row]
           /\ Event.event row = closeEventType e
           /\ Event.ts row = now
  | None =>
      selectPosition (db w') id = Some p
      /\ eventsOf (db w') id = eventsOf (db w) id
  end.
Proof. exact (@tick_row symbol markPrice now w p). Qed.

Lemma tick_outcome_witness :
  selectPosition (db (tick "BTCUSDT" 94 2000 worldS3)) 1
  = Some (closedRow positionS3 94 (triggerFee (db worldS3) positionS3 94) 2000)
  /\ exists row,
       eventsOf (db (tick "BTCUSDT" 94 2000 worldS3)) 1
       = eventsOf (db worldS3) 1 ++ [row]
       /\ Event.event row = SL_TRIGGERED
       /\ Event.ts row = 2000%Z.
Proof.
  assert (Hu : uniqueIds (db worldS3)) by (vm_compute; repeat constructor; intros []).
  assert (Hin : In positionS3 (paper_positions (db worldS3)))
    by (left; reflexivity).
  exact (@tick_outcome "BTCUSDT" 94 2000 worldS3 positionS3 Hu Hin eq_refl).
Defined.


Lemma select_In d id p : selectPosition d id = Some p -> In p (paper_positions d).
Proof.
  unfold selectPosition. intro H. apply find_some in H. tauto.
Qed.

Lemma select_id d id p : selectPosition d id = Some p -> Position.id p = id.
Proof.
  unfold selectPosition. intro H. apply find_some in H.
  destruct H as [_ H]. apply Z.eqb_eq in H. exact H.
Qed.



(** ** What the store operations leave alone *)

Section Frames.

Context {B : Type} (proj : World -> B).
Hypothesis beside : besideStore proj.

Lemma preserves_ret A (a : A) : preserves proj (ret a).
Proof. intro w. reflexivity. Qed.

Lemma preserves_throw A e : preserves proj (@throw A e).
Proof. intro w. reflexivity. Qed.

Lemma preserves_gets A (f : World -> A) : preserves proj (gets f).
Proof. intro w. reflexivity. Qed.

Lemma preserves_bind A C (c : M A) (k : A -> M C) :
  preserves proj c -> (forall a, preserves proj (k a)) ->
  preserves proj (bind c k).
Proof.
  intros Hc Hk w. unfold bind. specialize (Hc w).
  destruct (c w) as [[a|e] w1]; simpl in *; [rewrite Hk|]; exact Hc.
Qed.

Lemma preserves_tryCatch A (c : M A) (h : Error -> M A) :
  preserves proj c -> (forall e, preserves proj (h e)) ->
  preserves proj (tryCatch c h).
Proof.
  intros Hc Hh w. unfold tryCatch. specialize (Hc w).
  destruct (c w) as [[a|e] w1]; simpl in *; [|rewrite Hh]; exact Hc.
Qed.

Lemma preserves_modify (f : World -> World) :
  (forall w, proj (f w) = proj w) -> preserves proj (modify f).
Proof. intros Hf w. apply Hf. Qed.

Lemma preserves_run A (s : Db -> Res (A * Db)) : preserves proj (run s).
Proof.
  destruct beside as [Hdb Hio]. intro w. unfold run.
  destruct (io w) as [|[] rest]; simpl;
    try (destruct (s (db w)) as [[a d]|e]; simpl;
         rewrite ?Hdb, ?Hio; reflexivity).
Qed.

Lemma preserves_closePosition id cp fee ev now :
  preserves proj (closePosition id cp fee ev now).
Proof.
  unfold closePosition, getPositionById, updateWhereId, createFill,
    createEvent.
  apply preserves_bind; [apply preserves_gets|]. intros [p|];
    [|apply preserves_ret].
  destruct (Position.status p); [|apply preserves_ret].
  repeat (apply preserves_bind; [apply preserves_run|intros ?]).
  apply preserves_gets.
Qed.


Lemma preserves_updatePosition id data now :
  preserves proj (updatePosition id data now).
Proof.
  unfold updatePosition, getPositionById, updateWhereId, createEvent.
  cbv zeta. destruct (List.length _ =? 0)%nat; [apply preserves_gets|].
  repeat (apply preserves_bind; [apply preserves_run|intros ?]).
  apply preserves_gets.
Qed.

Lemma preserves_deletePosition id : preserves proj (deletePosition id).
Proof. unfold deletePosition. apply preserves_run. Qed.

Lemma preserves_updateSettings data : preserves proj (updateSettings data).
Proof.
  unfold updateSettings, getSettings. cbv zeta.
  apply preserves_bind; [|intros ?; apply preserves_gets].
  destruct (0 <? _)%nat; [apply preserves_run|apply preserves_ret].
Qed.

End Frames.

Lemma beside_ws : besideStore ws.
Proof. split; reflexivity. Qed.

Lemma beside_priceCache : besideStore priceCache.
Proof. split; reflexivity. Qed.

Lemma beside_emitted : besideStore emitted.
Proof. split; reflexivity. Qed.

(** ** The price cache *)

Lemma mapGet_mapSet_same V k (v : V) m : mapGet k (mapSet k v m) = Some v.
Proof.
  unfold mapGet. induction m as [|[k0 v0] m IH]; simpl.
  - rewrite String.eqb_refl. reflexivity.
  - destruct (String.eqb k0 k) eqn:E; simpl; rewrite E; [reflexivity|exact IH].
Qed.

Lemma mapGet_mapSet_other V k k' (v : V) m :
  k' <> k -> mapGet k' (mapSet k v m) = mapGet k' m.
Proof.
  intro Hne. unfold mapGet. induction m as [|[k0 v0] m IH]; simpl.
  - assert (E : String.eqb k k' = false)
      by (apply String.eqb_neq; intro; apply Hne; symmetry; assumption).
    rewrite E. reflexivity.
  - destruct (String.eqb k0 k) eqn:E; simpl.
    + apply String.eqb_eq in E. subst k0.
      assert (E : String.eqb k k' = false)
        by (apply String.eqb_neq; intro; apply Hne; symmetry; assumption).
      rewrite E. reflexivity.
    + destruct (String.eqb k0 k'); [reflexivity|exact IH].
Qed.

Lemma priceCache_executeTrigger id mark ev now :
  preserves priceCache (TriggerEngine.executeTrigger id mark ev now).
Proof.
  unfold TriggerEngine.executeTrigger, Calc.calculateTakerFee,
    TriggerEngine.unsubscribeFromSymbol, getAllOpenPositions, getPositions,
    getSettings.
  apply preserves_tryCatch; [|intros; apply preserves_ret].
  apply preserves_bind; [apply preserves_gets|]. intros l.
  destruct (find _ l) as [position|]; [|apply preserves_ret].
  apply preserves_bind.
  { apply preserves_bind; [apply preserves_gets|].
    intros; apply preserves_ret. }
  intros fee.
  apply preserves_bind;
    [apply preserves_closePosition; apply beside_priceCache|].
  intros [closed|]; [|apply preserves_ret].
  apply preserves_bind; [apply preserves_modify; reflexivity|]. intros _.
  apply preserves_bind; [apply preserves_gets|]. intros l'.
  destruct (List.length _ =? 0)%nat; [|apply preserves_ret].
  apply preserves_modify. reflexivity.
Qed.

Lemma priceCache_forEachPosition positions mark now :
  preserves priceCache (TriggerEngine.forEachPosition positions mark now).
Proof.
  induction positions as [|q rest IH]; simpl; [apply preserves_ret|].
  destruct (Calc.shouldTriggerSL _ _ _).
  - apply preserves_bind; [apply priceCache_executeTrigger|intros; exact IH].
  - destruct (Calc.shouldTriggerTP _ _ _); [|exact IH].
    apply preserves_bind; [apply priceCache_executeTrigger|intros; exact IH].
Qed.

(** X19.  After a price update [getCachedPrice] returns the mark price
    for every spelling of the symbol that has the same upper-case form,
    and what it returned before for every other symbol. *)
Theorem price_cache_round_trip symbol markPrice ts now w t :
  let w' := snd (TriggerEngine.handlePriceUpdate symbol markPrice ts now w) in
  getCachedPrice t w'
  = (Ok (if String.eqb (toUpperCase t) (toUpperCase symbol)
         then Some markPrice
         else mapGet (toUpperCase t) (priceCache w)), w')
  /\ getCachedPrice symbol w' = (Ok (Some markPrice), w')
  /\ getCachedPrice (toLowerCase (toUpperCase symbol)) w'
     = (Ok (Some markPrice), w').
Proof.
  cbv zeta. rewrite handlePriceUpdate_world, checkTriggersForSymbol_world.
  set (w0 := set_priceCache w _).
  set (l := TriggerEngine.positionsOfSymbol _ _).
  pose proof (@priceCache_forEachPosition l markPrice now w0) as Hc.
  unfold getCachedPrice, gets.
  cbn [priceCache emit]. rewrite Hc. subst w0. cbn [priceCache set_priceCache].
  unfold TriggerEngine.cacheSet.
  assert (Hget : forall t0,
            mapGet (toUpperCase t0)
                   (mapSet (toUpperCase symbol) markPrice (priceCache w))
            = if String.eqb (toUpperCase t0) (toUpperCase symbol)
              then Some markPrice
              else mapGet (toUpperCase t0) (priceCache w)).
  { intro t0. destruct (String.eqb _ _) eqn:E.
    - apply String.eqb_eq in E. rewrite E. apply mapGet_mapSet_same.
    - apply String.eqb_neq in E. apply mapGet_mapSet_other. exact E. }
  split; [rewrite Hget; reflexivity|].
  split; [rewrite Hget, String.eqb_refl; reflexivity|].
  rewrite Hget.
  assert (E : toUpperCase (toLowerCase (toUpperCase symbol))
              = toUpperCase symbol).
  { clear. unfold toUpperCase, toLowerCase.
    induction symbol as [|a s IH]; simpl; [reflexivity|].
    rewrite IH. f_equal.
    destruct a as [[] [] [] [] [] [] [] []]; reflexivity. }
  rewrite E, String.eqb_refl. reflexivity.
Qed.

(** ** Starting the engine *)

Lemma uniqueSymbols_acc (l acc : list string) t :
  existsb (String.eqb t)
    (fold_left
       (fun seen s => if existsb (String.eqb s) seen then seen else seen ++ [s])
       l acc)
  = existsb (String.eqb t) acc || existsb (String.eqb t) l.
Proof.
  revert acc. induction l as [|s l IH]; intro acc; simpl.
  - rewrite orb_false_r. reflexivity.
  - rewrite IH. destruct (existsb (String.eqb s) acc) eqn:E.
    + destruct (String.eqb t s) eqn:Et; simpl; [|reflexivity].
      apply String.eqb_eq in Et. subst t. rewrite E. reflexivity.
    + rewrite existsb_app. simpl. rewrite orb_false_r, orb_assoc.
      reflexivity.
Qed.

Lemma uniqueSymbols_mem l t :
  existsb (String.eqb t) (uniqueSymbols l) = existsb (String.eqb t) l.
Proof. unfold uniqueSymbols. rewrite uniqueSymbols_acc. reflexivity. Qed.

Lemma forEachSymbol_world l w :
  forEachSymbol l w
  = (Ok tt, set_ws w (fold_left (fun c s => subscribe s c) l (ws w))).
Proof.
  revert w. induction l as [|s l IH]; intro w; simpl.
  - destruct w; reflexivity.
  - unfold bind, TriggerEngine.subscribeToSymbol, modify. rewrite IH.
    destruct w; reflexivity.
Qed.

Lemma has_fold_subscribe l c t :
  has t (fold_left (fun c s => subscribe s c) l c)
  = has t c || existsb (fun s => String.eqb t (toLowerCase s)) l.
Proof.
  revert c. induction l as [|s l IH]; intro c; simpl.
  - rewrite orb_false_r. reflexivity.
  - rewrite IH, has_subscribe, orb_assoc. reflexivity.
Qed.

Lemma NoDup_fold_subscribe l c :
  NoDup (subscribedSymbols c) ->
  NoDup (subscribedSymbols (fold_left (fun c s => subscribe s c) l c)).
Proof.
  revert c. induction l as [|s l IH]; intros c H; simpl; [exact H|].
  apply IH. rewrite subscribedSymbols_subscribe.
  destruct (has (toLowerCase s) c) eqn:E; [exact H|].
  apply (Permutation_NoDup (Permutation_cons_append _ _)).
  constructor; [|exact H]. intro Hin. apply has_In in Hin. congruence.
Qed.

(** X20.  Starting the engine never fails and changes only the feed
    client: afterwards exactly the symbols subscribed before and the
    lower-cased symbols of the open positions are subscribed, without
    duplicates; nothing is sent while the socket is closed; and starting
    it again changes nothing. *)
Theorem start_subscribes_open_symbols (w : World) :
  exists c,
    start w = (Ok tt, set_ws w c)
    /\ (forall t,
          has t c = true <->
          has t (ws w) = true
          \/ exists p, In p (paper_positions (db w))
                       /\ Position.status p = OPEN
                       /\ toLowerCase (Position.symbol p) = t)
    /\ (NoDup (subscribedSymbols (ws w)) -> NoDup (subscribedSymbols c))
    /\ (ws_open (ws w) = false -> sent c = sent (ws w))
    /\ snd (start (set_ws w c)) = set_ws w c.
Proof.
  set (symbols := uniqueSymbols
                    (map Position.symbol (selectPositions (db w) (Some OPEN)))).
  assert (Hstart : forall w0, db w0 = db w ->
            start w0
            = (Ok tt, set_ws w0 (fold_left (fun c s => subscribe s c)
                                           symbols (ws w0)))).
  { intros w0 Hdb. unfold start, resubscribeOpenPositions, tryCatch, bind,
      getAllOpenPositions, getPositions, gets.
    rewrite forEachSymbol_world, Hdb. reflexivity. }
  assert (Hmem : forall t c0,
            has t (fold_left (fun c s => subscribe s c) symbols c0) = true <->
            has t c0 = true
            \/ exists p, In p (paper_positions (db w))
                         /\ Position.status p = OPEN
                         /\ toLowerCase (Position.symbol p) = t).
  { intros t c0. rewrite has_fold_subscribe, orb_true_iff.
    apply or_iff_compat_l. rewrite existsb_exists. split.
    - intros (s & Hs & E). apply String.eqb_eq in E.
      assert (Hs' : existsb (String.eqb s) symbols = true)
        by (apply existsb_exists; exists s; split;
            [exact Hs|apply String.eqb_refl]).
      subst symbols. rewrite uniqueSymbols_mem in Hs'.
      apply existsb_exists in Hs'. destruct Hs' as (s' & Hin & E').
      apply String.eqb_eq in E'. subst s'.
      apply in_map_iff in Hin. destruct Hin as (p & Hp & Hin).
      apply In_selectOpen in Hin. destruct Hin as [Hin Hst].
      exists p. split; [exact Hin|]. split; [exact Hst|].
      rewrite Hp. symmetry. exact E.
    - intros (p & Hin & Hst & E).
      assert (Hs' : existsb (String.eqb (Position.symbol p)) symbols = true).
      { subst symbols. rewrite uniqueSymbols_mem. apply existsb_exists.
        exists (Position.symbol p). split; [|apply String.eqb_refl].
        apply in_map. apply In_selectOpen. split; assumption. }
      apply existsb_exists in Hs'. destruct Hs' as (s' & Hin' & E').
      apply String.eqb_eq in E'. subst s'.
      exists (Position.symbol p). split; [exact Hin'|].
      apply String.eqb_eq. symmetry. exact E. }
  eexists. split; [apply Hstart; reflexivity|].
  split; [intro t; apply Hmem|].
  split; [apply NoDup_fold_subscribe|].
  split.
  { intro Hclosed. generalize dependent (ws w). clear.
    induction symbols as [|s l IH]; intros c Hc; simpl; [reflexivity|].
    assert (H1 : ws_open (subscribe s c) = false
                 /\ sent (subscribe s c) = sent c).
    { unfold subscribe. cbv zeta.
      destruct (has (toLowerCase s) c); [split; [exact Hc|reflexivity]|].
      cbn [ws_open set_subscribed]. rewrite Hc. split; [exact Hc|reflexivity]. }
    destruct H1 as [H1 H2]. rewrite (IH _ H1). exact H2. }
  rewrite (Hstart (set_ws w _) eq_refl). cbn [snd ws set_ws].
  set (c := fold_left _ symbols (ws w)).
  assert (Hall : forall s, In s symbols -> has (toLowerCase s) c = true).
  { intros s Hs. subst c. rewrite has_fold_subscribe.
    apply orb_true_iff. right. apply existsb_exists. exists s.
    split; [exact Hs|apply String.eqb_refl]. }
  assert (Hfix : fold_left (fun c s => subscribe s c) symbols c = c).
  { clearbody c. revert Hall. generalize symbols as l.
    induction l as [|s l IH]; intro Hall; simpl; [reflexivity|].
    assert (E : subscribe s c = c).
    { unfold subscribe. cbv zeta. rewrite (Hall s (or_introl eq_refl)).
      reflexivity. }
    rewrite E. apply IH. intros s' Hs'. apply Hall. right. exact Hs'. }
  rewrite Hfix. reflexivity.
Qed.

(** ** The feed subscription across a tick *)

Lemma executeTrigger_ws mark ev now w q :
  uniqueIds (db w) ->
  selectPosition (db w) (Position.id q) = Some q ->
  Position.status q = OPEN ->
  let w' := snd (TriggerEngine.executeTrigger (Position.id q) mark ev now w) in
  (ws w' = ws w
   /\ (io w = [] ->
       exists x, In x (selectPositions (db w') (Some OPEN))
                 /\ Position.symbol x = Position.symbol q))
  \/ (ws w' = unsubscribe (Position.symbol q) (ws w)
      /\ forall x, In x (selectPositions (db w') (Some OPEN)) ->
                   Position.symbol x <> Position.symbol q).
Proof.
  intros Hu Hsel Hs. cbv zeta.
  rewrite executeTrigger_eq, (find_open_unique Hu Hsel Hs).
  set (fee := triggerFee (db w) q mark).
  pose proof (@closePosition_open (Position.id q) mark fee ev now w q Hsel Hs)
    as Hc.
  pose proof (@preserves_closePosition _ ws beside_ws (Position.id q) mark fee
                ev now w) as Hws.
  cbv zeta in Hc.
  destruct (closePosition (Position.id q) mark fee ev now w) as [r w1].
  cbn [fst snd] in Hc, Hws.
  destruct Hc as [(n & _ & (e & ->) & Hdb & Hio) | (-> & Hdb)].
  - left. cbn [snd]. split; [exact Hws|]. intro H. contradiction.
  - cbv zeta. cbn [snd].
    set (w2 := emit _ w1).
    assert (Hdb2 : db w2 = db w1) by reflexivity.
    assert (Hws2 : ws w2 = ws w) by exact Hws.
    destruct (List.length _ =? 0)%nat eqn:E.
    + right. cbn [ws set_ws db]. rewrite Hws2. split; [reflexivity|].
      intros x Hx Hsym. apply Nat.eqb_eq in E.
      apply length_zero_iff_nil in E.
      assert (Hin : In x (filter (fun p => String.eqb (Position.symbol p)
                                                       (Position.symbol q))
                                 (selectPositions (db w2) (Some OPEN)))).
      { apply filter_In. split; [exact Hx|]. apply String.eqb_eq. exact Hsym. }
      rewrite E in Hin. exact Hin.
    + left. split; [exact Hws2|]. intros _.
      apply Nat.eqb_neq in E.
      destruct (filter _ (selectPositions (db w2) (Some OPEN)))
        as [|x l] eqn:Ef; [simpl in E; congruence|].
      assert (Hin : In x (x :: l)) by (left; reflexivity).
      rewrite <- Ef in Hin. apply filter_In in Hin.
      destruct Hin as [Hin Hsym]. apply String.eqb_eq in Hsym.
      exists x. split; assumption.
Qed.

Lemma afterPosition_ws_kept mark now w q r :
  uniqueIds (db w) ->
  selectPosition (db w) (Position.id q) = Some q ->
  Position.status q = OPEN ->
  selectPosition (db w) (Position.id r) = Some r ->
  Position.status r = OPEN ->
  Position.symbol r = Position.symbol q ->
  triggerOf r mark = None ->
  ws (afterPosition q mark now w) = ws w.
Proof.
  intros Hu Hq Hqs Hr Hrs Hsym Hnone.
  destruct (Z.eq_dec (Position.id q) (Position.id r)) as [Heq|Hne].
  - assert (q = r) by (rewrite Heq in Hq; congruence). subst q.
    pose proof (@afterPosition_target r mark now w Hu Hr Hrs) as H.
    rewrite Hnone in H. rewrite H. reflexivity.
  - destruct (@afterPosition_frame q mark now w (Position.id r) Hne)
      as [Hf _].
    assert (Hopen : In r (selectPositions (db (afterPosition q mark now w))
                                          (Some OPEN))).
    { apply In_selectOpen. split; [|exact Hrs].
      apply (@select_In _ (Position.id r)). rewrite Hf. exact Hr. }
    revert Hopen. unfold afterPosition.
    assert (Hcase : forall ev,
              In r (selectPositions
                      (db (snd (TriggerEngine.executeTrigger (Position.id q)
                                  mark ev now w))) (Some OPEN)) ->
              ws (snd (TriggerEngine.executeTrigger (Position.id q) mark ev
                         now w)) = ws w).
    { intros ev Hin.
      destruct (@executeTrigger_ws mark ev now w q Hu Hq Hqs)
        as [[H _]|[_ H]]; [exact H|].
      exfalso. apply (H r Hin). exact Hsym. }
    destruct (Calc.shouldTriggerSL _ _ _); [apply Hcase|].
    destruct (Calc.shouldTriggerTP _ _ _); [apply Hcase|reflexivity].
Qed.

Lemma forEachPosition_ws_kept mark now r positions :
  NoDup (map Position.id positions) ->
  Position.status r = OPEN ->
  triggerOf r mark = None ->
  (forall q, In q positions ->
             Position.status q = OPEN
             /\ Position.symbol q = Position.symbol r) ->
  forall w,
    uniqueIds (db w) ->
    selectPosition (db w) (Position.id r) = Some r ->
    (forall q, In q positions ->
               selectPosition (db w) (Position.id q) = Some q) ->
    ws (snd (TriggerEngine.forEachPosition positions mark now w)) = ws w.
Proof.
  intros Hnd Hrs Hnone Hall.
  induction positions as [|q rest IH]; intros w Hu Hr Hstored;
    [reflexivity|].
  rewrite forEachPosition_cons.
  simpl in Hnd. inversion Hnd as [|? ? Hq Hrest]; subst.
  destruct (Hall q (or_introl eq_refl)) as [Hqs Hsym].
  pose proof (Hstored q (or_introl eq_refl)) as Hqsel.
  assert (Hws : ws (afterPosition q mark now w) = ws w)
    by (apply (@afterPosition_ws_kept mark now w q r); auto).
  assert (Hr' : selectPosition (db (afterPosition q mark now w))
                               (Position.id r) = Some r).
  { destruct (Z.eq_dec (Position.id q) (Position.id r)) as [Heq|Hne].
    - assert (q = r) by (rewrite Heq in Hqsel; congruence). subst q.
      pose proof (@afterPosition_target r mark now w Hu Hr Hrs) as H.
      rewrite Hnone in H. rewrite H. exact Hr.
    - destruct (@afterPosition_frame q mark now w (Position.id r) Hne)
        as [Hf _]. rewrite Hf. exact Hr. }
  rewrite (IH Hrest (fun x Hx => Hall x (or_intror Hx))
              (afterPosition q mark now w)
              (@afterPosition_uniqueIds q mark now w Hu) Hr').
  - exact Hws.
  - intros x Hx.
    assert (Hne : Position.id q <> Position.id x).
    { intro E. apply Hq. rewrite E. apply in_map. exact Hx. }
    destruct (@afterPosition_frame q mark now w (Position.id x) Hne)
      as [Hf _]. rewrite Hf. apply Hstored. right. exact Hx.
Qed.

Lemma tick_ws symbol mark now w :
  ws (tick symbol mark now w)
  = ws (snd (TriggerEngine.forEachPosition
               (TriggerEngine.positionsOfSymbol (toUpperCase symbol)
                  (selectPositions (db w) (Some OPEN)))
               mark now
               (set_priceCache w
                  (TriggerEngine.cacheSet (toUpperCase symbol) mark
                                          (priceCache w))))).
Proof.
  unfold tick. rewrite handlePriceUpdate_world, checkTriggersForSymbol_world.
  reflexivity.
Qed.

Lemma watched_list symbol d :
  uniqueIds d ->
  let l := TriggerEngine.positionsOfSymbol (toUpperCase symbol)
             (selectPositions d (Some OPEN)) in
  NoDup (map Position.id l)
  /\ forall q, In q l <->
               In q (paper_positions d) /\ Position.status q = OPEN
               /\ Position.symbol q = toUpperCase symbol.
Proof.
  intros Hu l. subst l. split.
  - unfold TriggerEngine.positionsOfSymbol. apply NoDup_map_filter.
    apply uniqueIds_selectOpen. exact Hu.
  - intro q. unfold TriggerEngine.positionsOfSymbol.
    rewrite filter_In, In_selectOpen, String.eqb_eq. tauto.
Qed.

Lemma afterPosition_last mark now w q :
  uniqueIds (db w) -> io w = [] ->
  selectPosition (db w) (Position.id q) = Some q ->
  Position.status q = OPEN ->
  triggerOf q mark <> None ->
  (forall x, In x (paper_positions (db w)) -> Position.status x = OPEN ->
             Position.symbol x = Position.symbol q -> x = q) ->
  has (toLowerCase (Position.symbol q)) (ws (afterPosition q mark now w))
  = false.
Proof.
  intros Hu Hio Hq Hqs Htrig Honly.
  assert (Hcase : forall ev,
            has (toLowerCase (Position.symbol q))
                (ws (snd (TriggerEngine.executeTrigger (Position.id q) mark ev
                            now w))) = false).
  { intro ev.
    destruct (@executeTrigger_target mark ev now w q Hu Hq Hqs)
      as (n & Hdb & Hn).
    specialize (Hn Hio). subst n.
    destruct (@executeTrigger_ws mark ev now w q Hu Hq Hqs)
      as [[_ H]|[H _]].
    - exfalso. destruct (H Hio) as (x & Hx & Hsym).
      apply In_selectOpen in Hx. destruct Hx as [Hx Hxs].
      set (w' := snd (TriggerEngine.executeTrigger _ _ _ _ _)) in *.
      assert (Hu' : uniqueIds (db w'))
        by (apply executeTrigger_uniqueIds; exact Hu).
      pose proof (@select_unique (db w') x Hu' Hx) as Hselx.
      destruct (Z.eq_dec (Position.id q) (Position.id x)) as [Heq|Hne].
      + rewrite <- Heq, Hdb in Hselx.
        rewrite (@select_closeStage (db w) q mark _ ev now 3 Hq) in Hselx;
          [|lia].
        injection Hselx as <-. discriminate Hxs.
      + rewrite Hdb, (@select_closeStage_other (db w) q mark _ ev now 3
                        (Position.id x)) in Hselx;
          [|intro E; apply Hne; symmetry; exact E].
        apply Hne. f_equal. symmetry. apply Honly; [|exact Hxs|exact Hsym].
        apply (@select_In _ (Position.id x)). exact Hselx.
    - rewrite H, has_unsubscribe, String.eqb_refl. apply andb_false_r. }
  unfold triggerOf in Htrig. unfold afterPosition.
  destruct (Calc.shouldTriggerSL _ _ _); [apply Hcase|].
  destruct (Calc.shouldTriggerTP _ _ _); [apply Hcase|congruence].
Qed.

Lemma forEachPosition_unsubscribes mark now U positions :
  NoDup (map Position.id positions) ->
  positions <> [] ->
  (forall q, In q positions ->
             Position.status q = OPEN /\ Position.symbol q = U
             /\ triggerOf q mark <> None) ->
  forall w,
    uniqueIds (db w) -> io w = [] ->
    (forall q, In q positions ->
               selectPosition (db w) (Position.id q) = Some q) ->
    (forall x, In x (paper_positions (db w)) -> Position.status x = OPEN ->
               Position.symbol x = U -> In x positions) ->
    has (toLowerCase U)
        (ws (snd (TriggerEngine.forEachPosition positions mark now w)))
    = false.
Proof.
  intros Hnd Hne Hall.
  induction positions as [|q rest IH]; intros w Hu Hio Hstored Hcover;
    [congruence|].
  rewrite forEachPosition_cons.
  simpl in Hnd. inversion Hnd as [|? ? Hq Hrest]; subst.
  destruct (Hall q (or_introl eq_refl)) as (Hqs & Hsym & Htrig).
  pose proof (Hstored q (or_introl eq_refl)) as Hqsel.
  destruct rest as [|q2 rest'].
  - simpl. rewrite <- Hsym.
    apply afterPosition_last; try assumption.
    intros x Hx Hxs Hxsym. rewrite Hsym in Hxsym.
    destruct (Hcover x Hx Hxs Hxsym) as [E|[]]. symmetry. exact E.
  - set (rest := q2 :: rest') in *.
    apply IH.
    + exact Hrest.
    + subst rest. discriminate.
    + intros x Hx. apply Hall. right. exact Hx.
    + apply afterPosition_uniqueIds. exact Hu.
    + apply afterPosition_quiet. exact Hio.
    + intros x Hx.
      assert (Hnx : Position.id q <> Position.id x).
      { intro E. apply Hq. rewrite E. apply in_map. exact Hx. }
      destruct (@afterPosition_frame q mark now w (Position.id x) Hnx)
        as [Hf _]. rewrite Hf. apply Hstored. right. exact Hx.
    + intros x Hx Hxs Hxsym.
      assert (Hu' : uniqueIds (db (afterPosition q mark now w)))
        by (apply afterPosition_uniqueIds; exact Hu).
      pose proof (@select_unique _ x Hu' Hx) as Hselx.
      pose proof (@afterPosition_target q mark now w Hu Hqsel Hqs) as Ht.
      destruct (triggerOf q mark) as [e|]; [|congruence].
      destruct Ht as (n & Hdb & Hn). specialize (Hn Hio). subst n.
      destruct (Z.eq_dec (Position.id q) (Position.id x)) as [Heq|Hnx].
      * exfalso. rewrite <- Heq, Hdb in Hselx.
        rewrite (@select_closeStage (db w) q mark _ e now 3 Hqsel) in Hselx;
          [|lia].
        injection Hselx as <-. discriminate Hxs.
      * rewrite Hdb, (@select_closeStage_other (db w) q mark _ e now 3
                        (Position.id x)) in Hselx;
          [|intro E; apply Hnx; symmetry; exact E].
        apply select_In in Hselx.
        destruct (Hcover x Hselx Hxs Hxsym) as [E|Hin]; [|exact Hin].
        exfalso. apply Hnx. rewrite E. reflexivity.
Qed.

(** X21.  The feed subscription across a tick.  When an open position of
    the tick's symbol is not triggered, or no position is looked at, the
    tick leaves the feed client as it was.  When the storage layer refuses
    nothing and every open position of the symbol is triggered (there
    being one), the symbol is no longer subscribed afterwards. *)
Theorem tick_subscription symbol markPrice now w :
  uniqueIds (db w) ->
  let w' := tick symbol markPrice now w in
  ((exists r, In r (paper_positions (db w)) /\ watched symbol r = true
              /\ triggerOf r markPrice = None) ->
   ws w' = ws w)
  /\ ((forall p, In p (paper_positions (db w)) -> watched symbol p = false) ->
      ws w' = ws w)
  /\ (io w = [] ->
      (exists p, In p (paper_positions (db w)) /\ watched symbol p = true) ->
      (forall p, In p (paper_positions (db w)) -> watched symbol p = true ->
                 triggerOf p markPrice <> None) ->
      has (toLowerCase (toUpperCase symbol)) (ws w') = false).
Proof.
  intros Hu w'. subst w'. rewrite tick_ws.
  set (w0 := set_priceCache w _).
  destruct (@watched_list symbol (db w) Hu) as [Hnd Hmem].
  set (l := TriggerEngine.positionsOfSymbol _ _) in *.
  assert (Hwatched : forall q, In q l <->
                       In q (paper_positions (db w))
                       /\ watched symbol q = true).
  { intro q. rewrite Hmem. unfold watched.
    rewrite andb_true_iff, String.eqb_eq.
    destruct (Position.status q); simpl; intuition congruence. }
  split; [|split].
  - intros (r & Hr & Hw & Hnone).
    assert (Hrl : In r l) by (apply Hwatched; split; assumption).
    apply Hmem in Hrl. destruct Hrl as (_ & Hrs & Hrsym).
    change (ws w) with (ws w0).
    apply (@forEachPosition_ws_kept markPrice now r l Hnd Hrs Hnone).
    + intros q Hq. apply Hmem in Hq. destruct Hq as (_ & Hqs & Hqsym).
      split; [exact Hqs|congruence].
    + exact Hu.
    + apply (@select_unique (db w)); assumption.
    + intros q Hq. apply Hmem in Hq. destruct Hq as (Hq & _).
      apply (@select_unique (db w)); assumption.
  - intro Hnone.
    assert (El : l = []).
    { destruct l as [|q l']; [reflexivity|]. exfalso.
      assert (Hq : In q (q :: l')) by (left; reflexivity).
      apply Hwatched in Hq. destruct Hq as [Hq Hw].
      rewrite (Hnone q Hq) in Hw. discriminate. }
    rewrite El. reflexivity.
  - intros Hio (p & Hp & Hw) Hall.
    apply (@forEachPosition_unsubscribes markPrice now (toUpperCase symbol) l
             Hnd).
    + intro El. assert (Hin : In p l) by (apply Hwatched; split; assumption).
      rewrite El in Hin. exact Hin.
    + intros q Hq. pose proof Hq as Hq'. apply Hmem in Hq.
      destruct Hq as (Hq & Hqs & Hqsym).
      split; [exact Hqs|]. split; [exact Hqsym|].
      apply Hall; [exact Hq|]. apply Hwatched in Hq'. tauto.
    + exact Hu.
    + exact Hio.
    + intros q Hq. apply Hmem in Hq. destruct Hq as (Hq & _).
      apply (@select_unique (db w)); assumption.
    + intros x Hx Hxs Hxsym. apply Hmem. tauto.
Qed.

Lemma tick_subscription_witness :
  has "btcusdt" (ws worldS1posted) = true
  /\ has "btcusdt" (ws (tick "BTCUSDT" 94 2000 worldS1posted)) = false.
Proof.
  split; [reflexivity|].
  assert (Hu : uniqueIds (db worldS1posted))
    by (vm_compute; repeat constructor; intros []).
  destruct (@tick_subscription "BTCUSDT" 94 2000 worldS1posted Hu)
    as (_ & _ & H).
  apply H.
  - reflexivity.
  - eexists. split; [left; reflexivity|reflexivity].
  - intros p [<-|[]] _. vm_compute. discriminate.
Defined.

(** ** The close route *)



(** ** The routes on one position *)

Lemma hasPosition_none d id :
  selectPosition d id = None -> hasPosition d id = false.
Proof.
  unfold hasPosition, selectPosition. intro H.
  rewrite existsb_find_id, H. reflexivity.
Qed.

Lemma afterUpdate_absent d id f :
  selectPosition d id = None -> afterUpdate d id f = d.
Proof.
  unfold selectPosition, afterUpdate, set_positions. intro H.
  assert (E : map (updateRow id f) (paper_positions d) = paper_positions d).
  { induction (paper_positions d) as [|p l IH]; simpl in *; [reflexivity|].
    unfold updateRow at 1.
    destruct (Position.id p =? id)%Z; [discriminate|].
    rewrite IH; [reflexivity|exact H]. }
  rewrite E. destruct d; reflexivity.
Qed.

Lemma consumed_quiet w : io w = [] -> consumed w = w.
Proof.
  intro H. unfold consumed, set_io. rewrite H. destruct w; simpl in *.
  rewrite H. reflexivity.
Qed.

(** X23.  The routes on one position.  GET answers 200 with the row or
    404.  PATCH on an unknown id answers 404 only when the body provides
    no field; when it provides one the foreign key of the event fails and
    the answer is 500, nothing being changed.  PATCH on a stored position
    answers 200 with the row carrying the provided fields, leaves every
    other position alone and records one event (none for an empty body).
    DELETE answers 200 when the position was stored and 404 otherwise, and
    leaves the store without the position. *)
Theorem position_route id body now w :
  (PositionRoute.GET id w
   = (Ok (match selectPosition (db w) id with
          | Some p => Reply200 p
          | None => ReplyError 404 "Position not found" None
          end), w))
  /\ (selectPosition (db w) id = None -> providesField body = false ->
      PositionRoute.PATCH id body now w
      = (Ok (ReplyError 404 "Position not found" None), w))
  /\ (selectPosition (db w) id = None -> providesField body = true ->
      io w = [] ->
      PositionRoute.PATCH id body now w
      = (Ok (ReplyError 500 "Failed to update position"
               (Some SqliteConstraintForeignKey)), w))
  /\ (forall p,
        selectPosition (db w) id = Some p -> io w = [] ->
        exists w',
          PositionRoute.PATCH id body now w
          = (Ok (Reply200 (if providesField body then applyUpdates body p
                           else p)), w')
          /\ (forall j, j <> id ->
                selectPosition (db w') j = selectPosition (db w) j)
          /\ List.length (eventsOf (db w') id)
             = (List.length (eventsOf (db w) id)
                + if providesField body then 1 else 0)%nat)
  /\ (io w = [] ->
      PositionRoute.DELETE id w
      = (Ok (if hasPosition (db w) id then Reply200 true
             else ReplyError 404 "Position not found" None),
         set_db w (withoutPosition (db w) id))).
Proof.
  split; [|split; [|split; [|split]]].
  - unfold PositionRoute.GET, tryCatch, bind, getPositionById, gets.
    cbn [fst snd]. destruct (selectPosition (db w) id); reflexivity.
  - intros Hsel Hp. destruct body as [[sl|] [tp|]]; try discriminate.
    unfold PositionRoute.PATCH, tryCatch, bind. rewrite updatePosition_empty.
    rewrite Hsel. reflexivity.
  - intros Hsel Hp Hio.
    unfold PositionRoute.PATCH, tryCatch.
    rewrite (@updatePosition_unfold id body now Hp). unfold bind.
    destruct (updateWhereId_cases id (applyUpdates body) w)
      as [(e & _ & Hne) | He]; [contradiction|]. rewrite He.
    rewrite (@consumed_quiet w Hio), (@afterUpdate_absent (db w) id _ Hsel).
    assert (Ew : set_db w (db w) = w) by (destruct w; reflexivity).
    rewrite Ew. unfold createEvent, run. rewrite Hio.
    rewrite (@hasPosition_none (db w) id Hsel). cbn.
    assert (Ew2 : set_io w [] = w)
      by (unfold set_io; rewrite <- Hio; destruct w; reflexivity).
    rewrite Ew2. reflexivity.
  - intros p Hsel Hio. destruct (providesField body) eqn:Hp.
    + unfold PositionRoute.PATCH, tryCatch.
      rewrite (@updatePosition_unfold id body now Hp). unfold bind.
      destruct (updateWhereId_cases id (applyUpdates body) w)
        as [(e & _ & Hne) | He]; [contradiction|]. rewrite He.
      rewrite (@consumed_quiet w Hio).
      set (d1 := afterUpdate (db w) id (applyUpdates body)).
      set (w1 := set_db w d1).
      assert (Hhas : hasPosition (db w1) id = true).
      { subst w1 d1. cbn [db set_db].
        rewrite hasPosition_afterUpdate by apply keepsId_applyUpdates.
        apply (@hasPosition_select (db w) id p Hsel). }
      destruct (createEvent_cases id (updateEventType body)
                  (PayloadUpdated body) now w1 Hhas)
        as [(e & _ & Hne) | He2]; [exfalso; apply Hne; exact Hio|].
      rewrite He2. unfold getPositionById, gets. cbn [fst snd].
      set (row := Event.mk (seq_events (db w1) + 1) id (updateEventType body)
                           (PayloadUpdated body) now) in *.
      set (w2 := set_db (consumed w1) (addEvent (db w1) row)) in *.
      assert (Hsel2 : selectPosition (db w2) id
                      = Some (applyUpdates body p)).
      { change (selectPosition (db w2) id) with (selectPosition d1 id).
        apply select_afterUpdate;
          [apply keepsId_applyUpdates|exact Hsel]. }
      rewrite Hsel2. exists w2. split; [reflexivity|]. split.
      * intros j Hj.
        change (selectPosition (db w2) j) with (selectPosition d1 j).
        unfold selectPosition, d1, afterUpdate.
        cbn [paper_positions set_positions].
        apply find_updateRow_other; [apply keepsId_applyUpdates|exact Hj].
      * change (eventsOf (db w2) id)
          with (filter (fun e => (Event.positionId e =? id)%Z)
                       (paper_events (db w) ++ [row])).
        rewrite filter_app, length_app. cbn [filter Event.positionId row].
        rewrite Z.eqb_refl. reflexivity.
    + destruct body as [[sl|] [tp|]]; try discriminate.
      unfold PositionRoute.PATCH, tryCatch, bind.
      rewrite updatePosition_empty, Hsel.
      exists w. split; [reflexivity|]. split; [reflexivity|lia].
  - intro Hio. unfold PositionRoute.DELETE, tryCatch, bind, deletePosition,
      run.
    rewrite Hio. cbn [tl fst snd].
    assert (Ew2 : set_io w [] = w)
      by (unfold set_io; rewrite <- Hio; destruct w; reflexivity).
    rewrite Ew2. fold (withoutPosition (db w) id).
    destruct (hasPosition (db w) id); reflexivity.
Qed.

(** ** The create route, accepted requests *)




(** ** The event stream after a tick *)

Lemma executeTrigger_ids id mark ev now w :
  map Position.id
      (paper_positions (db (snd (TriggerEngine.executeTrigger id mark ev now
                                   w))))
  = map Position.id (paper_positions (db w)).
Proof.
  destruct (executeTrigger_db id mark ev now w)
    as [_ [-> | (p0 & fee & n & _ & _ & ->)]]; [reflexivity|].
  apply positions_closeStage_ids.
Qed.

Lemma tick_ids symbol mark now w :
  map Position.id (paper_positions (db (tick symbol mark now w)))
  = map Position.id (paper_positions (db w)).
Proof.
  rewrite tick_db. set (w0 := set_priceCache w _).
  change (paper_positions (db w)) with (paper_positions (db w0)).
  generalize w0.
  induction (TriggerEngine.positionsOfSymbol _ _) as [|q l IH]; intro w1;
    [reflexivity|].
  rewrite forEachPosition_cons, IH. unfold afterPosition.
  destruct (Calc.shouldTriggerSL _ _ _); [apply executeTrigger_ids|].
  destruct (Calc.shouldTriggerTP _ _ _);
    [apply executeTrigger_ids|reflexivity].
Qed.

Lemma tick_select symbol mark now w p :
  uniqueIds (db w) -> io w = [] ->
  In p (paper_positions (db w)) ->
  selectPosition (db (tick symbol mark now w)) (Position.id p)
  = Some (afterTick symbol mark now (db w) p).
Proof.
  intros Hu Hio Hin.
  pose proof (@tick_row symbol mark now w p Hu Hin) as H.
  cbv zeta in H. unfold afterTick.
  destruct (if watched symbol p then triggerOf p mark else None).
  - apply H. exact Hio.
  - apply H.
Qed.

Lemma rows_by_id (f : Position.t -> Position.t) (l : list Position.t) :
  NoDup (map Position.id l) ->
  forall l',
    map Position.id l' = map Position.id l ->
    (forall p, In p l ->
               find (fun q => (Position.id q =? Position.id p)%Z) l'
               = Some (f p)) ->
    l' = map f l.
Proof.
  induction l as [|p r IH]; intros Hnd l' Hids Hsel.
  - destruct l'; [reflexivity | discriminate].
  - destruct l' as [|x r']; [discriminate|].
    simpl in Hids. injection Hids as Hx Hr.
    inversion Hnd as [|? ? Hp Hnd']; subst.
    pose proof (Hsel p (or_introl eq_refl)) as Hhead.
    simpl in Hhead. rewrite Hx, Z.eqb_refl in Hhead.
    injection Hhead as ->. simpl. f_equal.
    apply IH; [exact Hnd' | exact Hr |].
    intros q Hq. specialize (Hsel q (or_intror Hq)). simpl in Hsel.
    destruct (Position.id (f p) =? Position.id q)%Z eqn:E; [|exact Hsel].
    apply Z.eqb_eq in E. exfalso. apply Hp. rewrite <- Hx, E.
    apply in_map. exact Hq.
Qed.

(** The rows a tick leaves in the store, in the order of the store. *)
Lemma tick_positions symbol mark now w :
  uniqueIds (db w) -> io w = [] ->
  paper_positions (db (tick symbol mark now w))
  = map (afterTick symbol mark now (db w)) (paper_positions (db w)).
Proof.
  intros Hu Hio. apply rows_by_id.
  - exact Hu.
  - apply tick_ids.
  - intros p Hp. apply (@tick_select symbol mark now w p Hu Hio Hp).
Qed.

Lemma afterTick_streamed symbol mark now d p :
  statusEqb (Position.status (afterTick symbol mark now d p)) OPEN
  && String.eqb (Position.symbol (afterTick symbol mark now d p)) symbol
  = streamed symbol mark p
  /\ (streamed symbol mark p = true -> afterTick symbol mark now d p = p).
Proof.
  unfold afterTick, streamed.
  destruct (watched symbol p); [|rewrite andb_true_r; split; reflexivity].
  destruct (triggerOf p mark).
  - split; [|rewrite andb_false_r; discriminate].
    rewrite andb_false_r. reflexivity.
  - rewrite andb_true_r. split; reflexivity.
Qed.

Lemma filter_perm A (f : A -> bool) (l1 l2 : list A) :
  Permutation l1 l2 -> Permutation (filter f l1) (filter f l2).
Proof.
  induction 1 as [|x l l' _ IH|x y l|l l' l'' _ IH1 _ IH2]; simpl.
  - constructor.
  - destruct (f x); [constructor|]; exact IH.
  - destruct (f x), (f y); try reflexivity. constructor.
  - exact (Permutation_trans IH1 IH2).
Qed.

Lemma updates_afterTick symbol mark now d (l : list Position.t) :
  map (StreamRoute.positionUpdate mark)
      (filter (fun q => String.eqb (Position.symbol q) symbol)
              (filter (fun q => statusEqb (Position.status q) OPEN)
                      (map (afterTick symbol mark now d) l)))
  = map (StreamRoute.positionUpdate mark) (filter (streamed symbol mark) l).
Proof.
  induction l as [|p l IH]; [reflexivity|].
  destruct (afterTick_streamed symbol mark now d p) as [Hs Hsame].
  cbn [map filter].
  destruct (streamed symbol mark p) eqn:E.
  - rewrite (Hsame eq_refl) in Hs |- *.
    apply andb_true_iff in Hs. destruct Hs as [Ho Hy].
    rewrite Ho. cbn [filter]. rewrite Hy. cbn [map]. f_equal. exact IH.
  - destruct (statusEqb (Position.status (afterTick symbol mark now d p))
                        OPEN); [|exact IH].
    cbn [filter]. simpl in Hs. rewrite Hs. exact IH.
Qed.

(** X25.  The event stream after a tick.  The listener runs when the
    engine emits the price update, that is on the store the tick leaves
    behind.  When the storage layer refuses nothing, it sends exactly one
    [position-update] for each open position whose stored symbol is the
    symbol of the update and which the tick did not close, and nothing
    else.  The unrealized PnL it reports is the expression from which
    closing at that price subtracts the fees and the funding. *)
Theorem stream_after_tick symbol markPrice now w :
  uniqueIds (db w) -> io w = [] ->
  let w' := tick symbol markPrice now w in
  exists messages,
    StreamRoute.handlePriceUpdate symbol markPrice w' = (Ok messages, w')
    /\ Permutation messages
         (map (fun p => StreamRoute.PositionUpdateMessage
                          (StreamRoute.positionUpdate markPrice p))
              (filter (streamed symbol markPrice) (paper_positions (db w))))
    /\ (forall p fee,
          StreamRoute.unrealizedPnl (StreamRoute.positionUpdate markPrice p)
          - Position.feesOpen p - fee - Position.fundingPnl p
          = realizedPnlOf p markPrice fee).
Proof.
  intros Hu Hio w'.
  eexists. split; [reflexivity|]. split.
  - rewrite <- (map_map (StreamRoute.positionUpdate markPrice)
                        StreamRoute.PositionUpdateMessage).
    rewrite <- (map_map (StreamRoute.positionUpdate markPrice)
                        StreamRoute.PositionUpdateMessage
                        (filter (streamed symbol markPrice) _)).
    apply Permutation_map.
    rewrite <- (@updates_afterTick symbol markPrice now (db w)
                  (paper_positions (db w))).
    rewrite <- (@tick_positions symbol markPrice now w Hu Hio).
    apply Permutation_map. apply filter_perm.
    apply orderByEntryTimeDesc_perm.
  - intros p fee. unfold StreamRoute.positionUpdate, calculatePnLData,
      realizedPnlOf, Calc.calculateUnrealizedPnL.
    cbn [StreamRoute.unrealizedPnl].
    destruct (Position.side p); reflexivity.
Qed.

Lemma stream_after_tick_witness :
  exists messages,
    StreamRoute.handlePriceUpdate "BTCUSDT" 101
      (tick "BTCUSDT" 101 2000 worldS1posted)
    = (Ok messages, tick "BTCUSDT" 101 2000 worldS1posted)
    /\ Permutation messages
         (map (fun p => StreamRoute.PositionUpdateMessage
                          (StreamRoute.positionUpdate 101 p))
              (filter (streamed "BTCUSDT" 101)
                      (paper_positions (db worldS1posted)))).
Proof.
  assert (Hu : uniqueIds (db worldS1posted))
    by (vm_compute; repeat constructor; intros []).
  destruct (@stream_after_tick "BTCUSDT" 101 2000 worldS1posted Hu eq_refl)
    as (messages & H1 & H2 & _).
  exists messages. split; [exact H1|exact H2].
Defined.

(** ** What the engine announces *)

Lemma executeTrigger_emitted mark ev now w q :
  uniqueIds (db w) -> io w = [] ->
  selectPosition (db w) (Position.id q) = Some q ->
  Position.status q = OPEN ->
  emitted (snd (TriggerEngine.executeTrigger (Position.id q) mark ev now w))
  = emitted w
    ++ [TriggerExecuted (Position.id q) ev mark
          (realizedPnlOf q mark (triggerFee (db w) q mark))].
Proof.
  intros Hu Hio Hsel Hs.
  rewrite executeTrigger_eq, (find_open_unique Hu Hsel Hs).
  set (fee := triggerFee (db w) q mark).
  pose proof (@closePosition_open (Position.id q) mark fee ev now w q Hsel Hs)
    as Hc.
  pose proof (@preserves_closePosition _ emitted beside_emitted
                (Position.id q) mark fee ev now w) as Hem.
  cbv zeta in Hc.
  destruct (closePosition (Position.id q) mark fee ev now w) as [r w1].
  cbn [fst snd] in Hc, Hem.
  destruct Hc as [(n & _ & _ & _ & Hne) | (-> & _)]; [contradiction|].
  cbv zeta. cbn [snd].
  destruct (List.length _ =? 0)%nat; cbn [emitted set_ws emit];
    rewrite Hem; reflexivity.
Qed.

Lemma afterPosition_emitted mark now w q :
  uniqueIds (db w) -> io w = [] ->
  selectPosition (db w) (Position.id q) = Some q ->
  Position.status q = OPEN ->
  emitted (afterPosition q mark now w)
  = emitted w ++ announcement (db w) mark q.
Proof.
  intros Hu Hio Hsel Hs. unfold afterPosition, announcement, triggerOf.
  destruct (Calc.shouldTriggerSL _ _ _).
  - apply executeTrigger_emitted; assumption.
  - destruct (Calc.shouldTriggerTP _ _ _).
    + apply executeTrigger_emitted; assumption.
    + rewrite app_nil_r. reflexivity.
Qed.

Lemma announcement_settings d d' mark q :
  settings d' = settings d -> announcement d' mark q = announcement d mark q.
Proof.
  intro H. unfold announcement, triggerFee. rewrite H. reflexivity.
Qed.

Lemma forEachPosition_emitted mark now positions :
  NoDup (map Position.id positions) ->
  (forall q, In q positions -> Position.status q = OPEN) ->
  forall w,
    uniqueIds (db w) -> io w = [] ->
    (forall q, In q positions ->
               selectPosition (db w) (Position.id q) = Some q) ->
    emitted (snd (TriggerEngine.forEachPosition positions mark now w))
    = emitted w ++ flat_map (announcement (db w) mark) positions.
Proof.
  intros Hnd Hopen.
  induction positions as [|q rest IH]; intros w Hu Hio Hstored.
  - simpl. rewrite app_nil_r. reflexivity.
  - rewrite forEachPosition_cons.
    simpl in Hnd. inversion Hnd as [|? ? Hq Hrest]; subst.
    rewrite (IH Hrest (fun x Hx => Hopen x (or_intror Hx))
                (afterPosition q mark now w)
                (@afterPosition_uniqueIds q mark now w Hu)
                (@afterPosition_quiet q mark now w Hio)).
    + rewrite (@afterPosition_emitted mark now w q Hu Hio
                 (Hstored q (or_introl eq_refl))
                 (Hopen q (or_introl eq_refl))).
      simpl. rewrite <- app_assoc. f_equal. f_equal.
      apply flat_map_ext. intro x. apply announcement_settings.
      apply afterPosition_settings.
    + intros x Hx.
      assert (Hnx : Position.id q <> Position.id x).
      { intro E. apply Hq. rewrite E. apply in_map. exact Hx. }
      destruct (@afterPosition_frame q mark now w (Position.id x) Hnx)
        as [Hf _]. rewrite Hf. apply Hstored. right. exact Hx.
Qed.

(** X27.  What the engine announces on a tick, the storage layer
    refusing nothing: after the events emitted before, one
    [triggerExecuted] for each position the tick closes, in the order in
    which they were looked at, with the kind of trigger, the mark price
    and the realized PnL, and then the price update.  The stream passes
    each on as one message.  No other [triggerExecuted] is emitted. *)
Theorem tick_announcements symbol markPrice ts now w :
  uniqueIds (db w) -> io w = [] ->
  let w' := snd (TriggerEngine.handlePriceUpdate symbol markPrice ts now w) in
  let looked :=
    TriggerEngine.positionsOfSymbol (toUpperCase symbol)
      (selectPositions (db w) (Some OPEN)) in
  emitted w'
  = emitted w ++ flat_map (announcement (db w) markPrice) looked
    ++ [PriceUpdate symbol markPrice ts]
  /\ (forall p e,
        In p (paper_positions (db w)) -> watched symbol p = true ->
        triggerOf p markPrice = Some e ->
        In (TriggerExecuted (Position.id p) e markPrice
              (realizedPnlOf p markPrice (triggerFee (db w) p markPrice)))
           (emitted w')
        /\ fst (StreamRoute.handleTriggerExecuted
                  (TriggerExecuted (Position.id p) e markPrice
                     (realizedPnlOf p markPrice
                        (triggerFee (db w) p markPrice))) w')
           = Ok [StreamRoute.TriggerExecutedMessage
                   (TriggerExecuted (Position.id p) e markPrice
                      (realizedPnlOf p markPrice
                         (triggerFee (db w) p markPrice)))])
  /\ (forall id e price pnl,
        In (TriggerExecuted id e price pnl) (emitted w') ->
        ~ In (TriggerExecuted id e price pnl) (emitted w) ->
        exists p, In p (paper_positions (db w)) /\ Position.id p = id
                  /\ watched symbol p = true
                  /\ triggerOf p markPrice = Some e /\ price = markPrice).
Proof.
  intros Hu Hio w' looked.
  destruct (@watched_list symbol (db w) Hu) as [Hnd Hmem].
  fold looked in Hnd, Hmem.
  assert (Hem : emitted w'
                = emitted w ++ flat_map (announcement (db w) markPrice) looked
                  ++ [PriceUpdate symbol markPrice ts]).
  { subst w'. rewrite handlePriceUpdate_world, checkTriggersForSymbol_world.
    cbn [emitted emit].
    set (w0 := set_priceCache w _).
    change (TriggerEngine.positionsOfSymbol (toUpperCase symbol)
              (selectPositions (db w0) (Some OPEN))) with looked.
    rewrite (@forEachPosition_emitted markPrice now looked Hnd
               (fun q Hq => proj1 (proj2 (proj1 (Hmem q) Hq))) w0 Hu Hio).
    - rewrite <- app_assoc. reflexivity.
    - intros q Hq. apply Hmem in Hq. destruct Hq as (Hq & _).
      apply (@select_unique (db w)); assumption. }
  split; [exact Hem|]. split.
  - intros p e Hp Hw Ht. split; [|reflexivity].
    rewrite Hem. apply in_or_app. right. apply in_or_app. left.
    apply in_flat_map. exists p. split.
    + apply (@watched_In symbol (db w) p Hp Hw).
    + unfold announcement. rewrite Ht. left. reflexivity.
  - intros id e price pnl Hin Hold. rewrite Hem in Hin.
    apply in_app_or in Hin. destruct Hin as [Hin|Hin]; [contradiction|].
    apply in_app_or in Hin. destruct Hin as [Hin|[Hin|[]]];
      [|discriminate Hin].
    apply in_flat_map in Hin. destruct Hin as (p & Hp & Hin).
    unfold announcement in Hin.
    destruct (triggerOf p markPrice) as [e'|] eqn:Ht; [|destruct Hin].
    destruct Hin as [[= <- <- <- <-]|[]].
    apply Hmem in Hp. destruct Hp as (Hp & Hst & Hsym).
    exists p. split; [exact Hp|]. split; [reflexivity|].
    split; [|split; [exact Ht|reflexivity]].
    unfold watched. rewrite Hst, Hsym, String.eqb_refl. reflexivity.
Qed.

Lemma tick_announcements_witness :
  emitted (snd (TriggerEngine.handlePriceUpdate "BTCUSDT" 94 5000 2000
                  worldS3))
  = emitted worldS3
    ++ flat_map (announcement (db worldS3) 94)
         (TriggerEngine.positionsOfSymbol (toUpperCase "BTCUSDT")
            (selectPositions (db worldS3) (Some OPEN)))
    ++ [PriceUpdate "BTCUSDT" 94 5000].
Proof.
  assert (Hu : uniqueIds (db worldS3))
    by (vm_compute; repeat constructor; intros []).
  exact (proj1 (@tick_announcements "BTCUSDT" 94 5000 2000 worldS3 Hu
                  eq_refl)).
Defined.

(** ** Closed positions are history *)

Lemma select_createStage_old d data side E fee now n id p :
  selectPosition d id = Some p ->
  selectPosition (createStage d data side E fee now n) id = Some p.
Proof.
  intro Hsel.
  assert (H1 : selectPosition
                 (addPosition d (newPositionRow d data side E fee now)) id
               = Some p).
  { unfold selectPosition, addPosition in *. cbn [paper_positions].
    induction (paper_positions d) as [|q l IH]; simpl in *; [discriminate|].
    destruct (Position.id q =? id)%Z; [exact Hsel|apply IH; exact Hsel]. }
  destruct n as [|[|[|n]]]; [exact Hsel|exact H1..].
Qed.

Lemma applyOp_closed w op id p :
  uniqueIds (db w) ->
  selectPosition (db w) id = Some p ->
  Position.status p = CLOSED ->
  deletes id op = false ->
  exists p',
    selectPosition (db (applyOp w op)) id = Some p'
    /\ withoutSlTp p' = withoutSlTp p.
Proof.
  intros Hu Hsel Hs Hdel.
  destruct op as [data E fee now | j data now | j cp fee ev now
                  | j | data | symbol mark ts now]; simpl.
  - exists p. split; [|reflexivity].
    destruct (isPositionSide (CreatePositionRequest.side data)) as [side|]
      eqn:Hside.
    + pose proof (@createPosition_outcome data E fee now w side Hside) as H.
      cbv zeta in H.
      destruct H as [(n & _ & _ & -> & _) | (_ & ->)];
        apply select_createStage_old; exact Hsel.
    + pose proof (@createPosition_bad_side data E fee now w Hside) as [_ ->].
      exact Hsel.
  - destruct (providesField data) eqn:Hp.
    + pose proof (@updatePosition_stores j data now w Hp) as H.
      cbv zeta in H.
      assert (Hd1 : exists p',
                 selectPosition (afterUpdate (db w) j (applyUpdates data)) id
                 = Some p' /\ withoutSlTp p' = withoutSlTp p).
      { destruct (Z.eq_dec id j) as [->|Hne].
        - exists (applyUpdates data p). split.
          + apply select_afterUpdate;
              [apply keepsId_applyUpdates|exact Hsel].
          + apply withoutSlTp_applyUpdates.
        - exists p. split; [|reflexivity].
          unfold selectPosition, afterUpdate.
          cbn [paper_positions set_positions].
          rewrite find_updateRow_other;
            [exact Hsel|apply keepsId_applyUpdates|exact Hne]. }
      destruct H as [(_ & [-> | ->] & _) | (_ & -> & _)].
      * exists p. split; [exact Hsel|reflexivity].
      * exact Hd1.
      * exact Hd1.
    + destruct data as [[|] [|]]; try discriminate.
      exists p. split; [exact Hsel|reflexivity].
  - exists p. split; [|reflexivity].
    destruct (selectPosition (db w) j) as [q|] eqn:Hq.
    2:{ rewrite (@closePosition_noop_absent j cp fee ev now w Hq).
        exact Hsel. }
    destruct (Position.status q) eqn:Hqs.
    2:{ rewrite (@closePosition_noop_closed j cp fee ev now w q Hq Hqs).
        exact Hsel. }
    pose proof (@closePosition_open j cp fee ev now w q Hq Hqs) as H.
    cbv zeta in H.
    assert (Hne : id <> Position.id q).
    { intro E. rewrite (select_id _ _ Hq) in E. subst j. congruence. }
    destruct H as [(n & _ & _ & -> & _) | (_ & ->)];
      rewrite select_closeStage_other; assumption.
  - exists p. split; [|reflexivity]. simpl in Hdel.
    destruct (deletePosition_cases j w) as [(e & -> & _) | ->]; simpl;
      [exact Hsel|].
    rewrite select_withoutPosition.
    rewrite Z.eqb_sym, Hdel. exact Hsel.
  - exists p. split; [|reflexivity].
    destruct (updateSettings_db data w) as [-> | ->]; exact Hsel.
  - exists p. split; [|reflexivity].
    rewrite handlePriceUpdate_world. cbn [emit db].
    rewrite checkTriggersForSymbol_world.
    set (w0 := set_priceCache w _).
    assert (Hin : In p (paper_positions (db w)))
      by (apply (@select_In _ id); exact Hsel).
    assert (Hw : watched symbol p = false)
      by (unfold watched; rewrite Hs; reflexivity).
    pose proof (@unwatched_not_In symbol (db w0) p Hu Hin Hw) as Hnot.
    destruct (@forEachPosition_frame (Position.id p) _ mark now Hnot w0)
      as [H1 _].
    assert (Hid : Position.id p = id) by (apply (select_id _ _ Hsel)).
    rewrite Hid in H1. rewrite H1. exact Hsel.
Qed.

Lemma withoutSlTp_status p p' :
  withoutSlTp p' = withoutSlTp p -> Position.status p' = Position.status p.
Proof.
  intro H. apply (f_equal Position.status) in H. exact H.
Qed.

(** X28.  A closed position is history: whatever positions are created,
    updated, closed or deleted besides, whatever settings are changed and
    whatever ticks arrive, as long as the position itself is not deleted
    it stays stored and CLOSED, and nothing but its [sl] and [tp] can
    change: its close price, close time, realized PnL and fees are kept. *)
Theorem closed_positions_are_history (ops : list StoreOp) w id p :
  storeIntegrity (db w) ->
  selectPosition (db w) id = Some p ->
  Position.status p = CLOSED ->
  Forall (fun op => deletes id op = false) ops ->
  exists p',
    selectPosition (db (fold_left applyOp ops w)) id = Some p'
    /\ withoutSlTp p' = withoutSlTp p
    /\ Position.status p' = CLOSED
    /\ Position.closePrice p' = Position.closePrice p
    /\ Position.closeTime p' = Position.closeTime p
    /\ Position.realizedPnl p' = Position.realizedPnl p
    /\ Position.feesClose p' = Position.feesClose p.
Proof.
  intros Hi Hsel Hs Hops.
  assert (H : exists p',
             selectPosition (db (fold_left applyOp ops w)) id = Some p'
             /\ withoutSlTp p' = withoutSlTp p).
  { revert w p Hi Hsel Hs.
    induction Hops as [|op ops Hop _ IH]; intros w p Hi Hsel Hs.
    - exists p. split; [exact Hsel|reflexivity].
    - simpl.
      destruct (@applyOp_closed w op id p (proj1 Hi) Hsel Hs Hop)
        as (p1 & Hsel1 & Hw1).
      assert (Hs1 : Position.status p1 = CLOSED)
        by (rewrite (withoutSlTp_status Hw1); exact Hs).
      destruct (IH (applyOp w op) p1 (integrity_applyOp w op Hi) Hsel1 Hs1)
        as (p' & Hsel' & Hw').
      exists p'. split; [exact Hsel'|]. rewrite Hw'. exact Hw1. }
  destruct H as (p' & Hsel' & Hw').
  exists p'. split; [exact Hsel'|]. split; [exact Hw'|].
  split; [rewrite (withoutSlTp_status Hw'); exact Hs|].
  split; [exact (f_equal Position.closePrice Hw')|].
  split; [exact (f_equal Position.closeTime Hw')|].
  split; [exact (f_equal Position.realizedPnl Hw')|].
  exact (f_equal Position.feesClose Hw').
Qed.

Lemma closed_positions_are_history_witness :
  exists p',
    selectPosition
      (db (fold_left applyOp
             [OpTick "BTCUSDT" 50 2500 2500;
              OpUpdate 1 (UpdatePositionRequest.mk (Some (Some 90)) None) 3000;
              OpClose 1 120 0 CloseManual 4000]
             worldS1closed)) 1 = Some p'
    /\ withoutSlTp p' = withoutSlTp positionS1closed.
Proof.
  assert (Hi : storeIntegrity (db worldS1closed)).
  { apply (integrity_applyOp worldS1 (OpClose 1 110 (44 # 100) CloseTP 2000)).
    apply (integrity_applyOp freshWorld
             (OpCreate requestS1 100 (4 # 10) 1000)).
    apply integrity_emptyDb. }
  destruct (@closed_positions_are_history
              [OpTick "BTCUSDT" 50 2500 2500;
               OpUpdate 1 (UpdatePositionRequest.mk (Some (Some 90)) None) 3000;
               OpClose 1 120 0 CloseManual 4000]
              worldS1closed 1 positionS1closed Hi eq_refl eq_refl)
    as (p' & H1 & H2 & _).
  - repeat constructor.
  - exists p'. split; [exact H1|exact H2].
Defined.

(** ** Closing and the statistics *)

Lemma map_updateRow_absent id f (l : list Position.t) :
  ~ In id (map Position.id l) -> map (updateRow id f) l = l.
Proof.
  induction l as [|q l IH]; simpl; intro H; [reflexivity|].
  unfold updateRow at 1.
  destruct (Position.id q =? id)%Z eqn:E.
  - apply Z.eqb_eq in E. exfalso. apply H. left. exact E.
  - rewrite IH; [reflexivity|]. intro Hin. apply H. right. exact Hin.
Qed.

Lemma rows_after_close (l : list Position.t) p f :
  NoDup (map Position.id l) -> In p l ->
  Position.status p = OPEN -> Position.status (f p) = CLOSED ->
  Permutation
    (filter (fun q => statusEqb (Position.status q) CLOSED)
            (map (updateRow (Position.id p) f) l))
    (f p :: filter (fun q => statusEqb (Position.status q) CLOSED) l)
  /\ Permutation
       (p :: filter (fun q => statusEqb (Position.status q) OPEN)
                    (map (updateRow (Position.id p) f) l))
       (filter (fun q => statusEqb (Position.status q) OPEN) l).
Proof.
  intros Hnd Hin Hs Hfs.
  induction l as [|q l IH]; [contradiction|].
  simpl in Hnd. inversion Hnd as [|? ? Hq Hl]; subst.
  cbn [map]. unfold updateRow at 1. unfold updateRow at 2.
  destruct (Position.id q =? Position.id p)%Z eqn:E.
  - apply Z.eqb_eq in E.
    assert (q = p).
    { destruct Hin as [Hin|Hin]; [exact Hin|].
      exfalso. apply Hq. rewrite E. apply in_map. exact Hin. }
    subst q. rewrite (@map_updateRow_absent (Position.id p) f l Hq).
    cbn [filter]. rewrite Hfs, Hs. cbn [statusEqb].
    split; reflexivity.
  - assert (Hin' : In p l).
    { destruct Hin as [->|Hin]; [|exact Hin].
      rewrite Z.eqb_refl in E. discriminate. }
    destruct (IH Hl Hin') as [IH1 IH2].
    cbn [filter]. destruct (Position.status q); cbn [statusEqb].
    + split; [exact IH1|].
      rewrite perm_swap. constructor. exact IH2.
    + split; [|exact IH2].
      rewrite IH1. apply perm_swap.
Qed.

(** X29.  Closing an open position, the storage layer refusing nothing,
    moves exactly that position from the open to the closed positions
    that the statistics route reads, as the closed row with its realized
    PnL, and leaves every other position where it was: the closed count
    goes up by one, the open count down by one, the total count stays,
    and the balance is still the same base balance plus the total of the
    closed listing. *)
Theorem closing_moves_one_position id closePrice fee event now w p :
  uniqueIds (db w) ->
  selectPosition (db w) id = Some p ->
  Position.status p = OPEN ->
  io w = [] ->
  let w' := snd (closePosition id closePrice fee event now w) in
  exists s s',
    Stats.GET w = (Ok s, w)
    /\ Stats.GET w' = (Ok s', w')
    /\ Permutation (selectPositions (db w') (Some CLOSED))
                   (closedRow p closePrice fee now
                    :: selectPositions (db w) (Some CLOSED))
    /\ Permutation (p :: selectPositions (db w') (Some OPEN))
                   (selectPositions (db w) (Some OPEN))
    /\ Position.realizedPnl (closedRow p closePrice fee now)
       = realizedPnlOf p closePrice fee
    /\ Stats.closedPositions s' = S (Stats.closedPositions s)
    /\ S (Stats.openPositions s') = Stats.openPositions s
    /\ Stats.totalPositions s' = Stats.totalPositions s
    /\ Stats.currentBalance s'
       = Settings.baseBalance (settings (db w)) + Stats.stats_totalPnl s'.
Proof.
  intros Hu Hsel Hs Hio w'.
  pose proof (@closePosition_open id closePrice fee event now w p Hsel Hs)
    as Hc.
  cbv zeta in Hc. fold w' in Hc.
  destruct Hc as [(n & _ & _ & _ & Hne) | (_ & Hdb)]; [contradiction|].
  assert (Hid : Position.id p = id) by (apply (select_id _ _ Hsel)).
  assert (Hin : In p (paper_positions (db w)))
    by (apply (@select_In _ id); exact Hsel).
  set (f := markClosed closePrice now (realizedPnlOf p closePrice fee) fee).
  assert (Hrows : paper_positions (db w')
                  = map (updateRow (Position.id p) f)
                        (paper_positions (db w))).
  { rewrite Hdb. reflexivity. }
  assert (Hset : settings (db w') = settings (db w))
    by (rewrite Hdb; reflexivity).
  destruct (@rows_after_close (paper_positions (db w)) p f Hu Hin Hs eq_refl)
    as [Pc Po].
  rewrite <- Hrows in Pc, Po.
  assert (Pc' : Permutation (selectPositions (db w') (Some CLOSED))
                            (closedRow p closePrice fee now
                             :: selectPositions (db w) (Some CLOSED))).
  { unfold selectPositions.
    rewrite (orderByEntryTimeDesc_perm
               (filter _ (paper_positions (db w')))), Pc.
    constructor. symmetry. apply orderByEntryTimeDesc_perm. }
  assert (Po' : Permutation (p :: selectPositions (db w') (Some OPEN))
                            (selectPositions (db w) (Some OPEN))).
  { unfold selectPositions.
    rewrite (orderByEntryTimeDesc_perm
               (filter _ (paper_positions (db w')))), Po.
    symmetry. apply orderByEntryTimeDesc_perm. }
  do 2 eexists. split; [reflexivity|]. split; [reflexivity|].
  cbn [Stats.stats_totalPnl Stats.currentBalance Stats.closedPositions
       Stats.openPositions Stats.totalPositions].
  split; [exact Pc'|]. split; [exact Po'|]. split; [reflexivity|].
  split; [rewrite (Permutation_length Pc'); reflexivity|].
  split; [rewrite <- (Permutation_length Po'); reflexivity|].
  split; [|rewrite Hset; reflexivity].
  unfold selectPositions.
  rewrite !(Permutation_length (orderByEntryTimeDesc_perm _)).
  rewrite Hrows, length_map. reflexivity.
Qed.

Lemma closing_moves_one_position_witness :
  exists s s',
    Stats.GET worldS1 = (Ok s, worldS1)
    /\ Stats.GET worldS1closed = (Ok s', worldS1closed)
    /\ Stats.closedPositions s' = S (Stats.closedPositions s)
    /\ S (Stats.openPositions s') = Stats.openPositions s.
Proof.
  assert (Hu : uniqueIds (db worldS1))
    by (vm_compute; repeat constructor; intros []).
  destruct (@closing_moves_one_position 1 110 (44 # 100) CloseTP 2000 worldS1
              positionS1 Hu eq_refl eq_refl eq_refl)
    as (s & s' & H1 & H2 & _ & _ & _ & H3 & H4 & _).
  exists s, s'. split; [exact H1|]. split; [exact H2|].
  split; [exact H3|exact H4].
Defined.

(** ** The snapshot sent to a new client *)

Lemma tick_priceCache symbol mark now w :
  priceCache (tick symbol mark now w)
  = mapSet (toUpperCase symbol) mark (priceCache w).
Proof.
  unfold tick. rewrite handlePriceUpdate_world, checkTriggersForSymbol_world.
  cbn [priceCache emit]. rewrite priceCache_forEachPosition. reflexivity.
Qed.

(** X30.  The snapshot sent to a client that connects after a tick has
    one row per open position.  A row whose symbol has the upper-case form
    of the tick's symbol carries the tick's mark price and the PnL at that
    price, or no price at all when the mark price is 0; every other row
    is what it would have been before the tick. *)
Theorem snapshot_after_tick symbol markPrice now later w :
  let w' := tick symbol markPrice now w in
  exists rows,
    StreamRoute.start later w'
    = (Ok [StreamRoute.ConnectedMessage later;
           StreamRoute.InitialMessage rows], w')
    /\ map StreamRoute.position rows = selectPositions (db w') (Some OPEN)
    /\ (forall row,
          In row rows ->
          toUpperCase (Position.symbol (StreamRoute.position row))
          = toUpperCase symbol ->
          let pos := StreamRoute.position row in
          (~ markPrice == 0 ->
           StreamRoute.initialMarkPrice row = Some markPrice
           /\ StreamRoute.initialUnrealizedPnl row
              = Some (Calc.calculateUnrealizedPnL (Position.side pos)
                        (Position.entryPrice pos) markPrice
                        (Position.qty pos))
           /\ StreamRoute.initialPnlPercent row
              = Some (calculatePnLPercent
                        (Calc.calculateUnrealizedPnL (Position.side pos)
                           (Position.entryPrice pos) markPrice
                           (Position.qty pos))
                        (Position.entryPrice pos) (Position.qty pos)))
          /\ (markPrice == 0 ->
              StreamRoute.initialMarkPrice row = None
              /\ StreamRoute.initialUnrealizedPnl row = None
              /\ StreamRoute.initialPnlPercent row = None))
    /\ (forall row,
          In row rows ->
          toUpperCase (Position.symbol (StreamRoute.position row))
          <> toUpperCase symbol ->
          row = StreamRoute.initialRow (priceCache w)
                                       (StreamRoute.position row)).
Proof.
  intro w'. eexists. split; [reflexivity|].
  assert (Hpos : forall cache l,
             map StreamRoute.position (map (StreamRoute.initialRow cache) l)
             = l).
  { intros cache l. rewrite map_map. rewrite <- (map_id l) at 2.
    apply map_ext. intro p. unfold StreamRoute.initialRow.
    destruct (numOrNull _); reflexivity. }
  split; [apply Hpos|].
  assert (Hcache : priceCache w'
                   = mapSet (toUpperCase symbol) markPrice (priceCache w))
    by apply tick_priceCache.
  split.
  - intros row Hrow Hsym pos.
    apply in_map_iff in Hrow. destruct Hrow as (p & <- & _).
    assert (Ep : StreamRoute.position
                   (StreamRoute.initialRow (priceCache w') p) = p).
    { unfold StreamRoute.initialRow. destruct (numOrNull _); reflexivity. }
    subst pos. rewrite Ep in *.
    unfold StreamRoute.initialRow. rewrite Hcache, Hsym, mapGet_mapSet_same.
    cbn [numOrNull]. split.
    + intro Hne. rewrite (isZero_false Hne). cbn. repeat split.
    + intro Hz. apply (proj2 (isZero_iff markPrice)) in Hz. rewrite Hz.
      repeat split.
  - intros row Hrow Hsym.
    apply in_map_iff in Hrow. destruct Hrow as (p & <- & _).
    assert (Ep : StreamRoute.position
                   (StreamRoute.initialRow (priceCache w') p) = p).
    { unfold StreamRoute.initialRow. destruct (numOrNull _); reflexivity. }
    rewrite Ep in *.
    unfold StreamRoute.initialRow.
    rewrite Hcache, (@mapGet_mapSet_other _ (toUpperCase symbol)
                       (toUpperCase (Position.symbol p)) markPrice
                       (priceCache w) Hsym).
    reflexivity.
Qed.
